(** * SuperiorAPIs n8n nodes: a shallow embedding and its properties

    The development follows the two node sources:
    - [SuperiorApis] (the API node: descriptor cache, descriptor codec,
      the loaders of the API, method and scenario options, field
      derivation, request assembly and the loop over the items), and
    - [SuperiorApisMcp] (the MCP node: JSON-RPC envelope, HTTP / SSE
      transports, the SSE accumulation loop).

    JavaScript values are modelled by the type [json] (the values that
    [JSON.parse] can produce) with [option json] for a possibly
    [undefined] value; a JavaScript object is the list of its own
    enumerable properties in enumeration order.  Strings are byte
    strings (the UTF-8 encoding of the text), so [Buffer.from(s)] and
    [buf.toString()] are the identity on them. *)

From stdpp Require Import base gmap strings.
From Stdlib Require Import String Ascii List ZArith Lia Bool.
From Stdlib Require Decimal DecimalFacts DecimalPos DecimalZ DecimalNat.

Set Warnings "-abstract-large-number".
Import ListNotations.

Local Open Scope string_scope.
Local Open Scope list_scope.

(* ================================================================== *)
(** * Text: the string operations of the JavaScript runtime            *)
(* ================================================================== *)


Module JsText.

Definition chars := list ascii.

Definition unstr (s : string) : chars := list_ascii_of_string s.
Definition str (l : chars) : string := string_of_list_ascii l.

Definition byte (n : nat) : ascii := ascii_of_nat n.

(** The double quote character (code 34). *)
Abbreviation dquote := (Ascii false true false false false true false false).

(** [s.startsWith(p)] *)
Fixpoint starts_with_chars (p s : chars) : bool :=
  match p, s with
  | [], _ => true
  | a :: p', b :: s' => Ascii.eqb a b && starts_with_chars p' s'
  | _ :: _, [] => false
  end.

Definition starts_with (p s : string) : bool :=
  starts_with_chars (unstr p) (unstr s).

(** [s.includes(p)] *)
Fixpoint includes_chars (p s : chars) : bool :=
  starts_with_chars p s ||
  match s with
  | [] => false
  | _ :: r => includes_chars p r
  end.

Definition includes (p s : string) : bool :=
  includes_chars (unstr p) (unstr s).

(** [s.substring(n)] *)
Definition substring_from (n : nat) (s : string) : string :=
  str (skipn n (unstr s)).

(** [s.substring(0, n)] *)
Definition substring_to (n : nat) (s : string) : string :=
  str (firstn n (unstr s)).

(** [s.replace(pat, '')]: the first occurrence of [pat] is removed. *)
Fixpoint remove_first_chars (pat s : chars) : chars :=
  if starts_with_chars pat s then skipn (length pat) s
  else match s with
       | [] => []
       | c :: r => c :: remove_first_chars pat r
       end.

Definition remove_first (pat s : string) : string :=
  str (remove_first_chars (unstr pat) (unstr s)).

(** [s.indexOf(c)] for a one-character needle; [None] stands for -1. *)
Fixpoint index_of_chars (c : ascii) (s : chars) : option nat :=
  match s with
  | [] => None
  | a :: r => if Ascii.eqb a c then Some 0
              else match index_of_chars c r with
                   | Some i => Some (S i)
                   | None => None
                   end
  end.

Definition index_of (c : ascii) (s : string) : option nat :=
  index_of_chars c (unstr s).

(** [s.split(sep)] for a non-empty separator: the pieces between the
    non-overlapping occurrences of [sep], scanned from the left.  [skip]
    counts the characters of a matched separator still to be dropped. *)
Fixpoint split_go (sep : chars) (skip : nat) (cur : chars) (s : chars)
  : list chars :=
  match s with
  | [] => [rev cur]
  | c :: r =>
      match skip with
      | S k => split_go sep k cur r
      | O => if starts_with_chars sep s
             then rev cur :: split_go sep (length sep - 1) [] r
             else split_go sep O (c :: cur) r
      end
  end.

Definition split_on (sep s : string) : list string :=
  map str (split_go (unstr sep) O [] (unstr s)).

(** The white space and line terminators that [trim] removes, as UTF-8
    byte sequences: TAB, LF, VT, FF, CR, SP, U+00A0, U+1680,
    U+2000..U+200A, U+2028, U+2029, U+202F, U+205F, U+3000, U+FEFF. *)
Definition ws_seqs : list chars :=
  map (map byte)
    [ [9]; [10]; [11]; [12]; [13]; [32];
      [194; 160];
      [225; 154; 128];
      [226; 128; 128]; [226; 128; 129]; [226; 128; 130]; [226; 128; 131];
      [226; 128; 132]; [226; 128; 133]; [226; 128; 134]; [226; 128; 135];
      [226; 128; 136]; [226; 128; 137]; [226; 128; 138];
      [226; 128; 168]; [226; 128; 169]; [226; 128; 175];
      [226; 129; 159];
      [227; 128; 128];
      [239; 187; 191] ].

(** Length of the white-space sequence [s] starts with (0: none). *)
Fixpoint ws_prefix_len (seqs : list chars) (s : chars) : nat :=
  match seqs with
  | [] => O
  | q :: seqs' => if starts_with_chars q s then length q
                  else ws_prefix_len seqs' s
  end.

Fixpoint strip_ws (fuel : nat) (seqs : list chars) (s : chars) : chars :=
  match fuel with
  | O => s
  | S f => match ws_prefix_len seqs s with
           | O => s
           | n => strip_ws f seqs (skipn n s)
           end
  end.

Definition trim_start_chars (s : chars) : chars :=
  strip_ws (length s) ws_seqs s.

Definition trim_end_chars (s : chars) : chars :=
  rev (strip_ws (length s) (map (@rev ascii) ws_seqs) (rev s)).

(** [s.trim()] *)
Definition trim (s : string) : string :=
  str (trim_end_chars (trim_start_chars (unstr s))).

(** [toLowerCase] / [toUpperCase] on the ASCII letters; other bytes are
    kept (the verbs and keys of this program are ASCII). *)
Definition lower_char (c : ascii) : ascii :=
  let n := nat_of_ascii c in
  if (65 <=? n)%nat && (n <=? 90)%nat then ascii_of_nat (n + 32) else c.

Definition upper_char (c : ascii) : ascii :=
  let n := nat_of_ascii c in
  if (97 <=? n)%nat && (n <=? 122)%nat then ascii_of_nat (n - 32) else c.

Definition to_lower (s : string) : string := str (map lower_char (unstr s)).
Definition to_upper (s : string) : string := str (map upper_char (unstr s)).

(** Decimal digits of a number, as [String(n)] prints an integer. *)
Definition digit_char (n : nat) : ascii := ascii_of_nat (48 + n).

Fixpoint chars_of_uint (d : Decimal.uint) : chars :=
  match d with
  | Decimal.Nil => []
  | Decimal.D0 d => digit_char 0 :: chars_of_uint d
  | Decimal.D1 d => digit_char 1 :: chars_of_uint d
  | Decimal.D2 d => digit_char 2 :: chars_of_uint d
  | Decimal.D3 d => digit_char 3 :: chars_of_uint d
  | Decimal.D4 d => digit_char 4 :: chars_of_uint d
  | Decimal.D5 d => digit_char 5 :: chars_of_uint d
  | Decimal.D6 d => digit_char 6 :: chars_of_uint d
  | Decimal.D7 d => digit_char 7 :: chars_of_uint d
  | Decimal.D8 d => digit_char 8 :: chars_of_uint d
  | Decimal.D9 d => digit_char 9 :: chars_of_uint d
  end.

Definition chars_of_Z (z : Z) : chars :=
  match Z.to_int z with
  | Decimal.Pos d => chars_of_uint d
  | Decimal.Neg d => "-"%char :: chars_of_uint d
  end.

Definition chars_of_nat (n : nat) : chars := chars_of_uint (Nat.to_uint n).

Definition string_of_Z (z : Z) : string := str (chars_of_Z z).
Definition string_of_nat (n : nat) : string := str (chars_of_nat n).

End JsText.

Import JsText.

(* ================================================================== *)
(** * Values, objects and errors of the JavaScript runtime             *)
(* ================================================================== *)

Module Js.

(** The values [JSON.parse] produces.  Numbers are the integers
    (fractions and exponents, i.e. floating point, are outside the
    model).  An object is the list of its own properties in
    enumeration order, with pairwise distinct keys. *)
#[warnings="-register-all"] Inductive json : Type :=
| JNull
| JBool (b : bool)
| JNum (n : Z)
| JStr (s : string)
| JArr (l : list json)
| JObj (kvs : list (string * json)).

(** A value that may be [undefined]. *)
Definition jsval : Type := option json.

Definition obj : Type := list (string * json).

Inductive error : Type :=
| TypeError (msg : string)
| SyntaxError (msg : string)
| NodeOperationError (msg : string)
| RequestError (msg : string)
| GenericError (msg : string).

Inductive result (A : Type) : Type :=
| Ok (a : A)
| Err (e : error).

Arguments Ok {A} a.
Arguments Err {A} e.

Definition bind {A B : Type} (m : result A) (k : A -> result B) : result B :=
  match m with
  | Ok a => k a
  | Err e => Err e
  end.

(** The message of a thrown value, [(error as Error).message]. *)
Definition message (e : error) : string :=
  match e with
  | TypeError m | SyntaxError m | NodeOperationError m | RequestError m
  | GenericError m => m
  end.

(** Truthiness ([if (v)], [!v], [v || d], [v && w]). *)
Definition truthy (v : json) : bool :=
  match v with
  | JNull => false
  | JBool b => b
  | JNum n => negb (Z.eqb n 0)
  | JStr s => negb (String.eqb s "")
  | JArr _ | JObj _ => true
  end.

Definition truthy_val (v : jsval) : bool :=
  match v with
  | Some j => truthy j
  | None => false
  end.

(** [v || d] *)
Definition or_else (v : jsval) (d : json) : json :=
  match v with
  | Some j => if truthy j then j else d
  | None => d
  end.

(** [v !== undefined ? v : d] *)
Definition if_defined (v : jsval) (d : json) : json :=
  match v with
  | Some j => j
  | None => d
  end.

(** [v === n] for a number literal *)
Definition is_num (v : jsval) (n : Z) : bool :=
  match v with
  | Some (JNum m) => Z.eqb m n
  | _ => false
  end.

(** [v === 'lit'] *)
Definition is_str (v : jsval) (lit : string) : bool :=
  match v with
  | Some (JStr s) => String.eqb s lit
  | _ => false
  end.

(** ** Own properties of an object *)

Fixpoint obj_get (k : string) (o : obj) : jsval :=
  match o with
  | [] => None
  | (k', v) :: r => if String.eqb k k' then Some v else obj_get k r
  end.

(** [CreateDataProperty]: an existing key keeps its place, a new key is
    appended. *)
Fixpoint obj_set (k : string) (v : json) (o : obj) : obj :=
  match o with
  | [] => [(k, v)]
  | (k', v') :: r =>
      if String.eqb k k' then (k, v) :: r else (k', v') :: obj_set k v r
  end.

(** [delete o.k] *)
Fixpoint obj_delete (k : string) (o : obj) : obj :=
  match o with
  | [] => []
  | (k', v) :: r =>
      if String.eqb k k' then obj_delete k r else (k', v) :: obj_delete k r
  end.

(** The members of an object literal taken in order: a repeated key
    keeps its first place and takes the later value. *)
Definition obj_extend (a b : obj) : obj :=
  fold_left (fun acc kv => obj_set (fst kv) (snd kv) acc) b a.

(** [{ ...a, ...b }] where [b] lists own properties
    (CopyDataProperties: each own key of [b] in order, with the value
    read from [b]). *)
Definition obj_spread (a b : obj) : obj :=
  fold_left (fun acc k => match obj_get k b with
                          | Some v => obj_set k v acc
                          | None => acc
                          end) (map fst b) a.

(** [o[k] = v] on an ordinary object.  Assigning the key [__proto__]
    goes to the prototype setter and creates no own property; what a
    replaced prototype would add by inheritance is outside the model. *)
Definition obj_assign (k : string) (v : json) (o : obj) : obj :=
  if String.eqb k "__proto__" then o else obj_set k v o.

Definition keys_distinct (o : obj) : Prop := NoDup (map fst o).

(** The index keys ["0"], ["1"], ... of an array or a string. *)
Fixpoint indexed {A : Type} (i : nat) (l : list A) : list (string * A) :=
  match l with
  | [] => []
  | x :: r => (string_of_nat i, x) :: indexed (S i) r
  end.

(** The own enumerable string-keyed properties of a value, as spread
    and [Object.keys] see them. *)
Definition own_props (v : json) : obj :=
  match v with
  | JObj o => o
  | JArr l => indexed 0 l
  | JStr s => indexed 0 (map (fun c => JStr (String c EmptyString)) (unstr s))
  | JNull | JBool _ | JNum _ => []
  end.

(** [Object.keys(v)]: throws on [null] and [undefined]. *)
Definition object_keys (v : jsval) : result (list string) :=
  match v with
  | None | Some JNull =>
      Err (TypeError "Cannot convert undefined or null to object")
  | Some j => Ok (map fst (own_props j))
  end.

(** [v[k]] and [v.k]: throws on [null] and [undefined]; own properties
    and [length] only (inherited properties are not modelled). *)
Definition get_prop (v : jsval) (k : string) : result jsval :=
  match v with
  | None | Some JNull =>
      Err (TypeError ("Cannot read properties of undefined or null (reading '"
                      +:+ k +:+ "')"))
  | Some (JArr l) =>
      if String.eqb k "length" then Ok (Some (JNum (Z.of_nat (length l))))
      else Ok (obj_get k (indexed 0 l))
  | Some (JStr s) =>
      if String.eqb k "length"
      then Ok (Some (JNum (Z.of_nat (String.length s))))
      else Ok (obj_get k (own_props (JStr s)))
  | Some j => Ok (obj_get k (own_props j))
  end.

(** [v?.k] *)
Definition get_prop_opt (v : jsval) (k : string) : jsval :=
  match v with
  | None | Some JNull => None
  | _ => match get_prop v k with Ok r => r | Err _ => None end
  end.

(** [delete v.k]: throws on [null] and [undefined]; arrays and
    primitives have no such own property and stay as they are. *)
Definition delete_prop (v : json) (k : string) : result json :=
  match v with
  | JNull => Err (TypeError ("Cannot convert undefined or null to object"))
  | JObj o => Ok (JObj (obj_delete k o))
  | _ => Ok v
  end.

(** [String(v)], as a template literal converts a value. *)
Fixpoint to_str (v : json) : string :=
  match v with
  | JNull => "null"
  | JBool true => "true"
  | JBool false => "false"
  | JNum n => string_of_Z n
  | JStr s => s
  | JArr l =>
      (fix join (l : list json) : string :=
         match l with
         | [] => ""
         | [x] => match x with JNull => "" | _ => to_str x end
         | x :: r => (match x with JNull => "" | _ => to_str x end)
                     +:+ "," +:+ join r
         end) l
  | JObj _ => "[object Object]"
  end.

Definition to_str_val (v : jsval) : string :=
  match v with
  | Some j => to_str j
  | None => "undefined"
  end.

End Js.

Import Js.

Notation "'let*' x ':=' m 'in' k" := (bind m (fun x => k))
  (at level 10, x name, m at level 100, k at level 200).

(* ================================================================== *)
(** * JSON.stringify and JSON.parse                                    *)
(* ================================================================== *)

Module Json.

Local Open Scope char_scope.

(** ** JSON.stringify *)

Definition hex_digit (n : nat) : ascii :=
  if (n <? 10)%nat then ascii_of_nat (48 + n) else ascii_of_nat (87 + n).

(** The escape of one character inside a string literal (QuoteJSONString):
    the quote, the backslash and the control characters are escaped,
    every other byte is copied. *)
Definition escape_char (c : ascii) : chars :=
  let n := nat_of_ascii c in
  if Ascii.eqb c dquote then ["\"; dquote]
  else if Ascii.eqb c "\" then ["\"; "\"]
  else if (n =? 8)%nat then ["\"; "b"]
  else if (n =? 9)%nat then ["\"; "t"]
  else if (n =? 10)%nat then ["\"; "n"]
  else if (n =? 12)%nat then ["\"; "f"]
  else if (n =? 13)%nat then ["\"; "r"]
  else if (n <? 32)%nat
       then ["\"; "u"; "0"; "0"; hex_digit (n / 16); hex_digit (n mod 16)]
  else [c].

Definition quote (s : string) : chars :=
  dquote :: flat_map escape_char (unstr s) ++ [dquote].

(** [JSON.stringify(v)] without indentation. *)
Fixpoint print (v : json) : chars :=
  match v with
  | JNull => unstr "null"
  | JBool true => unstr "true"
  | JBool false => unstr "false"
  | JNum n => chars_of_Z n
  | JStr s => quote s
  | JArr [] => unstr "[]"
  | JArr (x :: r) =>
      "[" :: print x ++
      (fix tail (r : list json) : chars :=
         match r with
         | [] => ["]"]
         | y :: r' => "," :: print y ++ tail r'
         end) r
  | JObj [] => unstr "{}"
  | JObj ((k, x) :: r) =>
      "{" :: quote k ++ ":" :: print x ++
      (fix tail (r : list (string * json)) : chars :=
         match r with
         | [] => ["}"]
         | (k', y) :: r' => "," :: quote k' ++ ":" :: print y ++ tail r'
         end) r
  end.

Definition stringify (v : json) : string := str (print v).

(** [JSON.stringify(v, null, 4)]: one member per line, each nesting
    level indented by [step] more spaces. *)
Definition newline_indent (n : nat) : chars := byte 10 :: repeat " " n.

Fixpoint print_indent (step ind : nat) (v : json) : chars :=
  match v with
  | JArr (x :: r) =>
      "[" :: newline_indent (ind + step) ++ print_indent step (ind + step) x ++
      (fix tail (r : list json) : chars :=
         match r with
         | [] => newline_indent ind ++ ["]"]
         | y :: r' => "," :: newline_indent (ind + step)
                      ++ print_indent step (ind + step) y ++ tail r'
         end) r
  | JObj ((k, x) :: r) =>
      "{" :: newline_indent (ind + step) ++ quote k ++ ":" :: " "
      :: print_indent step (ind + step) x ++
      (fix tail (r : list (string * json)) : chars :=
         match r with
         | [] => newline_indent ind ++ ["}"]
         | (k', y) :: r' => "," :: newline_indent (ind + step) ++ quote k'
                            ++ ":" :: " "
                            :: print_indent step (ind + step) y ++ tail r'
         end) r
  | _ => print v
  end.

Definition stringify_indent (step : nat) (v : json) : string :=
  str (print_indent step 0 v).

(** ** JSON.parse *)

Definition is_ws (c : ascii) : bool :=
  Ascii.eqb c " " || Ascii.eqb c (byte 9) || Ascii.eqb c (byte 10)
  || Ascii.eqb c (byte 13).

Fixpoint skip_ws (s : chars) : chars :=
  match s with
  | c :: r => if is_ws c then skip_ws r else s
  | [] => []
  end.

Definition digit_of_char (c : ascii) : option (Decimal.uint -> Decimal.uint) :=
  match (nat_of_ascii c - 48)%nat with
  | 0 => if Ascii.eqb c "0" then Some Decimal.D0 else None
  | 1 => Some Decimal.D1
  | 2 => Some Decimal.D2
  | 3 => Some Decimal.D3
  | 4 => Some Decimal.D4
  | 5 => Some Decimal.D5
  | 6 => Some Decimal.D6
  | 7 => Some Decimal.D7
  | 8 => Some Decimal.D8
  | 9 => Some Decimal.D9
  | _ => None
  end.

Fixpoint lex_uint (s : chars) : Decimal.uint * chars :=
  match s with
  | c :: r =>
      match digit_of_char c with
      | Some mk => let (d, r') := lex_uint r in (mk d, r')
      | None => (Decimal.Nil, s)
      end
  | [] => (Decimal.Nil, [])
  end.

Definition starts_fraction (s : chars) : bool :=
  match s with
  | c :: _ => Ascii.eqb c "." || Ascii.eqb c "e" || Ascii.eqb c "E"
  | [] => false
  end.

(** An integer literal: an optional minus sign and digits without a
    leading zero.  A fraction or an exponent makes the literal a
    floating-point number, which the model does not hold: [None]. *)
Definition parse_number (s : chars) : option (json * chars) :=
  let (neg, s1) :=
    match s with
    | c :: r => if Ascii.eqb c "-" then (true, r) else (false, s)
    | [] => (false, s)
    end in
  let (d, r) := lex_uint s1 in
  match d with
  | Decimal.Nil => None
  | Decimal.D0 (Decimal.D0 _ | Decimal.D1 _ | Decimal.D2 _ | Decimal.D3 _
               | Decimal.D4 _ | Decimal.D5 _ | Decimal.D6 _ | Decimal.D7 _
               | Decimal.D8 _ | Decimal.D9 _) => None
  | _ =>
      if starts_fraction r then None
      else Some (JNum (Z.of_int (if neg then Decimal.Neg d else Decimal.Pos d)), r)
  end.

Definition hex_val (c : ascii) : option N :=
  let n := N_of_ascii c in
  if (48 <=? n)%N && (n <=? 57)%N then Some (n - 48)%N
  else if (97 <=? n)%N && (n <=? 102)%N then Some (n - 87)%N
  else if (65 <=? n)%N && (n <=? 70)%N then Some (n - 55)%N
  else None.

Definition hex4 (a b c d : ascii) : option N :=
  match hex_val a, hex_val b, hex_val c, hex_val d with
  | Some x, Some y, Some z, Some w => Some (((x * 16 + y) * 16 + z) * 16 + w)%N
  | _, _, _, _ => None
  end.

(** UTF-8 encoding of a code point. *)
Definition utf8 (n : N) : chars :=
  map ascii_of_N
    (if (n <? 128)%N then [n]
     else if (n <? 2048)%N then [192 + n / 64; 128 + n mod 64]
     else if (n <? 65536)%N
          then [224 + n / 4096; 128 + (n / 64) mod 64; 128 + n mod 64]
     else [240 + n / 262144; 128 + (n / 4096) mod 64;
           128 + (n / 64) mod 64; 128 + n mod 64])%N.

Definition is_high_surrogate (n : N) : bool :=
  (55296 <=? n)%N && (n <=? 56319)%N.
Definition is_low_surrogate (n : N) : bool :=
  (56320 <=? n)%N && (n <=? 57343)%N.

(** The low surrogate escape that follows a high surrogate, if any. *)
Definition low_surrogate_at (s : chars) : option N :=
  match s with
  | b :: u :: h1 :: h2 :: h3 :: h4 :: _ =>
      if Ascii.eqb b "\" && Ascii.eqb u "u" then
        match hex4 h1 h2 h3 h4 with
        | Some m => if is_low_surrogate m then Some m else None
        | None => None
        end
      else None
  | _ => None
  end.

Definition unescape (e : ascii) : option ascii :=
  if Ascii.eqb e dquote then Some dquote
  else if Ascii.eqb e "\" then Some "\"
  else if Ascii.eqb e "/" then Some "/"
  else if Ascii.eqb e "b" then Some (byte 8)
  else if Ascii.eqb e "f" then Some (byte 12)
  else if Ascii.eqb e "n" then Some (byte 10)
  else if Ascii.eqb e "r" then Some (byte 13)
  else if Ascii.eqb e "t" then Some (byte 9)
  else None.

Definition cons_chars (p : chars) (r : option (chars * chars))
  : option (chars * chars) :=
  match r with
  | Some (k, rest) => Some (p ++ k, rest)
  | None => None
  end.

(** The characters of a string literal after its opening quote, up to
    the closing quote.  A surrogate pair of [\u] escapes is one code
    point; a lone surrogate has no UTF-8 form and becomes U+FFFD. *)
Fixpoint parse_string (s : chars) : option (chars * chars) :=
  match s with
  | [] => None
  | c :: r =>
      if Ascii.eqb c dquote then Some ([], r)
      else if Ascii.eqb c "\" then
        match r with
        | [] => None
        | e :: r1 =>
            if Ascii.eqb e "u" then
              match r1 with
              | h1 :: h2 :: h3 :: h4 :: r2 =>
                  match hex4 h1 h2 h3 h4 with
                  | None => None
                  | Some n =>
                      if is_high_surrogate n then
                        match low_surrogate_at r2, r2 with
                        | Some m, _ :: _ :: _ :: _ :: _ :: _ :: r3 =>
                            cons_chars
                              (utf8 (65536 + (n - 55296) * 1024 + (m - 56320))%N)
                              (parse_string r3)
                        | _, _ => cons_chars (utf8 65533) (parse_string r2)
                        end
                      else if is_low_surrogate n
                      then cons_chars (utf8 65533) (parse_string r2)
                      else cons_chars (utf8 n) (parse_string r2)
                  end
              | _ => None
              end
            else
              match unescape e with
              | Some c' => cons_chars [c'] (parse_string r1)
              | None => None
              end
        end
      else if (nat_of_ascii c <? 32)%nat then None
      else cons_chars [c] (parse_string r)
  end.

(** The text after optional white space starts with the character [c]. *)
Definition expect (c : ascii) (s : chars) : option chars :=
  match skip_ws s with
  | c' :: r => if Ascii.eqb c' c then Some r else None
  | [] => None
  end.

Definition is_number_start (c : ascii) : bool :=
  Ascii.eqb c "-" ||
  match digit_of_char c with Some _ => true | None => false end.

(** Recursive descent over values, array tails and object tails.  The
    fuel bounds the nesting; [parse] supplies the length of the text. *)
Fixpoint parse_value (fuel : nat) (s : chars) : option (json * chars) :=
  match fuel with
  | O => None
  | S f =>
      match skip_ws s with
      | [] => None
      | c :: r =>
          if Ascii.eqb c "n" then
            if starts_with_chars (unstr "ull") r
            then Some (JNull, skipn 3 r) else None
          else if Ascii.eqb c "t" then
            if starts_with_chars (unstr "rue") r
            then Some (JBool true, skipn 3 r) else None
          else if Ascii.eqb c "f" then
            if starts_with_chars (unstr "alse") r
            then Some (JBool false, skipn 4 r) else None
          else if Ascii.eqb c dquote then
            match parse_string r with
            | Some (k, r') => Some (JStr (str k), r')
            | None => None
            end
          else if Ascii.eqb c "[" then
            match expect "]" r with
            | Some r' => Some (JArr [], r')
            | None =>
                match parse_value f r with
                | Some (x, r1) =>
                    match parse_array_tail f r1 with
                    | Some (xs, r2) => Some (JArr (x :: xs), r2)
                    | None => None
                    end
                | None => None
                end
            end
          else if Ascii.eqb c "{" then
            match expect "}" r with
            | Some r' => Some (JObj [], r')
            | None =>
                match parse_member f r with
                | Some (kv, r1) =>
                    match parse_object_tail f r1 with
                    | Some (kvs, r2) =>
                        Some (JObj (obj_extend [] (kv :: kvs)), r2)
                    | None => None
                    end
                | None => None
                end
            end
          else if is_number_start c then parse_number (c :: r)
          else None
      end
  end

with parse_array_tail (fuel : nat) (s : chars) : option (list json * chars) :=
  match fuel with
  | O => None
  | S f =>
      match skip_ws s with
      | c :: r =>
          if Ascii.eqb c "]" then Some ([], r)
          else if Ascii.eqb c "," then
            match parse_value f r with
            | Some (x, r1) =>
                match parse_array_tail f r1 with
                | Some (xs, r2) => Some (x :: xs, r2)
                | None => None
                end
            | None => None
            end
          else None
      | [] => None
      end
  end

with parse_member (fuel : nat) (s : chars)
  : option ((string * json) * chars) :=
  match fuel with
  | O => None
  | S f =>
      match skip_ws s with
      | c :: r =>
          if Ascii.eqb c dquote then
            match parse_string r with
            | Some (k, r1) =>
                match expect ":" r1 with
                | Some r2 =>
                    match parse_value f r2 with
                    | Some (x, r3) => Some ((str k, x), r3)
                    | None => None
                    end
                | None => None
                end
            | None => None
            end
          else None
      | [] => None
      end
  end

with parse_object_tail (fuel : nat) (s : chars)
  : option (list (string * json) * chars) :=
  match fuel with
  | O => None
  | S f =>
      match skip_ws s with
      | c :: r =>
          if Ascii.eqb c "}" then Some ([], r)
          else if Ascii.eqb c "," then
            match parse_member f r with
            | Some (kv, r1) =>
                match parse_object_tail f r1 with
                | Some (kvs, r2) => Some (kv :: kvs, r2)
                | None => None
                end
            | None => None
            end
          else None
      | [] => None
      end
  end.

(** [JSON.parse(text)]: one value, then only white space.  The text of
    the engine's error message is not modelled. *)
Definition parse_chars (s : chars) : option json :=
  match parse_value (S (length s)) s with
  | Some (v, r) => match skip_ws r with [] => Some v | _ :: _ => None end
  | None => None
  end.

Definition parse (text : string) : result json :=
  match parse_chars (unstr text) with
  | Some v => Ok v
  | None => Err (SyntaxError "Invalid JSON text")
  end.

End Json.

(** ** The values that [JSON.parse] gives back *)

Module JsonSpec.

Import Json.

Local Open Scope char_scope.

(** Well-formed values: every object has pairwise distinct keys. *)
Fixpoint wf (v : json) : Prop :=
  match v with
  | JArr l =>
      (fix all (l : list json) : Prop :=
         match l with
         | [] => True
         | x :: r => wf x /\ all r
         end) l
  | JObj o =>
      keys_distinct o /\
      (fix all (o : list (string * json)) : Prop :=
         match o with
         | [] => True
         | (_, x) :: r => wf x /\ all r
         end) o
  | _ => True
  end.

(** Fuel that parsing the printed value needs. *)
Fixpoint size (v : json) : nat :=
  match v with
  | JArr l =>
      S ((fix sz (l : list json) : nat :=
            match l with
            | [] => 1
            | x :: r => size x + sz r
            end) l)
  | JObj o =>
      S ((fix sz (o : list (string * json)) : nat :=
            match o with
            | [] => 1
            | (_, x) :: r => S (size x) + sz r
            end) o)
  | _ => 1
  end.

Fixpoint json_rect' (P : json -> Type) (Q : list json -> Type)
  (R : list (string * json) -> Type)
  (Hnull : P JNull) (Hbool : forall b, P (JBool b))
  (Hnum : forall n, P (JNum n)) (Hstr : forall s, P (JStr s))
  (Harr : forall l, Q l -> P (JArr l))
  (Hobj : forall o, R o -> P (JObj o))
  (Qnil : Q []) (Qcons : forall x r, P x -> Q r -> Q (x :: r))
  (Rnil : R []) (Rcons : forall k x r, P x -> R r -> R ((k, x) :: r))
  (v : json) : P v :=
  match v with
  | JNull => Hnull
  | JBool b => Hbool b
  | JNum n => Hnum n
  | JStr s => Hstr s
  | JArr l =>
      Harr l
        ((fix go (l : list json) : Q l :=
            match l with
            | [] => Qnil
            | x :: r =>
                Qcons x r
                  (json_rect' P Q R Hnull Hbool Hnum Hstr Harr Hobj
                     Qnil Qcons Rnil Rcons x)
                  (go r)
            end) l)
  | JObj o =>
      Hobj o
        ((fix go (o : list (string * json)) : R o :=
            match o with
            | [] => Rnil
            | (k, x) :: r =>
                Rcons k x r
                  (json_rect' P Q R Hnull Hbool Hnum Hstr Harr Hobj
                     Qnil Qcons Rnil Rcons x)
                  (go r)
            end) o)
  end.

Definition value_start (c : ascii) : bool :=
  existsb (Ascii.eqb c) (dquote :: unstr "ntf[{-0123456789").

Definition delim_ok (rest : chars) : bool :=
  match rest with
  | [] => true
  | c :: _ => Ascii.eqb c "," || Ascii.eqb c "]" || Ascii.eqb c "}"
  end.

Definition arr_tail : list json -> chars :=
  fix tail (r : list json) : chars :=
    match r with
    | [] => ["]"]
    | y :: r' => "," :: print y ++ tail r'
    end.

Definition obj_tail : list (string * json) -> chars :=
  fix tail (r : list (string * json)) : chars :=
    match r with
    | [] => ["}"]
    | (k', y) :: r' => "," :: quote k' ++ ":" :: print y ++ tail r'
    end.

Definition size_elems : list json -> nat :=
  fix sz (l : list json) : nat :=
    match l with
    | [] => 1
    | x :: r => size x + sz r
    end.

Definition size_members : list (string * json) -> nat :=
  fix sz (o : list (string * json)) : nat :=
    match o with
    | [] => 1
    | (_, x) :: r => S (size x) + sz r
    end.

Definition wf_elems : list json -> Prop :=
  fix all (l : list json) : Prop :=
    match l with
    | [] => True
    | x :: r => wf x /\ all r
    end.

Definition wf_members : list (string * json) -> Prop :=
  fix all (o : list (string * json)) : Prop :=
    match o with
    | [] => True
    | (_, x) :: r => wf x /\ all r
    end.

Definition roundtrip_at (v : json) : Prop :=
  wf v -> forall fuel rest, size v <= fuel -> delim_ok rest = true ->
  parse_value fuel (print v ++ rest) = Some (v, rest).

Definition elems_roundtrip (l : list json) : Prop :=
  wf_elems l -> forall fuel rest, size_elems l <= fuel ->
  parse_array_tail fuel (arr_tail l ++ rest) = Some (l, rest).

Definition members_roundtrip (o : list (string * json)) : Prop :=
  wf_members o -> forall fuel rest, size_members o <= fuel ->
  parse_object_tail fuel (obj_tail o ++ rest) = Some (o, rest).

End JsonSpec.

(** ** The indented text of a value *)

Module JsonIndentSpec.

Import Json JsonSpec.

Local Open Scope char_scope.






End JsonIndentSpec.

(* ================================================================== *)
(** * Buffer: base64 encoding and decoding                             *)
(* ================================================================== *)

Module Base64.

Local Open Scope char_scope.

(** Six bits, most significant first. *)
Definition sextet : Type := (bool * bool * bool * bool * bool * bool)%type.

Definition alphabet : chars :=
  unstr "ABCDEFGHIJKLMNOPQRSTUVWXYZabcdefghijklmnopqrstuvwxyz0123456789+/".

Definition bit (b : bool) (w : nat) : nat := if b then w else 0.

Definition sextet_index (s : sextet) : nat :=
  let '(b5, b4, b3, b2, b1, b0) := s in
  bit b5 32 + bit b4 16 + bit b3 8 + bit b2 4 + bit b1 2 + bit b0 1.

Definition index_sextet (i : nat) : sextet :=
  (Nat.testbit i 5, Nat.testbit i 4, Nat.testbit i 3,
   Nat.testbit i 2, Nat.testbit i 1, Nat.testbit i 0).

Definition b64_char (s : sextet) : ascii := nth (sextet_index s) alphabet "=".

(** The value of a character of the alphabet; the URL-safe [-] and [_]
    are read as [+] and [/], as Node's decoder does. *)
Definition unbase64 (c : ascii) : option sextet :=
  if Ascii.eqb c "-" then Some (index_sextet 62)
  else if Ascii.eqb c "_" then Some (index_sextet 63)
  else match index_of_chars c alphabet with
       | Some i => Some (index_sextet i)
       | None => None
       end.

(** [buf.toString('base64')] *)
Fixpoint encode (bs : chars) : chars :=
  match bs with
  | [] => []
  | [Ascii a0 a1 a2 a3 a4 a5 a6 a7] =>
      [b64_char (a7, a6, a5, a4, a3, a2);
       b64_char (a1, a0, false, false, false, false); "="; "="]
  | [Ascii a0 a1 a2 a3 a4 a5 a6 a7; Ascii b0 b1 b2 b3 b4 b5 b6 b7] =>
      [b64_char (a7, a6, a5, a4, a3, a2);
       b64_char (a1, a0, b7, b6, b5, b4);
       b64_char (b3, b2, b1, b0, false, false); "="]
  | Ascii a0 a1 a2 a3 a4 a5 a6 a7 :: Ascii b0 b1 b2 b3 b4 b5 b6 b7
    :: Ascii c0 c1 c2 c3 c4 c5 c6 c7 :: r =>
      b64_char (a7, a6, a5, a4, a3, a2)
      :: b64_char (a1, a0, b7, b6, b5, b4)
      :: b64_char (b3, b2, b1, b0, c7, c6)
      :: b64_char (c5, c4, c3, c2, c1, c0)
      :: encode r
  end.

(** The values of the legal characters up to the first padding [=];
    any other character is skipped. *)
Fixpoint sextets (s : chars) : list sextet :=
  match s with
  | [] => []
  | c :: r =>
      if Ascii.eqb c "=" then []
      else match unbase64 c with
           | Some x => x :: sextets r
           | None => sextets r
           end
  end.

(** Groups of four values give three bytes; a final group of three
    gives two bytes, of two gives one byte, of one gives none. *)
Fixpoint bytes_of (l : list sextet) : chars :=
  match l with
  | (a7, a6, a5, a4, a3, a2) :: (a1, a0, b7, b6, b5, b4)
    :: (b3, b2, b1, b0, c7, c6) :: (c5, c4, c3, c2, c1, c0) :: r =>
      Ascii a0 a1 a2 a3 a4 a5 a6 a7 :: Ascii b0 b1 b2 b3 b4 b5 b6 b7
      :: Ascii c0 c1 c2 c3 c4 c5 c6 c7 :: bytes_of r
  | [(a7, a6, a5, a4, a3, a2); (a1, a0, b7, b6, b5, b4);
     (b3, b2, b1, b0, _, _)] =>
      [Ascii a0 a1 a2 a3 a4 a5 a6 a7; Ascii b0 b1 b2 b3 b4 b5 b6 b7]
  | [(a7, a6, a5, a4, a3, a2); (a1, a0, _, _, _, _)] =>
      [Ascii a0 a1 a2 a3 a4 a5 a6 a7]
  | _ => []
  end.

(** [Buffer.from(s, 'base64')]: never throws. *)
Definition decode (s : chars) : chars := bytes_of (sextets s).

(** [Buffer.from(text).toString('base64')] *)
Definition btoa (text : string) : string := str (encode (unstr text)).

(** [Buffer.from(b64, 'base64').toString()] (a byte sequence that is not
    UTF-8 is kept as it is, where Node substitutes U+FFFD). *)
Definition atob (b64 : string) : string := str (decode (unstr b64)).

End Base64.

(* ================================================================== *)
(** * RegExp: the patterns of the node                                 *)
(* ================================================================== *)

Module Regex.

Local Open Scope char_scope.

(** A pattern.  [Unit p] matches one byte when [p], which sees the text
    from that byte on, holds; [Star p] is the greedy [[class]*];
    [Group] is a capturing group. *)
Inductive re : Type :=
| Eps
| Unit (p : chars -> bool)
| Seq (a b : re)
| Opt (a : re)
| Star (p : chars -> bool)
| Group (a : re).

(** Greedy repetition with backtracking: the longest run first, then
    the shorter ones. *)
Fixpoint star {R : Type} (p : chars -> bool) (s : chars)
  (k : chars -> option R) : option R :=
  match s with
  | _ :: r =>
      if p s then match star p r k with
                  | Some x => Some x
                  | None => k s
                  end
      else k s
  | [] => k s
  end.

(** Backtracking matcher in continuation-passing style: [k] receives
    the text left and the captures of the groups closed so far. *)
Fixpoint exec {R : Type} (r : re) (s : chars) (caps : list chars)
  (k : chars -> list chars -> option R) : option R :=
  match r with
  | Eps => k s caps
  | Unit p =>
      match s with
      | _ :: s' => if p s then k s' caps else None
      | [] => None
      end
  | Seq a b => exec a s caps (fun s' caps' => exec b s' caps' k)
  | Opt a =>
      match exec a s caps k with
      | Some x => Some x
      | None => k s caps
      end
  | Star p => star p s (fun s' => k s' caps)
  | Group a =>
      exec a s caps
        (fun s' caps' => k s' (caps' ++ [firstn (length s - length s') s]))
  end.

(** [text.match(r)] for a pattern without the flag [g]: the captures of
    the leftmost match. *)
Fixpoint search (r : re) (s : chars) : option (list chars) :=
  match exec r s [] (fun _ caps => Some caps) with
  | Some caps => Some caps
  | None =>
      match s with
      | _ :: s' => search r s'
      | [] => None
      end
  end.

(** One literal character; with the flag [i] an ASCII letter matches in
    both cases (a character outside ASCII never matches an ASCII
    letter). *)
Definition lit (ignoreCase : bool) (c : ascii) : re :=
  Unit (fun s => match s with
                 | x :: _ => if ignoreCase
                             then Ascii.eqb (upper_char x) (upper_char c)
                             else Ascii.eqb x c
                 | [] => false
                 end).

Fixpoint text (ignoreCase : bool) (l : chars) : re :=
  match l with
  | [] => Eps
  | c :: l' => Seq (lit ignoreCase c) (text ignoreCase l')
  end.

(** The class of the specification link: any character but white
    space, the two quote characters, [<] and [>].  A character of
    several bytes that is not white space is accepted byte by byte. *)
Definition url_char (s : chars) : bool :=
  match s with
  | c :: _ =>
      Nat.eqb (ws_prefix_len ws_seqs s) 0
      && negb (existsb (Ascii.eqb c) [dquote; "'"; "<"; ">"])
  | [] => false
  end.

(** [[a-zA-Z0-9]] *)
Definition alnum (c : ascii) : bool :=
  let n := nat_of_ascii c in
  ((97 <=? n)%nat && (n <=? 122)%nat)
  || ((65 <=? n)%nat && (n <=? 90)%nat)
  || ((48 <=? n)%nat && (n <=? 57)%nat).

Definition alnum_char (s : chars) : bool :=
  match s with
  | c :: _ => alnum c
  | [] => false
  end.

End Regex.

Module RegexSpec.

Import Regex.

(** Every byte a unit of the pattern accepts satisfies [Qm], and [Qc]
    as well when the unit lies inside a group. *)
Fixpoint accepts (Qm Qc : ascii -> Prop) (inGroup : bool) (r : re) : Prop :=
  match r with
  | Eps => True
  | Unit p | Star p =>
      forall c s, p (c :: s) = true -> Qm c /\ (inGroup = true -> Qc c)
  | Seq a b => accepts Qm Qc inGroup a /\ accepts Qm Qc inGroup b
  | Opt a => accepts Qm Qc inGroup a
  | Group a => accepts Qm Qc true a
  end.

End RegexSpec.

(* ================================================================== *)
(** * The host: HTTP requests                                          *)
(* ================================================================== *)

(** The options object handed to [this.helpers.httpRequest]. *)
Record HttpRequest : Type := {
  hr_method : string;
  hr_url : string;
  hr_headers : obj;
  hr_qs : jsval;
  hr_body : jsval;
  hr_timeout : option Z
}.

(** The remote side: what a request resolves to, or the error it
    rejects with. *)
Definition Http : Type := HttpRequest -> result json.

(* ================================================================== *)
(** * SuperiorApis.node.ts                                             *)
(* ================================================================== *)

Module SuperiorApis.

(** ** getPluginListCached *)

Definition CACHE_DURATION : Z := 5 * 60 * 1000.

(** [`plugins_list_${token.substring(0, 20)}`] (the first 20 bytes,
    which are the first 20 characters of an ASCII token) *)
Definition cacheKey (token : string) : string :=
  "plugins_list_" +:+ substring_to 20 token.

(** [`${cacheKey}_timestamp`] *)
Definition cacheTimeKey (token : string) : string :=
  cacheKey token +:+ "_timestamp".

Definition plugin_list_request (token : string) : HttpRequest :=
  {| hr_method := "POST";
     hr_url := "https://superiorapis-creator.cteam.com.tw/manager/module/plugins/list_v3";
     hr_headers := [("token", JStr token)];
     hr_qs := None;
     hr_body := None;
     hr_timeout := None |}.

(** [now - cachedTime < CACHE_DURATION]; the timestamp slot only ever
    receives numbers, any other value there compares as NaN. *)
Definition fresh (now : Z) (cachedTime : jsval) : bool :=
  match cachedTime with
  | Some (JNum t) => (now - t <? CACHE_DURATION)%Z
  | _ => false
  end.

(** [workflowStaticData[cacheKey] && cachedTime && now - cachedTime < CACHE_DURATION] *)
Definition cache_valid (workflowStaticData : gmap string json)
  (token : string) (now : Z) : bool :=
  truthy_val (workflowStaticData !! cacheKey token)
  && truthy_val (workflowStaticData !! cacheTimeKey token)
  && fresh now (workflowStaticData !! cacheTimeKey token).

(** The outcome of one call: the value returned or the error thrown,
    the static data afterwards, and the upstream requests issued. *)
Record CacheOutcome : Type := {
  co_result : result jsval;
  co_data : gmap string json;
  co_requests : list HttpRequest
}.

Definition getPluginListCached (httpRequest : Http)
  (workflowStaticData : gmap string json) (token : string) (now : Z)
  : CacheOutcome :=
  if cache_valid workflowStaticData token now then
    {| co_result := Ok (workflowStaticData !! cacheKey token);
       co_data := workflowStaticData;
       co_requests := [] |}
  else
    let request := plugin_list_request token in
    match httpRequest request with
    | Ok response =>
        {| co_result := Ok (Some response);
           co_data := <[cacheTimeKey token := JNum now]>
                        (<[cacheKey token := response]> workflowStaticData);
           co_requests := [request] |}
    | Err e =>
        {| co_result := Err e;
           co_data := workflowStaticData;
           co_requests := [request] |}
    end.

(** Two successive calls for one token. *)
Definition two_calls (http1 http2 : Http) (data : gmap string json)
  (token : string) (now1 now2 : Z) : CacheOutcome * CacheOutcome :=
  let first := getPluginListCached http1 data token now1 in
  (first, getPluginListCached http2 (co_data first) token now2).

(** ** The selection value: encoding (getApiList) and decoding *)

(** The object literal [pluginData] of [getApiList]. *)
Record PluginData : Type := {
  pd_id : jsval;
  pd_interfaceId : jsval;
  pd_version : jsval;
  pd_name : jsval;
  pd_interface : jsval
}.

(** [plugin.version || plugin.interface?.version
     || plugin.interface?.info?.version || ''] *)
Definition version (plugin : json) : json :=
  let interface := get_prop_opt (Some plugin) "interface" in
  or_else (get_prop_opt (Some plugin) "version")
    (or_else (get_prop_opt interface "version")
       (or_else (get_prop_opt (get_prop_opt interface "info") "version")
          (JStr ""))).

(** The [pluginData] that [getApiList] builds for one catalog entry
    [plugin] (not [null]: its description was read before), given the
    interface id extracted from the description. *)
Definition pluginData (plugin : json) (interfaceId : string) : PluginData :=
  {| pd_id := get_prop_opt (Some plugin) "id";
     pd_interfaceId := Some (JStr interfaceId);
     pd_version := Some (version plugin);
     pd_name := get_prop_opt (Some plugin) "name_for_human";
     pd_interface := get_prop_opt (Some plugin) "interface" |}.

(** The properties [JSON.stringify] writes: one with the value
    [undefined] is left out. *)
Definition defined (k : string) (v : jsval) : obj :=
  match v with
  | Some j => [(k, j)]
  | None => []
  end.

Definition pluginData_props (d : PluginData) : obj :=
  defined "id" (pd_id d) ++ defined "interfaceId" (pd_interfaceId d)
  ++ defined "version" (pd_version d) ++ defined "name" (pd_name d)
  ++ defined "interface" (pd_interface d).

(** [Buffer.from(JSON.stringify(pluginData)).toString('base64')] *)
Definition encodedData (d : PluginData) : string :=
  Base64.btoa (Json.stringify (JObj (pluginData_props d))).

(** [JSON.parse(Buffer.from(apiSelection, 'base64').toString())] *)
Definition decode_apiSelection (apiSelection : string) : result json :=
  Json.parse (Base64.atob apiSelection).

(** The five properties of a decoded selection, as the consumers read
    them ([pluginData.id], [pluginData.interfaceId], ...). *)
Definition pluginData_of (v : json) : PluginData :=
  {| pd_id := get_prop_opt (Some v) "id";
     pd_interfaceId := get_prop_opt (Some v) "interfaceId";
     pd_version := get_prop_opt (Some v) "version";
     pd_name := get_prop_opt (Some v) "name";
     pd_interface := get_prop_opt (Some v) "interface" |}.

Definition wf_val (v : jsval) : Prop :=
  match v with
  | Some j => JsonSpec.wf j
  | None => True
  end.

(** A descriptor whose parts are JSON values (objects with pairwise
    distinct keys). *)
Definition serializable (d : PluginData) : Prop :=
  wf_val (pd_id d) /\ wf_val (pd_interfaceId d) /\ wf_val (pd_version d)
  /\ wf_val (pd_name d) /\ wf_val (pd_interface d).

(** ** Shared steps of the loaders and of [execute] *)

(** [v > 0]: numbers and booleans by value, a string by the integer
    literal it spells, everything else as NaN. *)
Definition gt_zero (v : jsval) : bool :=
  match v with
  | Some (JNum n) => (0 <? n)%Z
  | Some (JBool b) => b
  | Some (JStr s) =>
      match Json.parse_chars (unstr (trim s)) with
      | Some (JNum n) => (0 <? n)%Z
      | _ => false
      end
  | _ => false
  end.

(** A key used as a property name: [undefined] reads as the text
    ["undefined"]. *)
Definition key_text (k : option string) : string :=
  match k with
  | Some s => s
  | None => "undefined"
  end.

(** [paths = pluginData.interface.paths; firstPath = Object.keys(paths)[0];
    pathMethods = paths[firstPath]] *)
Definition first_path (pluginData : json)
  : result (option string * jsval) :=
  let* iface := get_prop (Some pluginData) "interface" in
  let* paths := get_prop iface "paths" in
  let* keys := object_keys paths in
  let firstPath := hd_error keys in
  let* pathMethods := get_prop paths (key_text firstPath) in
  Ok (firstPath, pathMethods).

Fixpoint fold_result {A B : Type} (f : B -> A -> result B) (l : list A)
  (acc : B) : result B :=
  match l with
  | [] => Ok acc
  | x :: r => let* acc' := f acc x in fold_result f r acc'
  end.

Fixpoint map_result {A B : Type} (f : A -> result B) (l : list A)
  : result (list B) :=
  match l with
  | [] => Ok []
  | x :: r => let* y := f x in let* ys := map_result f r in Ok (y :: ys)
  end.

(** ** getScenarioList *)

Record INodePropertyOptions : Type := {
  opt_name : jsval;
  opt_value : jsval
}.

Definition use_default_option : INodePropertyOptions :=
  {| opt_name := Some (JStr "Use Default Request Body");
     opt_value := Some (JStr "no_use_scenario") |}.

Definition no_scenario_option (method : string) : INodePropertyOptions :=
  {| opt_name := Some (JStr ("No scenario templates available for "
                              +:+ to_upper method +:+ " method"));
     opt_value := Some (JStr "no_scenario") |}.

Definition error_option : INodePropertyOptions :=
  {| opt_name := Some (JStr "Failed to load scenario list. Please check network connection.");
     opt_value := Some (JStr "error") |}.

(** The default value of one schema property, by its declared type. *)
Definition default_value (prop : jsval) : result json :=
  let* ty := get_prop prop "type" in
  let* example := get_prop prop "example" in
  if is_str ty "string" then Ok (or_else example (JStr ""))
  else if is_str ty "number" || is_str ty "integer"
       then Ok (or_else example (JNum 0))
  else if is_str ty "boolean" then Ok (if_defined example (JBool false))
  else if is_str ty "array" then Ok (or_else example (JArr []))
  else if is_str ty "object" then Ok (or_else example (JObj []))
  else Ok (if_defined example JNull).

(** The default request body computed (and then left unused) before the
    scenario list is fetched; only its failure is observable. *)
Definition defaultBody (methodData : jsval) : result obj :=
  if negb (truthy_val methodData) then Ok []
  else
    let* requestBody := get_prop methodData "requestBody" in
    if negb (truthy_val requestBody) then Ok []
    else
      let* content := get_prop requestBody "content" in
      let* jsonContent := get_prop content "application/json" in
      if negb (truthy_val jsonContent) then Ok []
      else
        let* schema := get_prop jsonContent "schema" in
        if negb (truthy_val schema) then Ok []
        else
          let* properties := get_prop schema "properties" in
          if negb (truthy_val properties) then Ok []
          else
            let* keys := object_keys properties in
            fold_result
              (fun body key =>
                 let* prop := get_prop properties key in
                 let* v := default_value prop in
                 Ok (obj_assign key v body))
              keys [].

Definition scenario_list_request (token method : string)
  (interfaceId version : jsval) : HttpRequest :=
  {| hr_method := "POST";
     hr_url := "https://superiorapis.cteam.com.tw/superiorapis_store/node/scenario_sample_list";
     hr_headers := [("token", JStr token);
                    ("Content-Type", JStr "application/json")];
     hr_qs := None;
     hr_body := Some (JObj ([("method", JStr (to_lower method))]
                            ++ defined "interface_id" interfaceId
                            ++ defined "version" version
                            ++ [("version_suffix", JStr "")]));
     hr_timeout := None |}.

Definition scenario_detail_request (token : string) (scenario_id : jsval)
  : HttpRequest :=
  {| hr_method := "GET";
     hr_url := "https://superiorapis.cteam.com.tw/superiorapis_store/node/scenario?scenario_id="
               +:+ to_str_val scenario_id;
     hr_headers := [("token", JStr token)];
     hr_qs := None;
     hr_body := None;
     hr_timeout := None |}.

(** The steps before the scenario list is requested: decoding the
    selection and deriving the default body.  Any failure here is one
    of the failures the [catch] of [getScenarioList] absorbs. *)
Definition scenario_list_call (apiSelection method token : string)
  : result HttpRequest :=
  let* pluginData := decode_apiSelection apiSelection in
  let* interfaceId := get_prop (Some pluginData) "interfaceId" in
  let* version := get_prop (Some pluginData) "version" in
  let* fp := first_path pluginData in
  let* methodData := get_prop (snd fp) (to_lower method) in
  let* _ := defaultBody methodData in
  Ok (scenario_list_request token method interfaceId version).

(** The body of the [try] inside the per-scenario callback: the option
    with the pretty-printed request content, or nothing. *)
Definition scenario_with_content (httpRequest : Http) (token : string)
  (scenario : json) : result (option INodePropertyOptions) :=
  let* scenario_id := get_prop (Some scenario) "scenario_id" in
  let* detail := httpRequest (scenario_detail_request token scenario_id) in
  let* status := get_prop (Some detail) "status" in
  if is_num status 1 then
    let* data := get_prop (Some detail) "data" in
    let requestContent := get_prop_opt data "request_content" in
    match requestContent with
    | Some content =>
        if truthy content then
          let* scenario_name := get_prop (Some scenario) "scenario_name" in
          Ok (Some {| opt_name := scenario_name;
                      opt_value := Some (JStr (Json.stringify_indent 4 content)) |})
        else Ok None
    | None => Ok None
    end
  else Ok None.

(** One callback of the [Promise.all]: the option with content, or,
    when the detail call failed or had no content, the option whose
    value is the scenario id. *)
Definition scenario_option (httpRequest : Http) (token : string)
  (scenario : json) : result INodePropertyOptions :=
  match scenario_with_content httpRequest token scenario with
  | Ok (Some o) => Ok o
  | Ok None | Err _ =>
      let* scenario_name := get_prop (Some scenario) "scenario_name" in
      let* scenario_id := get_prop (Some scenario) "scenario_id" in
      Ok {| opt_name := scenario_name; opt_value := scenario_id |}
  end.

(** What follows the scenario-list response inside the [try]. *)
Definition scenario_options (httpRequest : Http) (token method : string)
  (response : json) : result (list INodePropertyOptions) :=
  let* status := get_prop (Some response) "status" in
  if negb (is_num status 1)
  then Ok [use_default_option; no_scenario_option method]
  else
    let* data := get_prop (Some response) "data" in
    let list := get_prop_opt data "list" in
    if negb (truthy_val list)
    then Ok [use_default_option; no_scenario_option method]
    else
      let* len := get_prop list "length" in
      if negb (gt_zero len)
      then Ok [use_default_option; no_scenario_option method]
      else
        match list with
        | Some (JArr scenarios) =>
            let* scenariosWithContent :=
              map_result (scenario_option httpRequest token) scenarios in
            Ok (use_default_option :: scenariosWithContent)
        | _ => Err (TypeError "response.data.list.map is not a function")
        end.

Definition getScenarioList (httpRequest : Http)
  (apiSelection method token : string) : list INodePropertyOptions :=
  if String.eqb apiSelection "" || String.eqb method "" then []
  else
    match
      (let* request := scenario_list_call apiSelection method token in
       let* response := httpRequest request in
       scenario_options httpRequest token method response)
    with
    | Ok options => options
    | Err _ => [use_default_option; error_option]
    end.

(** ** getParametersFields and getBodyFields *)

Record ResourceMapperField : Type := {
  id : string;
  displayName : string;
  required : json;
  defaultMatch : bool;
  display : bool;
  type : string;
  canBeUsedToMatch : bool
}.

(** [typeMap[schemaType] || 'string'] *)
Definition mapSchemaTypeToFieldType (schemaType : json) : string :=
  let typeMap : obj :=
    [("string", JStr "string"); ("number", JStr "number");
     ("integer", JStr "number"); ("boolean", JStr "boolean");
     ("array", JStr "array"); ("object", JStr "object")] in
  to_str (or_else (obj_get (to_str schemaType) typeMap) (JStr "string")).

(** [Array.prototype.sort(compare)]: the sort is stable, so with a
    consistent comparator its result is the one of inserting each
    element, from the last to the first, in front of the elements that
    do not sort before it. *)
Fixpoint sort_insert {A : Type} (compare : A -> A -> Z) (x : A) (l : list A)
  : list A :=
  match l with
  | [] => [x]
  | y :: r => if (0 <? compare x y)%Z then y :: sort_insert compare x r
              else x :: y :: r
  end.

Fixpoint array_sort {A : Type} (compare : A -> A -> Z) (l : list A)
  : list A :=
  match l with
  | [] => []
  | x :: r => sort_insert compare x (array_sort compare r)
  end.

(** The comparator of both derivations: required fields first. *)
Definition required_first (a b : ResourceMapperField) : Z :=
  if truthy (required a) && negb (truthy (required b)) then (-1)%Z
  else if negb (truthy (required a)) && truthy (required b) then 1%Z
  else 0%Z.

(** The field pushed for one entry of [methodData.parameters]. *)
Definition parameter_field (param : json) : result ResourceMapperField :=
  let* p_in := get_prop (Some param) "in" in
  let* p_name := get_prop (Some param) "name" in
  let* p_required := get_prop (Some param) "required" in
  let* p_description := get_prop (Some param) "description" in
  let* p_schema := get_prop (Some param) "schema" in
  let inType := if is_str p_in "query" then "[Q]" else "[H]" in
  let description :=
    if truthy_val p_description
    then " - " +:+ to_str_val p_description else "" in
  Ok {| id := to_str_val p_in +:+ "_" +:+ to_str_val p_name;
        displayName := to_str_val p_name
                       +:+ (if truthy_val p_required then " *" else "")
                       +:+ " " +:+ inType +:+ description;
        required := or_else p_required (JBool false);
        defaultMatch := true;
        display := true;
        type := mapSchemaTypeToFieldType
                  (or_else (get_prop_opt p_schema "type") (JStr "string"));
        canBeUsedToMatch := true |}.

(** [methodData = pathMethods[method.toLowerCase()]] of the decoded
    selection. *)
Definition method_data (apiSelection method : string) : result jsval :=
  let* pluginData := decode_apiSelection apiSelection in
  let* fp := first_path pluginData in
  get_prop (snd fp) (to_lower method).

(** The fields in declaration order, before the sort. *)
Definition parameters_fields_unsorted (apiSelection method : string)
  : result (list ResourceMapperField) :=
  let* methodData := method_data apiSelection method in
  if negb (truthy_val methodData) then Ok []
  else
    let* parameters := get_prop methodData "parameters" in
    if negb (truthy_val parameters) then Ok []
    else
      match parameters with
      | Some (JArr params) => map_result parameter_field params
      | _ => Err (TypeError "methodData.parameters.forEach is not a function")
      end.

Definition getParametersFields (scenario method apiSelection : string)
  : list ResourceMapperField :=
  if String.eqb scenario "no_use_scenario"
     && negb (String.eqb method "") && negb (String.eqb apiSelection "")
  then
    match parameters_fields_unsorted apiSelection method with
    | Ok fields => array_sort required_first fields
    | Err _ => []
    end
  else [].

(** [required.includes(key)]: membership in an array, containment in a
    string; nothing else has [includes]. *)
Definition required_includes (required : json) (key : string) : result bool :=
  match required with
  | JArr l =>
      Ok (existsb (fun x => match x with
                            | JStr s => String.eqb s key
                            | _ => false
                            end) l)
  | JStr s => Ok (includes key s)
  | _ => Err (TypeError "required.includes is not a function")
  end.

(** The field pushed for one key of the schema's [properties]. *)
Definition body_field (properties : jsval) (required : json) (key : string)
  : result ResourceMapperField :=
  let* prop := get_prop properties key in
  let* p_description := get_prop prop "description" in
  let description :=
    if truthy_val p_description
    then " - " +:+ to_str_val p_description else "" in
  let* star := required_includes required key in
  let* is_required := required_includes required key in
  let* p_type := get_prop prop "type" in
  Ok {| id := "body_" +:+ key;
        displayName := key +:+ (if star then " *" else "") +:+ description;
        required := JBool is_required;
        defaultMatch := true;
        display := true;
        type := mapSchemaTypeToFieldType (or_else p_type (JStr "string"));
        canBeUsedToMatch := true |}.

Definition body_fields_unsorted (apiSelection method : string)
  : result (list ResourceMapperField) :=
  let* methodData := method_data apiSelection method in
  if negb (truthy_val methodData) then Ok []
  else
    let* requestBody := get_prop methodData "requestBody" in
    if negb (truthy_val requestBody) then Ok []
    else
      let* content := get_prop requestBody "content" in
      let* jsonContent := get_prop content "application/json" in
      if negb (truthy_val jsonContent) then Ok []
      else
        let* schema := get_prop jsonContent "schema" in
        if negb (truthy_val schema) then Ok []
        else
          let* properties := get_prop schema "properties" in
          if negb (truthy_val properties) then Ok []
          else
            let* schema_required := get_prop schema "required" in
            let required := or_else schema_required (JArr []) in
            let* keys := object_keys properties in
            map_result (body_field properties required) keys.

Definition is_body_method (method : string) : bool :=
  existsb (String.eqb method) ["POST"; "PUT"; "PATCH"].

Definition getBodyFields (scenario method apiSelection : string)
  : list ResourceMapperField :=
  if String.eqb scenario "no_use_scenario"
     && is_body_method (to_upper method)
     && negb (String.eqb apiSelection "")
  then
    match body_fields_unsorted apiSelection method with
    | Ok fields => array_sort required_first fields
    | Err _ => []
    end
  else [].

(** ** execute *)

(** One row of a key-value collection ([params.parameter[i]]). *)
Record KeyValue : Type := {
  kv_name : string;
  kv_value : json
}.

(** The node parameters of one input item, as [getNodeParameter]
    returns them.  [headers] and [queryParameters] hold the rows of
    [params.parameter], or [None] when that property is missing or is
    not an array. *)
Record ItemParameters : Type := {
  token : string;
  apiSelection : string;
  method : string;
  baseUri : string;
  sendHeaders : bool;
  specifyHeaders : string;
  headers : option (list KeyValue);
  headersJson : string;
  sendQuery : bool;
  specifyQuery : string;
  queryParameters : option (list KeyValue);
  queryParametersJson : string;
  scenario : string;
  parametersFields : jsval;
  bodyFields : jsval;
  bodyJson : string
}.

(** [rows.reduce((acc, p) => { acc[p.name] = p.value; return acc }, {})] *)
Definition reduce_rows (rows : list KeyValue) : obj :=
  fold_left (fun acc p => obj_assign (kv_name p) (kv_value p) acc) rows [].

(** [delete source.token; headers = { ...headers, ...source }] *)
Definition merge_protected (headers : obj) (source : json) : result obj :=
  let* stripped := delete_prop source "token" in
  Ok (obj_spread headers (own_props stripped)).

(** The object of additional headers the credential supplies, if any:
    [JSON.parse(credentials.headers)] when that text is truthy. *)
Definition credHeaders (credentials : json) : result jsval :=
  let* cred := get_prop (Some credentials) "headers" in
  match cred with
  | Some h =>
      if truthy h then
        let* parsed := Json.parse (to_str h) in Ok (Some parsed)
      else Ok None
  | None => Ok None
  end.

(** The object of user-declared headers, if any: the reduced rows, or
    [JSON.parse(headersJson)]. *)
Definition userHeaders (p : ItemParameters) : result jsval :=
  if sendHeaders p then
    if String.eqb (specifyHeaders p) "keypair" then
      match headers p with
      | Some rows => Ok (Some (JObj (reduce_rows rows)))
      | None => Ok None
      end
    else
      let* parsed := Json.parse (headersJson p) in Ok (Some parsed)
  else Ok None.

(** Steps (b) and (c): a source of headers, when there is one, is
    merged under the protection of the [token] key. *)
Definition merge_source (source : jsval) (headers : obj) : result obj :=
  match source with
  | Some src => merge_protected headers src
  | None => Ok headers
  end.

(** The user-declared query parameters. *)
Definition user_query (p : ItemParameters) : result json :=
  if sendQuery p then
    if String.eqb (specifyQuery p) "keypair" then
      match queryParameters p with
      | Some rows => Ok (JObj (reduce_rows rows))
      | None => Ok (JObj [])
      end
    else Json.parse (queryParametersJson p)
  else Ok (JObj []).

(** [target[k] = v] in strict mode: [null] and the primitives reject
    the assignment; an array takes the property beside its elements and
    is held here by its own properties. *)
Definition assign_prop (target : json) (k : string) (v : json)
  : result json :=
  match target with
  | JObj o => Ok (JObj (obj_assign k v o))
  | JArr l => Ok (JObj (obj_assign k v (indexed 0 l)))
  | JNull => Err (TypeError "Cannot set properties of null")
  | _ => Err (TypeError ("Cannot create property '" +:+ k +:+ "'"))
  end.

(** One key of [parametersFields.value]: a [query_] key goes to the
    query, a [header_] key other than [header_token] to the headers. *)
Definition mapped_field (params : json) (acc : json * obj) (key : string)
  : result (json * obj) :=
  let (queryParams, headers) := acc in
  let* value := get_prop (Some params) key in
  match value with
  | None => Ok acc
  | Some value =>
      if starts_with "query_" key then
        let paramName := remove_first "query_" key in
        let* queryParams' := assign_prop queryParams paramName value in
        Ok (queryParams', headers)
      else if starts_with "header_" key then
        let paramName := remove_first "header_" key in
        if negb (String.eqb paramName "token")
        then Ok (queryParams, obj_assign paramName value headers)
        else Ok acc
      else Ok acc
  end.

(** The resource-mapped fields of [parametersFields]. *)
Definition mapped_fields (p : ItemParameters) (queryParams : json)
  (headers : obj) : result (json * obj) :=
  match parametersFields p with
  | None | Some JNull => Ok (queryParams, headers)
  | Some pf =>
      let* value := get_prop (Some pf) "value" in
      match value with
      | Some params =>
          if truthy params then
            fold_result (mapped_field params) (map fst (own_props params))
              (queryParams, headers)
          else Ok (queryParams, headers)
      | None => Ok (queryParams, headers)
      end
  end.

(** [scenario && scenario !== '' && scenario !== 'no_scenario' && scenario !== 'error'] *)
Definition reads_bodyJson (scenario : string) : bool :=
  negb (String.eqb scenario "") && negb (String.eqb scenario "no_scenario")
  && negb (String.eqb scenario "error").

(** [bodyJsonString && bodyJsonString.trim() !== '' && bodyJsonString.trim() !== '{}'] *)
Definition has_body_text (bodyJsonString : string) : bool :=
  negb (String.eqb bodyJsonString "")
  && negb (String.eqb (trim bodyJsonString) "")
  && negb (String.eqb (trim bodyJsonString) "{}").

(** The request body: the parsed Body JSON text, or [undefined]. *)
Definition resolve_body (p : ItemParameters) : result jsval :=
  if reads_bodyJson (scenario p) then
    if has_body_text (bodyJson p) then
      match Json.parse (bodyJson p) with
      | Ok body => Ok (Some body)
      | Err e =>
          Err (NodeOperationError ("Failed to parse body JSON: " +:+ message e))
      end
    else Ok None
  else Ok None.

(** The header value inferred from the first declared content type. *)
Definition content_type_for (apiContentType : string) : string :=
  if includes "multipart/form-data" apiContentType
  then "multipart/form-data"
  else if includes "application/json" apiContentType
  then "application/json"
  else if includes "application/x-www-form-urlencoded" apiContentType
  then "application/x-www-form-urlencoded"
  else apiContentType.

(** Content-Type inference for POST, PUT and PATCH. *)
Definition infer_content_type (method : string) (pathMethods : jsval)
  (headers : obj) : result obj :=
  if is_body_method method then
    let* methodData := get_prop pathMethods (to_lower method) in
    let content :=
      get_prop_opt (get_prop_opt methodData "requestBody") "content" in
    if truthy_val content then
      let* contentTypes := object_keys content in
      if negb (truthy_val (obj_get "Content-Type" headers)) then
        match hd_error contentTypes with
        | Some apiContentType =>
            Ok (obj_assign "Content-Type"
                  (JStr (content_type_for apiContentType)) headers)
        | None =>
            Err (TypeError "Cannot read properties of undefined (reading 'includes')")
        end
      else Ok headers
    else Ok headers
  else Ok headers.

(** The method in effect: the selected one, else the first verb of the
    path in upper case. *)
Definition effective_method (method : string) (pathMethods : jsval)
  : result string :=
  if String.eqb method "" then
    let* verbs := object_keys pathMethods in
    match hd_error verbs with
    | Some verb => Ok (to_upper verb)
    | None =>
        Err (TypeError "Cannot read properties of undefined (reading 'toUpperCase')")
    end
  else Ok method.

(** The body of the [try] for one item, up to the HTTP call: the
    options object of the outbound request. *)
Definition assemble (getCredentials : result json) (p : ItemParameters)
  : result HttpRequest :=
  if String.eqb (token p) "" then Err (NodeOperationError "Token is required")
  else if String.eqb (apiSelection p) ""
  then Err (NodeOperationError "Please select an API from the list")
  else
    let* pluginData := decode_apiSelection (apiSelection p) in
    let* fp := first_path pluginData in
    let (firstPath, pathMethods) := fp in
    let* method := effective_method (method p) pathMethods in
    let url := baseUri p +:+ key_text firstPath in
    let headers := [("token", JStr (token p))] in
    let* credentials := getCredentials in
    let* fromCredential := credHeaders credentials in
    let* headers := merge_source fromCredential headers in
    let* fromUser := userHeaders p in
    let* headers := merge_source fromUser headers in
    let* queryParams := user_query p in
    let* qh := mapped_fields p queryParams headers in
    let (queryParams, headers) := qh in
    let* body := resolve_body p in
    let* headers := infer_content_type method pathMethods headers in
    Ok {| hr_method := method;
          hr_url := url;
          hr_headers := headers;
          hr_qs := Some queryParams;
          hr_body := body;
          hr_timeout := None |}.

(** One entry of the returned data. *)
Record INodeExecutionData : Type := {
  json_data : json;
  pairedItem : nat
}.

(** [typeof response === 'object' ? response : { data: response }] *)
Definition wrap_response (response : json) : json :=
  match response with
  | JNull | JArr _ | JObj _ => response
  | _ => JObj [("data", response)]
  end.

(** The loop over the input items: a failed item either contributes an
    error record (continue-on-fail) or aborts the whole batch. *)
Fixpoint execute_from (httpRequest : Http) (getCredentials : result json)
  (continueOnFail : bool) (i : nat) (items : list ItemParameters)
  (returnData : list INodeExecutionData) : result (list INodeExecutionData) :=
  match items with
  | [] => Ok returnData
  | p :: rest =>
      match (let* options := assemble getCredentials p in
             httpRequest options) with
      | Ok response =>
          execute_from httpRequest getCredentials continueOnFail (S i) rest
            (returnData ++ [{| json_data := wrap_response response;
                               pairedItem := i |}])
      | Err e =>
          if continueOnFail then
            execute_from httpRequest getCredentials continueOnFail (S i) rest
              (returnData ++ [{| json_data := JObj [("error", JStr (message e))];
                                 pairedItem := i |}])
          else Err e
      end
  end.

Definition execute (httpRequest : Http) (getCredentials : result json)
  (continueOnFail : bool) (items : list ItemParameters)
  : result (list INodeExecutionData) :=
  execute_from httpRequest getCredentials continueOnFail 0 items [].

(** ** getMethods *)

(** An option with a description, [{ name, value, description }]. *)
Record LoadedOption : Type := {
  lo_name : jsval;
  lo_value : jsval;
  lo_description : jsval
}.

(** The option built for one key of [pathMethods]; its description is
    [pathMethods[method].summary || `${method.toUpperCase()} request`]. *)
Definition method_option (pathMethods : jsval) (method : string)
  : result LoadedOption :=
  let* operation := get_prop pathMethods method in
  let* summary := get_prop operation "summary" in
  Ok {| lo_name := Some (JStr (to_upper method));
        lo_value := Some (JStr (to_upper method));
        lo_description :=
          Some (or_else summary (JStr (to_upper method +:+ " request"))) |}.

Definition getMethods (apiSelection : string) : list LoadedOption :=
  if String.eqb apiSelection "" then []
  else
    match
      (let* pluginData := decode_apiSelection apiSelection in
       let* fp := first_path pluginData in
       let* verbs := object_keys (snd fp) in
       map_result (method_option (snd fp)) verbs)
    with
    | Ok options => options
    | Err _ => []
    end.

(** ** getApiList *)

(** The pattern of the specification link, with the flag [i]: one
    group holding [https?:\/\/], a run of the class [url_char],
    [doc=spec] and another run of the class. *)
Definition spec_pattern : Regex.re :=
  Regex.Group
    (Regex.Seq (Regex.text true (unstr "http"))
       (Regex.Seq (Regex.Opt (Regex.lit true "s"))
          (Regex.Seq (Regex.text true (unstr "://"))
             (Regex.Seq (Regex.Star Regex.url_char)
                (Regex.Seq (Regex.text true (unstr "doc=spec"))
                   (Regex.Star Regex.url_char)))))).

(** [/\/interface\/([a-zA-Z0-9]+)/] *)
Definition interface_pattern : Regex.re :=
  Regex.Seq (Regex.text false (unstr "/interface/"))
    (Regex.Group (Regex.Seq (Regex.Unit Regex.alnum_char)
                    (Regex.Star Regex.alnum_char))).

(** [specUrl] and [interfaceId] as extracted from a description: the
    first group of the leftmost match of each pattern, or the empty
    string. *)
Definition spec_link (description : string) : string * string :=
  match Regex.search spec_pattern (unstr description) with
  | Some (specUrl :: _) =>
      (str specUrl,
       match Regex.search interface_pattern specUrl with
       | Some (interfaceId :: _) => str interfaceId
       | _ => ""
       end)
  | _ => ("", "")
  end.

(** The description of an option: the first line of the plugin's
    description, followed by the link to the specification when there
    is one (the sign before the link is U+1F4D6). *)
Definition option_description (baseDescription specUrl : string) : string :=
  if String.eqb specUrl "" then baseDescription
  else baseDescription +:+ "<br/>" +:+ str (map byte [240; 159; 147; 150])
       +:+ " <a href=" +:+ str [dquote] +:+ specUrl +:+ str [dquote]
       +:+ " target=" +:+ str [dquote] +:+ "_blank" +:+ str [dquote]
       +:+ ">View Specification Document</a>".

(** The callback of [response.plugins.map]: a truthy description that
    is not a string has no [match]. *)
Definition api_option (item : json) : result LoadedOption :=
  let* plugin := get_prop (Some item) "plugin" in
  let* description_for_human := get_prop plugin "description_for_human" in
  let* link :=
    if truthy_val description_for_human then
      match description_for_human with
      | Some (JStr text) => Ok (spec_link text)
      | _ => Err (TypeError "plugin.description_for_human.match is not a function")
      end
    else Ok ("", "") in
  let baseDescription :=
    match description_for_human with
    | Some (JStr text) => hd "" (split_on (str [byte 10]) text)
    | _ => ""
    end in
  match plugin with
  | Some plugin =>
      Ok {| lo_name := get_prop_opt (Some plugin) "name_for_human";
            lo_value :=
              Some (JStr (encodedData (pluginData plugin (snd link))));
            lo_description :=
              Some (JStr (option_description baseDescription (fst link))) |}
  | None => Err (TypeError "Cannot read properties of undefined")
  end.

(** The options of one load, the static data afterwards and the
    upstream requests issued. *)
Record ApiList : Type := {
  al_options : list LoadedOption;
  al_data : gmap string json;
  al_requests : list HttpRequest
}.

Definition getApiList (httpRequest : Http)
  (workflowStaticData : gmap string json) (token : string) (now : Z)
  : ApiList :=
  if String.eqb token "" then
    {| al_options := []; al_data := workflowStaticData; al_requests := [] |}
  else
    let cached :=
      getPluginListCached httpRequest workflowStaticData token now in
    {| al_options :=
         match
           (let* response := co_result cached in
            let* plugins := get_prop response "plugins" in
            match plugins with
            | Some (JArr items) => map_result api_option items
            | _ => Ok []
            end)
         with
         | Ok options => options
         | Err _ => []
         end;
       al_data := co_data cached;
       al_requests := co_requests cached |}.

End SuperiorApis.

(* ================================================================== *)
(** * SuperiorApisMcp.node.ts                                          *)
(* ================================================================== *)

Module SuperiorApisMcp.

(** ** handleSSERequest: the accumulation loop as a transition system *)

(** What scanning one line of an event does to the accumulated data. *)
Inductive LineEffect : Type :=
| Skip                       (* not a data line, or malformed JSON *)
| EndMarker                  (* the payload [DONE] *)
| Message (jsonData : json) (terminal : bool).

(** [jsonData.result !== undefined || jsonData.error !== undefined];
    the property read throws on [null], which the [catch] absorbs after
    the value was pushed. *)
Definition is_response (jsonData : json) : bool :=
  match get_prop (Some jsonData) "result" with
  | Ok (Some _) => true
  | Ok None =>
      match get_prop (Some jsonData) "error" with
      | Ok (Some _) => true
      | _ => false
      end
  | Err _ => false
  end.

Definition line_effect (line : string) : LineEffect :=
  if starts_with "data: " line then
    let dataContent := trim (substring_from 6 line) in
    if String.eqb dataContent "[DONE]" then EndMarker
    else
      match Json.parse dataContent with
      | Ok jsonData => Message jsonData (is_response jsonData)
      | Err _ => Skip
      end
  else Skip.

(** The lines of the events that are scanned: blank events are passed
    over. *)
Definition event_lines (event : string) : list string :=
  if String.eqb (trim event) "" then [] else split_on (str [byte 10]) event.

(** The nested loops of the data handler over the lines of the complete
    events: the data accumulated, and whether a terminal line stopped
    the scan. *)
Fixpoint scan_lines (lines : list string) (sseData : list json)
  : list json * bool :=
  match lines with
  | [] => (sseData, false)
  | line :: rest =>
      match line_effect line with
      | Skip => scan_lines rest sseData
      | EndMarker => (sseData, true)
      | Message jsonData true => (sseData ++ [jsonData], true)
      | Message jsonData false => scan_lines rest (sseData ++ [jsonData])
      end
  end.

(** The loop of the end handler over the lines left in the buffer: the
    payloads that parse are pushed, nothing stops the scan. *)
Fixpoint flush_lines (lines : list string) (sseData : list json)
  : list json :=
  match lines with
  | [] => sseData
  | line :: rest =>
      if starts_with "data: " line then
        match Json.parse (trim (substring_from 6 line)) with
        | Ok jsonData => flush_lines rest (sseData ++ [jsonData])
        | Err _ => flush_lines rest sseData
        end
      else flush_lines rest sseData
  end.

(** [events = buffer.split('\n\n'); buffer = events.pop() || ''] *)
Definition split_events (buffer : string) : list string * string :=
  let events := split_on (str [byte 10; byte 10]) buffer in
  (removelast events, last events "").


Record SseState : Type := {
  sseData : list json;
  buffer : string;
  responded : bool;               (* the response callback has run *)
  timer : option Z;               (* the pending timeout, if armed *)
  settled : option (result (list json))   (* isResolved and the outcome *)
}.

Inductive SseEvent : Type :=
| Response                   (* the response arrives: the callback runs *)
| Data (chunk : string)      (* res.on('data') *)
| End                        (* res.on('end') *)
| ResError (msg : string)    (* res.on('error') *)
| ReqError (msg : string)    (* req.on('error') *)
| TimerFired.                (* the timeout callback *)

Definition initial : SseState :=
  {| sseData := []; buffer := ""; responded := false; timer := None;
     settled := None |}.

(** Settling: the first resolution or rejection wins. *)
Definition settle (s : SseState) (outcome : result (list json))
  : option (result (list json)) :=
  match settled s with
  | Some o => Some o
  | None => Some outcome
  end.

(** One event.  Once the promise is settled the request is destroyed
    (or the stream is over) and later events change nothing; the
    stream events need the response, the timer callback runs only
    while the timer is pending. *)
Definition step (timeout : Z) (s : SseState) (e : SseEvent) : SseState :=
  match settled s with
  | Some _ => s
  | None =>
      match e with
      | Response =>
          if responded s then s
          else {| sseData := sseData s; buffer := buffer s;
                  responded := true; timer := Some timeout;
                  settled := None |}
      | Data chunk =>
          if responded s then
            let (events, rest) := split_events (buffer s +:+ chunk) in
            let (data, stop) := scan_lines (flat_map event_lines events)
                                  (sseData s) in
            if stop then
              {| sseData := data; buffer := rest; responded := true;
                 timer := None; settled := settle s (Ok data) |}
            else
              {| sseData := data; buffer := rest; responded := true;
                 timer := timer s; settled := None |}
          else s
      | End =>
          if responded s then
            let data :=
              if String.eqb (trim (buffer s)) "" then sseData s
              else flush_lines (split_on (str [byte 10]) (buffer s))
                     (sseData s) in
            {| sseData := data; buffer := buffer s; responded := true;
               timer := None; settled := settle s (Ok data) |}
          else s
      | ResError msg =>
          if responded s then
            {| sseData := sseData s; buffer := buffer s; responded := true;
               timer := None;
               settled := settle s (Err (GenericError
                                           ("SSE response error: " +:+ msg))) |}
          else s
      | ReqError msg =>
          {| sseData := sseData s; buffer := buffer s;
             responded := responded s; timer := None;
             settled := settle s (Err (GenericError
                                         ("SSE request error: " +:+ msg))) |}
      | TimerFired =>
          match timer s with
          | Some _ =>
              {| sseData := sseData s; buffer := buffer s;
                 responded := responded s; timer := None;
                 settled :=
                   settle s
                     (Ok (match sseData s with
                          | [] => [JObj [("error",
                                          JStr "SSE timeout - no data received")]]
                          | _ :: _ => sseData s
                          end)) |}
          | None => s
          end
      end
  end.

Definition run (timeout : Z) (s : SseState) (trace : list SseEvent)
  : SseState :=
  fold_left (step timeout) trace s.


(** ** execute *)

Record McpParameters : Type := {
  connectionType : string;
  operation : string;
  toolName : string;
  resourceUri : string;
  promptName : string;
  parameters : string
}.

Record SseCredentials : Type := {
  sseUrl : string;
  sseTimeout : Z;
  sse_headers : string
}.

Record HttpCredentials : Type := {
  httpStreamUrl : string;
  httpTimeout : Z;
  http_headers : string
}.

(** The host and the network, as [execute] uses them. *)
Record McpHost : Type := {
  sseCredentials : result SseCredentials;
  httpCredentials : result HttpCredentials;
  handleSSERequest : string -> json -> obj -> Z -> result (list json);
  httpRequest : Http;
  continueOnFail : bool
}.

(** The JSON-RPC envelope of one item; [now] is [Date.now()]. *)
Definition mcpRequest (p : McpParameters) (now : Z) : result json :=
  let envelope := [("jsonrpc", JStr "2.0"); ("method", JStr (operation p));
                   ("id", JNum now)] in
  if String.eqb (operation p) "tools/call" then
    let* toolParams := Json.parse (parameters p) in
    Ok (JObj (envelope ++
              [("params", JObj [("name", JStr (toolName p));
                                ("arguments", toolParams)])]))
  else if String.eqb (operation p) "resources/read" then
    Ok (JObj (envelope ++ [("params", JObj [("uri", JStr (resourceUri p))])]))
  else if String.eqb (operation p) "prompts/get" then
    let* promptParams := Json.parse (parameters p) in
    Ok (JObj (envelope ++
              [("params", JObj [("name", JStr (promptName p));
                                ("arguments", promptParams)])]))
  else Ok (JObj envelope).

(** One line [key=value] of the credential's header text. *)
Definition header_line (mcpHeaders : obj) (line : string) : obj :=
  match index_of "="%char line with
  | Some (S n) =>
      let name := trim (substring_to (S n) line) in
      let value := trim (substring_from (S (S n)) line) in
      if negb (String.eqb name "")
      then obj_assign name (JStr value) mcpHeaders else mcpHeaders
  | _ => mcpHeaders
  end.

Definition custom_headers (headers : string) : obj :=
  if String.eqb headers "" then []
  else fold_left header_line (split_on (str [byte 10]) headers) [].

(** [(n as number) || 60000] *)
Definition timeout_or_default (n : Z) : Z :=
  if Z.eqb n 0 then 60000%Z else n.

Definition set_headers (extra : list (string * string)) (h : obj) : obj :=
  fold_left (fun acc kv => obj_assign (fst kv) (JStr (snd kv)) acc) extra h.

(** The record an item appends, if any ([None]: the item appends
    nothing), or the error thrown inside the [try]. *)
Definition item_output (host : McpHost) (p : McpParameters) (now : Z)
  : result (option json) :=
  let* request := mcpRequest p now in
  if String.eqb (connectionType p) "sse" then
    let* credentials := sseCredentials host in
    let mcpHeaders :=
      set_headers [("Accept", "text/event-stream");
                   ("Cache-Control", "no-cache");
                   ("Connection", "keep-alive");
                   ("Content-Type", "application/json")]
        (custom_headers (sse_headers credentials)) in
    let* data := handleSSERequest host (sseUrl credentials) request mcpHeaders
                   (timeout_or_default (sseTimeout credentials)) in
    Ok (Some (match data with
              | [single] => single
              | _ => JObj [("messages", JArr data);
                           ("messageCount", JNum (Z.of_nat (length data)))]
              end))
  else if String.eqb (connectionType p) "http" then
    let* credentials := httpCredentials host in
    let mcpHeaders :=
      set_headers [("Content-Type", "application/json")]
        (custom_headers (http_headers credentials)) in
    let* response :=
      httpRequest host
        {| hr_method := "POST";
           hr_url := httpStreamUrl credentials;
           hr_headers := mcpHeaders;
           hr_qs := None;
           hr_body := Some request;
           hr_timeout := Some (timeout_or_default (httpTimeout credentials)) |} in
    Ok (Some response)
  else Ok None.

Record McpExecutionData : Type := {
  mcp_json : json;
  mcp_pairedItem : nat
}.

(** The loop over the items; [clock i] is [Date.now()] while item [i]
    is processed. *)
Fixpoint execute_from (host : McpHost) (clock : nat -> Z) (i : nat)
  (items : list McpParameters) (returnData : list McpExecutionData)
  : result (list McpExecutionData) :=
  match items with
  | [] => Ok returnData
  | p :: rest =>
      match item_output host p (clock i) with
      | Ok (Some record) =>
          execute_from host clock (S i) rest
            (returnData ++ [{| mcp_json := record; mcp_pairedItem := i |}])
      | Ok None => execute_from host clock (S i) rest returnData
      | Err e =>
          if continueOnFail host then
            execute_from host clock (S i) rest
              (returnData ++ [{| mcp_json := JObj [("error", JStr (message e))];
                                 mcp_pairedItem := i |}])
          else Err e
      end
  end.

Definition execute (host : McpHost) (clock : nat -> Z)
  (items : list McpParameters) : result (list McpExecutionData) :=
  execute_from host clock 0 items [].

End SuperiorApisMcp.

(* ================================================================== *)
(** * What the properties are stated with                              *)
(* ================================================================== *)

Module SuperiorApisSpec.

Import SuperiorApis.

Definition is_required (f : ResourceMapperField) : bool := truthy (required f).

(** The required fields in their order, then the others in theirs. *)
Definition required_then_optional (l : list ResourceMapperField)
  : list ResourceMapperField :=
  List.filter is_required l ++ List.filter (fun f => negb (is_required f)) l.

(** The fields in declaration order that each derivation sorts: none
    when its guard fails or the derivation throws. *)
Definition declared_parameters (scenario method apiSelection : string)
  : list ResourceMapperField :=
  if String.eqb scenario "no_use_scenario"
     && negb (String.eqb method "") && negb (String.eqb apiSelection "")
  then match parameters_fields_unsorted apiSelection method with
       | Ok fields => fields
       | Err _ => []
       end
  else [].

Definition declared_body (scenario method apiSelection : string)
  : list ResourceMapperField :=
  if String.eqb scenario "no_use_scenario"
     && is_body_method (to_upper method)
     && negb (String.eqb apiSelection "")
  then match body_fields_unsorted apiSelection method with
       | Ok fields => fields
       | Err _ => []
       end
  else [].

(** A descriptor with one path, a GET operation with three parameters
    and a POST operation with a JSON body of three properties. *)
Definition sample_interface : json :=
  JObj [("info", JObj [("title", JStr "Weather"); ("version", JStr "v1")]);
        ("paths", JObj [("/weather", JObj [
    ("get", JObj [
       ("summary", JStr "Current weather");
       ("parameters", JArr [
          JObj [("name", JStr "units"); ("in", JStr "query");
                ("schema", JObj [("type", JStr "string")])];
          JObj [("name", JStr "city"); ("in", JStr "query");
                ("required", JBool true);
                ("schema", JObj [("type", JStr "string")])];
          JObj [("name", JStr "X-Trace"); ("in", JStr "header");
                ("schema", JObj [("type", JStr "integer")])];
          JObj [("name", JStr "key"); ("in", JStr "header");
                ("required", JBool true)]])]);
    ("post", JObj [
       ("requestBody", JObj [("content", JObj [("application/json", JObj [
          ("schema", JObj [
             ("properties", JObj [
                ("note", JObj [("type", JStr "string")]);
                ("city", JObj [("type", JStr "string")]);
                ("days", JObj [("type", JStr "integer")])]);
             ("required", JArr [JStr "days"; JStr "city"])])])])])])])])].

(** The catalog entry of that API; its version is found in
    [interface.info.version]. *)
Definition sample_plugin : json :=
  JObj [("id", JNum 42);
        ("name_for_human", JStr "Weather API");
        ("description_for_human", JStr "Current weather by city");
        ("interface", sample_interface)].

Definition sample_pluginData : PluginData :=
  pluginData sample_plugin "3b52426bfe33".

Definition sample_selection : string :=
  Eval vm_compute in encodedData sample_pluginData.

Definition catalog_response : json :=
  JObj [("plugins", JArr [JObj [("plugin", JObj [("id", JNum 42)])]])].

(** The remote side of the examples: an empty scenario list for the
    list call. *)
Definition empty_list_http : Http :=
  fun request =>
    if String.eqb (hr_method request) "POST"
    then Ok (JObj [("status", JNum 1); ("data", JObj [("list", JArr [])])])
    else Err (RequestError "404").

(** A list of two scenarios: the detail of the first has content, the
    detail call of the second fails. *)
Definition two_scenarios_http : Http :=
  fun request =>
    if String.eqb (hr_method request) "POST"
    then Ok (JObj [("status", JNum 1);
                   ("data", JObj [("list", JArr [
                      JObj [("scenario_id", JNum 7);
                            ("scenario_name", JStr "Paris")];
                      JObj [("scenario_id", JNum 8);
                            ("scenario_name", JStr "Rome")]])])])
    else if String.eqb (hr_url request)
              "https://superiorapis.cteam.com.tw/superiorapis_store/node/scenario?scenario_id=7"
    then Ok (JObj [("status", JNum 1);
                   ("data", JObj [("request_content",
                                   JObj [("city", JStr "Paris")])])])
    else Err (RequestError "500").

(** A key that is not an array index: it does not start with a digit. *)
Definition named_key (k : string) : bool :=
  match k with
  | String c _ => match Json.digit_of_char c with
                  | Some _ => false
                  | None => true
                  end
  | EmptyString => false
  end.

(** The value the resource mapper supplies for the header [k]:
    [parametersFields.value["header_<k>"]]. *)
Definition mapped_header (p : ItemParameters) (k : string) : jsval :=
  match get_prop_opt (parametersFields p) "value" with
  | Some params =>
      if truthy params then obj_get ("header_" +:+ k) (own_props params)
      else None
  | None => None
  end.

(** The steps behind an assembled request. *)
Inductive Assembled (getCredentials : result json) (p : ItemParameters)
  (r : HttpRequest) : Prop :=
| assembled (pathMethods fromCredential fromUser : jsval) (h1 h2 h3 : obj)
    (q0 q1 : json) (credentials : json) :
    getCredentials = Ok credentials ->
    credHeaders credentials = Ok fromCredential ->
    merge_source fromCredential [("token", JStr (token p))] = Ok h1 ->
    userHeaders p = Ok fromUser ->
    merge_source fromUser h1 = Ok h2 ->
    mapped_fields p q0 h2 = Ok (q1, h3) ->
    resolve_body p = Ok (hr_body r) ->
    infer_content_type (hr_method r) pathMethods h3 = Ok (hr_headers r) ->
    Assembled getCredentials p r.

(** An item whose three header sources all try to set [token], and
    bring the case variants [Token] and [TOKEN] as well. *)
Definition hostile_credentials : result json :=
  Ok (JObj [("apiUrl", JStr "https://superiorapis.cteam.com.tw");
            ("headers",
             JStr (Json.stringify
                     (JObj [("token", JStr "from-credential");
                            ("Token", JStr "C"); ("X-Org", JStr "acme")])))]).

Definition hostile_item : ItemParameters :=
  {| token := "t1";
     apiSelection := sample_selection;
     method := "POST";
     baseUri := "https://superiorapis-creator.cteam.com.tw";
     sendHeaders := true;
     specifyHeaders := "json";
     headers := None;
     headersJson :=
       Json.stringify (JObj [("token", JStr "from-user");
                             ("Token", JStr "U"); ("X-Trace", JStr "7")]);
     sendQuery := false;
     specifyQuery := "keypair";
     queryParameters := None;
     queryParametersJson := "{}";
     scenario := "no_use_scenario";
     parametersFields :=
       Some (JObj [("mappingMode", JStr "defineBelow");
                   ("value", JObj [("query_city", JStr "Paris");
                                   ("header_token", JStr "from-mapper");
                                   ("header_TOKEN", JStr "M");
                                   ("header_key", JStr "k1")])]);
     bodyFields :=
       Some (JObj [("mappingMode", JStr "defineBelow");
                   ("value", JObj [("body_city", JStr "Paris");
                                   ("body_days", JNum 3)])]);
     bodyJson := "" |}.

Definition hostile_request : HttpRequest :=
  Eval vm_compute in
    match assemble hostile_credentials hostile_item with
    | Ok r => r
    | Err _ => {| hr_method := ""; hr_url := ""; hr_headers := [];
                  hr_qs := None; hr_body := None; hr_timeout := None |}
    end.

(** The entry a source of headers has under a key. *)
Definition supplied (source : jsval) (k : string) : jsval :=
  match source with
  | Some src => obj_get k (own_props src)
  | None => None
  end.

(** The first defined value. *)
Definition first_of (a b c : jsval) : jsval :=
  match a, b with
  | Some v, _ => Some v
  | None, Some v => Some v
  | None, None => c
  end.

(** A scenario template is selected and the Body JSON editor holds only
    an empty object and white space. *)
Definition blank_body_item : ItemParameters :=
  {| token := "t1";
     apiSelection := sample_selection;
     method := "POST";
     baseUri := "https://superiorapis-creator.cteam.com.tw";
     sendHeaders := false;
     specifyHeaders := "keypair";
     headers := None;
     headersJson := "{}";
     sendQuery := false;
     specifyQuery := "keypair";
     queryParameters := None;
     queryParametersJson := "{}";
     scenario := Json.stringify_indent 4 (JObj [("city", JStr "Paris")]);
     parametersFields := None;
     bodyFields := None;
     bodyJson := "  {} " +:+ str [byte 10] |}.

(** The parameters with another value in the Request Body mapper. *)
Definition with_bodyFields (fields : jsval) (p : ItemParameters)
  : ItemParameters :=
  {| token := token p;
     apiSelection := apiSelection p;
     method := method p;
     baseUri := baseUri p;
     sendHeaders := sendHeaders p;
     specifyHeaders := specifyHeaders p;
     headers := headers p;
     headersJson := headersJson p;
     sendQuery := sendQuery p;
     specifyQuery := specifyQuery p;
     queryParameters := queryParameters p;
     queryParametersJson := queryParametersJson p;
     scenario := scenario p;
     parametersFields := parametersFields p;
     bodyFields := fields;
     bodyJson := bodyJson p |}.

(** The parameters with another Body JSON text. *)
Definition with_bodyJson (text : string) (p : ItemParameters)
  : ItemParameters :=
  {| token := token p;
     apiSelection := apiSelection p;
     method := method p;
     baseUri := baseUri p;
     sendHeaders := sendHeaders p;
     specifyHeaders := specifyHeaders p;
     headers := headers p;
     headersJson := headersJson p;
     sendQuery := sendQuery p;
     specifyQuery := specifyQuery p;
     queryParameters := queryParameters p;
     queryParametersJson := queryParametersJson p;
     scenario := scenario p;
     parametersFields := parametersFields p;
     bodyFields := bodyFields p;
     bodyJson := text |}.

(** The value the resource mapper supplies for the query parameter [k]:
    [parametersFields.value["query_<k>"]]. *)
Definition mapped_query (p : ItemParameters) (k : string) : jsval :=
  match get_prop_opt (parametersFields p) "value" with
  | Some params =>
      if truthy params then obj_get ("query_" +:+ k) (own_props params)
      else None
  | None => None
  end.

(** Every step behind an assembled request, with the values that pass
    from one step to the next. *)
Inductive Derivation (getCredentials : result json) (p : ItemParameters)
  (r : HttpRequest) : Prop :=
| derivation (pluginData : json) (firstPath : option string)
    (pathMethods fromCredential fromUser : jsval) (h1 h2 h3 : obj)
    (q0 q1 : json) (credentials : json) :
    token p <> "" ->
    apiSelection p <> "" ->
    decode_apiSelection (apiSelection p) = Ok pluginData ->
    first_path pluginData = Ok (firstPath, pathMethods) ->
    effective_method (method p) pathMethods = Ok (hr_method r) ->
    hr_url r = baseUri p +:+ key_text firstPath ->
    getCredentials = Ok credentials ->
    credHeaders credentials = Ok fromCredential ->
    merge_source fromCredential [("token", JStr (token p))] = Ok h1 ->
    userHeaders p = Ok fromUser ->
    merge_source fromUser h1 = Ok h2 ->
    user_query p = Ok q0 ->
    mapped_fields p q0 h2 = Ok (q1, h3) ->
    hr_qs r = Some q1 ->
    resolve_body p = Ok (hr_body r) ->
    infer_content_type (hr_method r) pathMethods h3 = Ok (hr_headers r) ->
    hr_timeout r = None ->
    Derivation getCredentials p r.

(** The outcome of one item: the response, or the error thrown inside
    the [try]. *)
Definition item_outcome (httpRequest : Http) (getCredentials : result json)
  (p : ItemParameters) : result json :=
  let* options := assemble getCredentials p in httpRequest options.

(** What the option of a scenario entry holds: its name, and as value
    either its id or the request content of its detail response,
    printed with an indentation of four spaces. *)
Definition option_of_scenario (httpRequest : Http) (token : string)
  (scenario : json) (o : INodePropertyOptions) : Prop :=
  opt_name o = get_prop_opt (Some scenario) "scenario_name"
  /\ (opt_value o = get_prop_opt (Some scenario) "scenario_id"
      \/ exists detail content,
           httpRequest
             (scenario_detail_request token
                (get_prop_opt (Some scenario) "scenario_id")) = Ok detail
           /\ get_prop_opt (get_prop_opt (Some detail) "data")
                "request_content" = Some content
           /\ opt_value o = Some (JStr (Json.stringify_indent 4 content))).

(** A byte that cannot end or break a quoted HTML attribute. *)
Definition url_safe (c : ascii) : Prop :=
  ~ In c [dquote; "'"%char; "<"%char; ">"%char; " "%char;
          byte 9; byte 10; byte 11; byte 12; byte 13].

(** The option [o] stands for the catalog entry [plugin]: it carries
    its name, and its value decodes to the id, the version, the name
    and the interface of the plugin. *)
Definition describes (plugin : json) (o : LoadedOption) : Prop :=
  lo_name o = get_prop_opt (Some plugin) "name_for_human"
  /\ exists value decoded,
       lo_value o = Some (JStr value)
       /\ decode_apiSelection value = Ok decoded
       /\ pd_id (pluginData_of decoded) = get_prop_opt (Some plugin) "id"
       /\ pd_version (pluginData_of decoded) = Some (version plugin)
       /\ pd_name (pluginData_of decoded)
          = get_prop_opt (Some plugin) "name_for_human"
       /\ pd_interface (pluginData_of decoded)
          = get_prop_opt (Some plugin) "interface".

(** ** Sample inputs *)


(** A catalog entry whose description links to its specification. *)
Definition linked_plugin : json :=
  JObj [("id", JNum 42);
        ("name_for_human", JStr "Weather API");
        ("description_for_human",
         JStr ("Current weather by city. Docs: https://superiorapis.cteam.com.tw/interface/3b52426bfe33/?doc=spec"
               +:+ str [byte 10] +:+ "Second line"));
        ("interface", sample_interface)].

Definition linked_catalog : json :=
  JObj [("plugins", JArr [JObj [("plugin", linked_plugin)]])].

Definition linked_http : Http := fun _ => Ok linked_catalog.

(** The one option loaded from that catalog. *)
Definition linked_option : LoadedOption :=
  Eval vm_compute in
    match al_options (getApiList linked_http ∅ "t1" 1000) with
    | o :: _ => o
    | [] => {| lo_name := None; lo_value := None; lo_description := None |}
    end.

(** An item that selects the sample API and sends neither headers nor
    query parameters of its own. *)
Definition plain_item (token method scenario bodyJson : string)
  : ItemParameters :=
  {| token := token;
     apiSelection := sample_selection;
     method := method;
     baseUri := "https://superiorapis-creator.cteam.com.tw";
     sendHeaders := false;
     specifyHeaders := "keypair";
     headers := None;
     headersJson := "{}";
     sendQuery := false;
     specifyQuery := "keypair";
     queryParameters := None;
     queryParametersJson := "{}";
     scenario := scenario;
     parametersFields := None;
     bodyFields := None;
     bodyJson := bodyJson |}.

(** An item whose query parameters come from the key-value rows and
    from the resource mapper. *)
Definition query_item : ItemParameters :=
  {| token := "t1";
     apiSelection := sample_selection;
     method := "GET";
     baseUri := "https://superiorapis-creator.cteam.com.tw";
     sendHeaders := false;
     specifyHeaders := "keypair";
     headers := None;
     headersJson := "{}";
     sendQuery := true;
     specifyQuery := "keypair";
     queryParameters :=
       Some [ {| kv_name := "city"; kv_value := JStr "Rome" |};
              {| kv_name := "lang"; kv_value := JStr "it" |} ];
     queryParametersJson := "{}";
     scenario := "no_use_scenario";
     parametersFields :=
       Some (JObj [("mappingMode", JStr "defineBelow");
                   ("value", JObj [("query_city", JStr "Paris")])]);
     bodyFields := None;
     bodyJson := "" |}.

(** The request assembled for an item, when there is one. *)
Definition request_of (getCredentials : result json) (p : ItemParameters)
  : HttpRequest :=
  match assemble getCredentials p with
  | Ok r => r
  | Err _ => {| hr_method := ""; hr_url := ""; hr_headers := [];
                hr_qs := None; hr_body := None; hr_timeout := None |}
  end.

(** A declared query parameter, a declared header and a declared path
    parameter. *)
Definition city_parameter : json :=
  JObj [("name", JStr "city"); ("in", JStr "query");
        ("required", JBool true)].

Definition trace_parameter : json :=
  JObj [("name", JStr "X-Trace"); ("in", JStr "header")].

Definition id_parameter : json :=
  JObj [("name", JStr "id"); ("in", JStr "path"); ("required", JBool true)].

(** The field derived from a parameter, when there is one. *)
Definition field_of (param : json) : ResourceMapperField :=
  match parameter_field param with
  | Ok f => f
  | Err _ => {| id := ""; displayName := ""; required := JNull;
                defaultMatch := false; display := false; type := "";
                canBeUsedToMatch := false |}
  end.

End SuperiorApisSpec.

Module SuperiorApisMcpSpec.

Import SuperiorApisMcp.




Definition nl : string := str [byte 10].

(** One complete event with one [data: ] line. *)
Definition data_event (payload : json) : string :=
  "data: " +:+ Json.stringify payload +:+ nl +:+ nl.

Definition ok_response : json := JObj [("result", JObj [("ok", JBool true)])].




(** What [execute] makes of the messages an SSE request resolved
    with. *)
Definition sse_record (data : list json) : json :=
  match data with
  | [single] => single
  | _ => JObj [("messages", JArr data);
               ("messageCount", JNum (Z.of_nat (length data)))]
  end.

(** [l] starts with a line feed. *)
Definition lf_first (l : chars) : bool :=
  match l with
  | c :: _ => Ascii.eqb (byte 10) c
  | [] => false
  end.

(** No two adjacent line feeds. *)
Fixpoint lf_apart (l : chars) : Prop :=
  match l with
  | c :: r => (Ascii.eqb (byte 10) c && lf_first r = false) /\ lf_apart r
  | [] => True
  end.

(** The pieces of a text between blank lines, [cur] being the piece
    under way, last character first. *)
Definition blank_split (cur s : chars) : list chars :=
  split_go [byte 10; byte 10] 0 cur s.

(** The record the timeout resolves with when nothing was received. *)
Definition timeout_record : json :=
  JObj [("error", JStr "SSE timeout - no data received")].

(** The promise is pending, or it holds an outcome that the state
    accounts for: the accumulated messages, the timeout record when
    there are none, or the error of a stream event of [trace]. *)
Definition accounted (trace : list SseEvent) (s : SseState) : Prop :=
  match settled s with
  | None => True
  | Some (Ok data) =>
      data = sseData s \/ (sseData s = [] /\ data = [timeout_record])
  | Some (Err e) =>
      exists msg,
        (In (ResError msg) trace
         /\ e = GenericError ("SSE response error: " +:+ msg))
        \/ (In (ReqError msg) trace
            /\ e = GenericError ("SSE request error: " +:+ msg))
  end.

(** ** Sample inputs *)

Definition sse_item : McpParameters :=
  {| connectionType := "sse";
     operation := "tools/list";
     toolName := "";
     resourceUri := "";
     promptName := "";
     parameters := "{}" |}.

Definition http_item : McpParameters :=
  {| connectionType := "http";
     operation := "resources/read";
     toolName := "";
     resourceUri := "resource://weather";
     promptName := "";
     parameters := "{}" |}.

(** A host with both credentials, whose custom headers try to set the
    headers of the transports. *)
Definition open_host (continue : bool) : McpHost :=
  {| sseCredentials :=
       Ok {| sseUrl := "https://mcp.example/sse";
             sseTimeout := 0;
             sse_headers := "Accept=text/html" +:+ nl +:+ "X-Org=acme" |};
     httpCredentials :=
       Ok {| httpStreamUrl := "https://mcp.example/rpc";
             httpTimeout := 0;
             http_headers := "Content-Type=text/plain" +:+ nl
                             +:+ "X-Org=acme" |};
     handleSSERequest := fun _ _ _ _ => Ok [ok_response];
     httpRequest := fun _ => Ok ok_response;
     continueOnFail := continue |}.

End SuperiorApisMcpSpec.

(* ================================================================== *)
(** * Properties of the JavaScript runtime model                       *)
(* ================================================================== *)

(** ** Objects: lookups after the updates *)

Module ObjFacts.

Lemma obj_get_set_eq (k : string) (v : json) (o : obj) :
  obj_get k (obj_set k v o) = Some v.
Proof.
  induction o as [|[k' v'] r IH]; simpl.
  - now rewrite String.eqb_refl.
  - destruct (String.eqb k k') eqn:E; simpl; rewrite ?String.eqb_refl, ?E; auto.
Qed.

Lemma obj_get_set_ne (k k' : string) (v : json) (o : obj) :
  k <> k' -> obj_get k (obj_set k' v o) = obj_get k o.
Proof.
  intros Hne. induction o as [|[k1 v1] r IH]; simpl.
  - apply String.eqb_neq in Hne. now rewrite Hne.
  - destruct (String.eqb k' k1) eqn:E; simpl.
    + apply String.eqb_eq in E. subst k1.
      apply String.eqb_neq in Hne. now rewrite Hne.
    + now rewrite IH.
Qed.

Lemma obj_get_delete_eq (k : string) (o : obj) :
  obj_get k (obj_delete k o) = None.
Proof.
  induction o as [|[k' v'] r IH]; simpl; auto.
  destruct (String.eqb k k') eqn:E; simpl; rewrite ?E; auto.
Qed.

Lemma obj_get_delete_ne (k k' : string) (o : obj) :
  k <> k' -> obj_get k (obj_delete k' o) = obj_get k o.
Proof.
  intros Hne. induction o as [|[k1 v1] r IH]; simpl; auto.
  destruct (String.eqb k' k1) eqn:E; simpl.
  - apply String.eqb_eq in E. subst k1.
    apply String.eqb_neq in Hne. now rewrite Hne.
  - now rewrite IH.
Qed.

Lemma obj_get_in (k : string) (o : obj) :
  In k (map fst o) <-> obj_get k o <> None.
Proof.
  induction o as [|[k' v'] r IH]; simpl.
  - tauto.
  - destruct (String.eqb k k') eqn:E.
    + apply String.eqb_eq in E. subst. split; [discriminate|auto].
    + apply String.eqb_neq in E. rewrite <- IH. split; [|tauto].
      intros [H|H]; [congruence|assumption].
Qed.

(** A spread reads the source first and the target otherwise. *)
Lemma obj_get_spread (k : string) (a b : obj) :
  obj_get k (obj_spread a b) =
  match obj_get k b with
  | Some v => Some v
  | None => obj_get k a
  end.
Proof.
  unfold obj_spread.
  assert (H : forall ks a,
             obj_get k (fold_left
                          (fun acc k0 => match obj_get k0 b with
                                         | Some v => obj_set k0 v acc
                                         | None => acc
                                         end) ks a)
             = match obj_get k b with
               | Some v => if existsb (String.eqb k) ks then Some v
                           else obj_get k a
               | None => obj_get k a
               end).
  { induction ks as [|k0 ks IH]; intros a0; simpl.
    - now destruct (obj_get k b).
    - rewrite IH. destruct (String.eqb k k0) eqn:E.
      + apply String.eqb_eq in E. subst k0. simpl.
        destruct (obj_get k b) eqn:Eb; auto.
        destruct (existsb (String.eqb k) ks); auto.
        apply obj_get_set_eq.
      + apply String.eqb_neq in E. simpl.
        destruct (obj_get k0 b); auto.
        rewrite obj_get_set_ne by assumption. reflexivity. }
  rewrite H. destruct (obj_get k b) eqn:Eb; auto.
  assert (Hin : In k (map fst b)) by (apply obj_get_in; congruence).
  destruct (existsb (String.eqb k) (map fst b)) eqn:Ex; auto.
  exfalso. apply Bool.not_true_iff_false in Ex. apply Ex.
  apply existsb_exists. exists k. split; auto. apply String.eqb_refl.
Qed.

Lemma obj_get_spread_none (k : string) (a b : obj) :
  obj_get k b = None -> obj_get k (obj_spread a b) = obj_get k a.
Proof. intros H. now rewrite obj_get_spread, H. Qed.

Lemma obj_get_assign_ne (k k' : string) (v : json) (o : obj) :
  k <> k' -> obj_get k (obj_assign k' v o) = obj_get k o.
Proof.
  intros Hne. unfold obj_assign.
  destruct (String.eqb k' "__proto__"); auto using obj_get_set_ne.
Qed.

Lemma obj_set_fresh (k : string) (v : json) (o : obj) :
  ~ In k (map fst o) -> obj_set k v o = o ++ [(k, v)].
Proof.
  induction o as [|[k' v'] r IH]; simpl; auto.
  intros Hn. destruct (String.eqb k k') eqn:E.
  - apply String.eqb_eq in E. subst. tauto.
  - rewrite IH; auto.
Qed.

Lemma obj_extend_fresh (a b : obj) :
  keys_distinct (a ++ b) -> obj_extend a b = a ++ b.
Proof.
  unfold keys_distinct, obj_extend. revert a.
  induction b as [|[k v] r IH]; intros a Hd; simpl.
  - now rewrite app_nil_r.
  - rewrite obj_set_fresh.
    + rewrite IH; rewrite <- app_assoc; auto.
    + rewrite map_app in Hd. simpl in Hd.
      apply NoDup_remove_2 in Hd. intros Hin. apply Hd.
      apply in_or_app. now left.
Qed.

End ObjFacts.

(** ** Text: lengths, concatenation, search and split *)

Module TextFacts.



Lemma unstr_app (a b : string) : unstr (a +:+ b) = unstr a ++ unstr b.
Proof. induction a as [|c a IH]; simpl; auto. now rewrite IH. Qed.

Lemma append_assoc (a b c : string) : (a +:+ b) +:+ c = a +:+ (b +:+ c).
Proof.
  induction a as [|x a IH]; [reflexivity|].
  change (String x ((a +:+ b) +:+ c) = String x (a +:+ (b +:+ c))).
  now rewrite IH.
Qed.

Lemma append_empty_r (a : string) : a +:+ "" = a.
Proof.
  induction a as [|x a IH]; [reflexivity|].
  change (String x (a +:+ "") = String x a). now rewrite IH.
Qed.

Lemma firstn_length_app {A : Type} (a b : list A) :
  firstn (length a) (a ++ b) = a.
Proof. induction a as [|x a IH]; simpl; auto. now rewrite IH. Qed.

Lemma skipn_length_app {A : Type} (a b : list A) (n : nat) :
  skipn (length a + n) (a ++ b) = skipn n b.
Proof. induction a as [|x a IH]; simpl; auto. Qed.

Lemma removelast_cons {A : Type} (a : A) (l : list A) :
  l <> [] -> removelast (a :: l) = a :: removelast l.
Proof. destruct l; [congruence|reflexivity]. Qed.

Lemma last_cons {A : Type} (a : A) (l : list A) (d : A) :
  l <> [] -> last (a :: l) d = last l d.
Proof. destruct l; [congruence|reflexivity]. Qed.

Lemma removelast_app_ne {A : Type} (l1 l2 : list A) :
  l2 <> [] -> removelast (l1 ++ l2) = l1 ++ removelast l2.
Proof.
  intros H. induction l1 as [|a l1 IH]; auto.
  cbn [app]. rewrite removelast_cons, IH; auto.
  destruct l1, l2; simpl; congruence.
Qed.

Lemma last_app_ne {A : Type} (l1 l2 : list A) (d : A) :
  l2 <> [] -> last (l1 ++ l2) d = last l2 d.
Proof.
  intros H. induction l1 as [|a l1 IH]; auto.
  cbn [app]. rewrite last_cons; auto.
  destruct l1, l2; simpl; congruence.
Qed.

Lemma index_of_chars_app (c : ascii) (a b : chars) :
  index_of_chars c a = None ->
  index_of_chars c (a ++ c :: b) = Some (length a).
Proof.
  induction a as [|x a IH]; simpl; intros H.
  - now rewrite Ascii.eqb_refl.
  - destruct (Ascii.eqb x c); [discriminate|].
    destruct (index_of_chars c a); [discriminate|]. now rewrite IH.
Qed.

Lemma index_of_chars_none_app (c : ascii) (a b : chars) :
  index_of_chars c a = None -> index_of_chars c b = None ->
  index_of_chars c (a ++ b) = None.
Proof.
  induction a as [|x a IH]; simpl; intros Ha Hb; auto.
  destruct (Ascii.eqb x c); [discriminate|].
  destruct (index_of_chars c a); [discriminate|]. now rewrite IH.
Qed.

(** A text without the separator is the one piece of its split. *)
Lemma split_go_single (c : ascii) (s cur : chars) :
  index_of_chars c s = None ->
  split_go [c] 0 cur s = [rev cur ++ s].
Proof.
  revert cur. induction s as [|a s IH]; intros cur H; simpl.
  - now rewrite app_nil_r.
  - simpl in H. rewrite (Ascii.eqb_sym c a).
    destruct (Ascii.eqb a c); [discriminate|]. simpl.
    destruct (index_of_chars c s); [discriminate|].
    rewrite IH by reflexivity. simpl. now rewrite <- app_assoc.
Qed.

Lemma split_go_nonempty (sep : chars) (s : chars) :
  forall skip cur, split_go sep skip cur s <> [].
Proof.
  induction s as [|c r IH]; intros k cur; cbn [split_go]; [discriminate|].
  destruct k; [|apply IH].
  destruct (starts_with_chars sep (c :: r)); [discriminate|apply IH].
Qed.

Lemma split_on_nonempty (sep s : string) : split_on sep s <> [].
Proof.
  unfold split_on. intros H. apply map_eq_nil in H.
  revert H. apply split_go_nonempty.
Qed.

End TextFacts.

(** ** JSON.parse inverts JSON.stringify *)

Module JsonFacts.

Import JsonSpec.

Import Json.

Local Open Scope char_scope.

Lemma parse_string_escape (c : ascii) (r : chars) :
  parse_string (escape_char c ++ r) = cons_chars [c] (parse_string r).
Proof.
  destruct c as [[] [] [] [] [] [] [] []]; reflexivity.
Qed.

Lemma parse_string_quote (k rest : chars) :
  parse_string (flat_map escape_char k ++ dquote :: rest) = Some (k, rest).
Proof.
  induction k as [|c k IH]; simpl.
  - reflexivity.
  - rewrite <- app_assoc, parse_string_escape, IH. reflexivity.
Qed.

Lemma lex_uint_digits (d : Decimal.uint) (rest : chars) :
  match rest with
  | [] => True
  | c :: _ => digit_of_char c = None
  end ->
  lex_uint (chars_of_uint d ++ rest) = (d, rest).
Proof.
  intros Hrest.
  induction d; simpl; try (rewrite IHd; reflexivity).
  destruct rest as [|c r]; simpl; auto. now rewrite Hrest.
Qed.

Lemma delim_not_digit (rest : chars) :
  delim_ok rest = true ->
  match rest with
  | [] => True
  | c :: _ => digit_of_char c = None
  end.
Proof.
  destruct rest as [|c r]; simpl; auto.
  destruct c as [[] [] [] [] [] [] [] []]; simpl; intros H;
    try discriminate; reflexivity.
Qed.

Lemma delim_not_fraction (rest : chars) :
  delim_ok rest = true -> starts_fraction rest = false.
Proof.
  destruct rest as [|c r]; simpl; auto.
  destruct c as [[] [] [] [] [] [] [] []]; simpl; intros H;
    try discriminate; reflexivity.
Qed.

(** The decimal digits of a positive number have no leading zero. *)
Lemma to_uint_head (p : positive) :
  match Pos.to_uint p with
  | Decimal.Nil | Decimal.D0 _ => False
  | _ => True
  end.
Proof.
  pose proof (DecimalPos.Unsigned.to_of (Pos.to_uint p)) as Hn.
  rewrite DecimalPos.Unsigned.of_to in Hn. simpl in Hn.
  pose proof (DecimalPos.Unsigned.to_uint_nonnil p) as Hnil.
  pose proof (DecimalPos.Unsigned.to_uint_nonzero p) as Hz.
  destruct (Pos.to_uint p) as [|d| | | | | | | | |] eqn:E; auto.
  rewrite DecimalFacts.unorm_D0 in Hn.
  unfold Decimal.unorm in Hn.
  pose proof (DecimalFacts.nzhead_nonzero d d) as Hnz.
  destruct (Decimal.nzhead d) eqn:E2; try discriminate Hn.
  - injection Hn as Hn. subst d. now apply Hz.
  - congruence.
Qed.

Lemma chars_of_uint_first (d : Decimal.uint) :
  d <> Decimal.Nil ->
  exists c r, chars_of_uint d = c :: r /\
              Ascii.eqb c "-" = false /\ value_start c = true.
Proof.
  destruct d; intros H; try congruence; simpl; eexists _, _;
    (split; [reflexivity|split; reflexivity]).
Qed.

Lemma parse_number_print (z : Z) (rest : chars) :
  delim_ok rest = true ->
  parse_number (chars_of_Z z ++ rest) = Some (JNum z, rest).
Proof.
  intros Hd.
  pose proof (delim_not_digit _ Hd) as Hdig.
  pose proof (delim_not_fraction _ Hd) as Hfr.
  pose proof (DecimalZ.of_to z) as Hz.
  unfold chars_of_Z, parse_number.
  destruct z as [|p|p]; simpl Z.to_int in *.
  - simpl. destruct rest as [|c r]; simpl in *.
    + reflexivity.
    + rewrite Hdig. simpl. now rewrite Hfr.
  - pose proof (to_uint_head p) as Hh.
    destruct (chars_of_uint_first (Pos.to_uint p)) as (c & r & Hc & Hm & _).
    { intros E. now rewrite E in Hh. }
    rewrite Hc. simpl app. cbv iota beta. rewrite Hm.
    change (c :: r ++ rest) with ((c :: r) ++ rest). rewrite <- Hc.
    rewrite (lex_uint_digits _ _ Hdig).
    destruct (Pos.to_uint p) eqn:E; try contradiction;
      rewrite Hfr; simpl in Hz; rewrite <- Hz; reflexivity.
  - pose proof (to_uint_head p) as Hh.
    simpl app. cbv iota beta. rewrite Ascii.eqb_refl.
    rewrite (lex_uint_digits _ _ Hdig).
    destruct (Pos.to_uint p) eqn:E; try contradiction;
      rewrite Hfr; simpl in Hz; rewrite <- Hz; reflexivity.
Qed.

Lemma size_pos (v : json) : 1 <= size v.
Proof. destruct v; simpl; lia. Qed.

Lemma size_elems_pos (l : list json) : 1 <= size_elems l.
Proof.
  destruct l as [|x l]; simpl; [lia|]. pose proof (size_pos x). lia.
Qed.

Lemma size_members_pos (o : list (string * json)) : 1 <= size_members o.
Proof. destruct o as [|[k x] o]; simpl; lia. Qed.

Lemma value_start_facts (c : ascii) (r : chars) :
  value_start c = true ->
  skip_ws (c :: r) = c :: r /\
  expect "]" (c :: r) = None /\ expect "}" (c :: r) = None.
Proof.
  destruct c as [[] [] [] [] [] [] [] []]; simpl; intros H;
    try discriminate; repeat split; reflexivity.
Qed.

Lemma number_start_dispatch (f : nat) (c : ascii) (r : chars) :
  is_number_start c = true ->
  parse_value (S f) (c :: r) = parse_number (c :: r).
Proof.
  destruct c as [[] [] [] [] [] [] [] []]; intros H;
    try discriminate H; reflexivity.
Qed.

Lemma chars_of_Z_first (z : Z) :
  exists c r, chars_of_Z z = c :: r /\
              is_number_start c = true /\ value_start c = true.
Proof.
  unfold chars_of_Z. destruct z as [|p|p]; simpl Z.to_int.
  - eexists _, _. repeat split; reflexivity.
  - pose proof (to_uint_head p) as Hh.
    destruct (Pos.to_uint p); try contradiction; simpl; eexists _, _;
      repeat split; reflexivity.
  - eexists _, _. repeat split; reflexivity.
Qed.

Lemma print_first (v : json) :
  exists c r, print v = c :: r /\ value_start c = true.
Proof.
  destruct v as [|[]|n|s|[|x l]|[|[k x] o]]; simpl;
    try (eexists _, _; split; reflexivity).
  destruct (chars_of_Z_first n) as (c & r & H1 & _ & H2). eauto.
Qed.

Lemma expect_close_value (c : ascii) (v : json) (rest : chars) :
  (c = "]" \/ c = "}") -> expect c (print v ++ rest) = None.
Proof.
  destruct (print_first v) as (a & r & Ha & Hs). rewrite Ha. simpl app.
  destruct (value_start_facts a (r ++ rest) Hs) as (_ & H1 & H2).
  intros [->| ->]; assumption.
Qed.

Lemma parse_value_array (f : nat) (r : chars) :
  parse_value (S f) ("[" :: r) =
  match expect "]" r with
  | Some r' => Some (JArr [], r')
  | None =>
      match parse_value f r with
      | Some (x, r1) =>
          match parse_array_tail f r1 with
          | Some (xs, r2) => Some (JArr (x :: xs), r2)
          | None => None
          end
      | None => None
      end
  end.
Proof. reflexivity. Qed.

Lemma parse_value_object (f : nat) (r : chars) :
  parse_value (S f) ("{" :: r) =
  match expect "}" r with
  | Some r' => Some (JObj [], r')
  | None =>
      match parse_member f r with
      | Some (kv, r1) =>
          match parse_object_tail f r1 with
          | Some (kvs, r2) => Some (JObj (obj_extend [] (kv :: kvs)), r2)
          | None => None
          end
      | None => None
      end
  end.
Proof. reflexivity. Qed.

Lemma parse_array_tail_comma (f : nat) (r : chars) :
  parse_array_tail (S f) ("," :: r) =
  match parse_value f r with
  | Some (x, r1) =>
      match parse_array_tail f r1 with
      | Some (xs, r2) => Some (x :: xs, r2)
      | None => None
      end
  | None => None
  end.
Proof. reflexivity. Qed.

Lemma parse_member_quote (f : nat) (r : chars) :
  parse_member (S f) (dquote :: r) =
  match parse_string r with
  | Some (k, r1) =>
      match expect ":" r1 with
      | Some r2 =>
          match parse_value f r2 with
          | Some (x, r3) => Some ((str k, x), r3)
          | None => None
          end
      | None => None
      end
  | None => None
  end.
Proof. reflexivity. Qed.

Lemma parse_object_tail_comma (f : nat) (r : chars) :
  parse_object_tail (S f) ("," :: r) =
  match parse_member f r with
  | Some (kv, r1) =>
      match parse_object_tail f r1 with
      | Some (kvs, r2) => Some (kv :: kvs, r2)
      | None => None
      end
  | None => None
  end.
Proof. reflexivity. Qed.

Lemma str_unstr (s : string) : str (unstr s) = s.
Proof. apply string_of_list_ascii_of_string. Qed.

Lemma unstr_str (l : chars) : unstr (str l) = l.
Proof. apply list_ascii_of_string_of_list_ascii. Qed.

Lemma parse_member_print (f : nat) (k : string) (x : json) (rest : chars) :
  (forall fuel rest', size x <= fuel -> delim_ok rest' = true ->
     parse_value fuel (print x ++ rest') = Some (x, rest')) ->
  size x <= f -> delim_ok rest = true ->
  parse_member (S f) (quote k ++ ":" :: print x ++ rest)
  = Some ((k, x), rest).
Proof.
  intros IH Hsz Hd. unfold quote. simpl app.
  rewrite parse_member_quote.
  rewrite <- app_assoc. simpl app.
  rewrite parse_string_quote.
  change (expect ":" (":" :: print x ++ rest)) with (Some (print x ++ rest)).
  cbv beta iota.
  rewrite IH by assumption. now rewrite str_unstr.
Qed.

Lemma member_text_assoc (q x t rest : chars) :
  (q ++ ":" :: x ++ t) ++ rest = q ++ ":" :: x ++ t ++ rest.
Proof. rewrite <- app_assoc. simpl. now rewrite <- app_assoc. Qed.

Lemma arr_tail_delim (l : list json) (rest : chars) :
  delim_ok (arr_tail l ++ rest) = true.
Proof. destruct l; reflexivity. Qed.

Lemma obj_tail_delim (o : list (string * json)) (rest : chars) :
  delim_ok (obj_tail o ++ rest) = true.
Proof. destruct o as [|[k x] o]; reflexivity. Qed.

Lemma elems_roundtrip_all (l : list json) :
  Forall roundtrip_at l -> elems_roundtrip l.
Proof.
  unfold elems_roundtrip.
  induction 1 as [|x l Hx Hl IH]; intros Hwf fuel rest Hsz.
  - destruct fuel; [simpl in Hsz; lia|reflexivity].
  - destruct Hwf as [Hwx Hwl].
    change (size_elems (x :: l)) with (size x + size_elems l) in Hsz.
    pose proof (size_pos x).
    pose proof (size_elems_pos l).
    destruct fuel as [|f]; [lia|].
    change (arr_tail (x :: l)) with ("," :: print x ++ arr_tail l).
    simpl app. rewrite parse_array_tail_comma, <- app_assoc.
    rewrite (Hx Hwx) by (try lia; apply arr_tail_delim).
    rewrite (IH Hwl) by lia. reflexivity.
Qed.

Lemma members_roundtrip_all (o : list (string * json)) :
  Forall (fun kv => roundtrip_at (snd kv)) o -> members_roundtrip o.
Proof.
  unfold members_roundtrip.
  induction 1 as [|[k x] o Hx Ho IH]; intros Hwf fuel rest Hsz.
  - destruct fuel; [simpl in Hsz; lia|reflexivity].
  - destruct Hwf as [Hwx Hwo]. simpl in Hx.
    change (size_members ((k, x) :: o))
      with (S (size x) + size_members o) in Hsz.
    pose proof (size_members_pos o).
    destruct fuel as [|f]; [lia|].
    change (obj_tail ((k, x) :: o))
      with ("," :: quote k ++ ":" :: print x ++ obj_tail o).
    rewrite <- app_comm_cons, parse_object_tail_comma, member_text_assoc.
    destruct f as [|f]; [lia|].
    rewrite parse_member_print;
      [|exact (Hx Hwx)|lia|apply obj_tail_delim].
    rewrite (IH Hwo) by lia. reflexivity.
Qed.

(** Parsing the printed form of a well-formed value, followed by a
    delimiter or nothing, gives the value back and leaves the rest. *)
Lemma parse_value_print (v : json) : roundtrip_at v.
Proof.
  apply (json_rect' roundtrip_at (Forall roundtrip_at)
           (Forall (fun kv => roundtrip_at (snd kv)))); try (now constructor).
  - intros _ [|f] rest Hsz Hd; [simpl in Hsz; lia|]. reflexivity.
  - intros b _ [|f] rest Hsz Hd; [simpl in Hsz; lia|].
    destruct b; reflexivity.
  - intros n _ [|f] rest Hsz Hd; [simpl in Hsz; lia|].
    simpl print.
    destruct (chars_of_Z_first n) as (c & r & Hc & Hn & _).
    rewrite Hc. simpl app. rewrite (number_start_dispatch _ _ _ Hn).
    change (c :: r ++ rest) with ((c :: r) ++ rest). rewrite <- Hc.
    now apply parse_number_print.
  - intros s _ [|f] rest Hsz Hd; [simpl in Hsz; lia|].
    simpl print. unfold quote. simpl app. rewrite <- app_assoc. simpl app.
    change (parse_value (S f) (dquote :: ?t)) with
      (match parse_string t with
       | Some (k, r') => Some (JStr (str k), r')
       | None => None
       end).
    rewrite parse_string_quote. now rewrite str_unstr.
  - intros [|x l] IH Hwf fuel rest Hsz Hd.
    + destruct fuel; [simpl in Hsz; lia|reflexivity].
    + change (print (JArr (x :: l))) with ("[" :: print x ++ arr_tail l).
      change (size (JArr (x :: l))) with (S (size x + size_elems l)) in Hsz.
      destruct fuel as [|f]; [lia|].
      destruct Hwf as [Hwx Hwl].
      pose proof (size_pos x).
      pose proof (size_elems_pos l).
      simpl app. rewrite parse_value_array.
      rewrite <- app_assoc.
      rewrite expect_close_value by auto.
      inversion IH as [|? ? Hx Hl]; subst.
      rewrite (Hx Hwx) by (try lia; apply arr_tail_delim).
      rewrite (elems_roundtrip_all l Hl Hwl) by lia. reflexivity.
  - intros [|[k x] o] IH Hwf fuel rest Hsz Hd.
    + destruct fuel; [simpl in Hsz; lia|reflexivity].
    + change (print (JObj ((k, x) :: o)))
        with ("{" :: quote k ++ ":" :: print x ++ obj_tail o).
      change (size (JObj ((k, x) :: o)))
        with (S (S (size x) + size_members o)) in Hsz.
      destruct fuel as [|f]; [lia|].
      destruct Hwf as [Hkeys [Hwx Hwo]].
      pose proof (size_members_pos o).
      rewrite <- app_comm_cons, parse_value_object, member_text_assoc.
      replace (expect "}" (quote k ++ ":" :: print x ++ obj_tail o ++ rest))
        with (@None chars) by reflexivity.
      inversion IH as [|? ? Hx Ho]; subst. simpl in Hx.
      destruct f as [|f]; [lia|].
      rewrite parse_member_print;
        [|exact (Hx Hwx)|lia|apply obj_tail_delim].
      rewrite (members_roundtrip_all o Ho Hwo) by lia.
      rewrite (ObjFacts.obj_extend_fresh [] ((k, x) :: o) Hkeys).
      reflexivity.
Qed.

Lemma size_le_length (v : json) : size v <= length (print v).
Proof.
  apply (json_rect' (fun v => size v <= length (print v))
           (fun l => size_elems l + length l <= length (arr_tail l))
           (fun o => size_members o + length o <= length (obj_tail o))).
  - simpl; lia.
  - intros []; simpl; lia.
  - intros n. destruct (chars_of_Z_first n) as (c & r & Hc & _).
    simpl. rewrite Hc. simpl; lia.
  - intros s. simpl. lia.
  - intros [|x l] H; [simpl; lia|].
    change (print (JArr (x :: l))) with ("[" :: print x ++ arr_tail l).
    change (size (JArr (x :: l))) with (S (size x + size_elems l)).
    change (size_elems (x :: l)) with (size x + size_elems l) in H.
    change (arr_tail (x :: l)) with ("," :: print x ++ arr_tail l) in H.
    simpl length in *. rewrite length_app in *. lia.
  - intros [|[k x] o] H; [simpl; lia|].
    change (print (JObj ((k, x) :: o)))
      with ("{" :: quote k ++ ":" :: print x ++ obj_tail o).
    change (size (JObj ((k, x) :: o)))
      with (S (S (size x) + size_members o)).
    change (size_members ((k, x) :: o))
      with (S (size x) + size_members o) in H.
    change (obj_tail ((k, x) :: o))
      with ("," :: quote k ++ ":" :: print x ++ obj_tail o) in H.
    unfold quote in *.
    repeat (simpl length in *; rewrite ?length_app in * ). lia.
  - simpl; lia.
  - intros x r Hx Hr.
    change (size_elems (x :: r)) with (size x + size_elems r).
    change (arr_tail (x :: r)) with ("," :: print x ++ arr_tail r).
    simpl length. rewrite length_app. lia.
  - simpl; lia.
  - intros k x r Hx Hr.
    change (size_members ((k, x) :: r)) with (S (size x) + size_members r).
    change (obj_tail ((k, x) :: r))
      with ("," :: quote k ++ ":" :: print x ++ obj_tail r).
    unfold quote. repeat (simpl length; rewrite ?length_app). lia.
Qed.

(** [JSON.parse(JSON.stringify(v))] is [v] for every well-formed [v]. *)
Lemma parse_stringify (v : json) : wf v -> parse (stringify v) = Ok v.
Proof.
  intros Hwf. unfold parse, stringify, parse_chars. rewrite unstr_str.
  pose proof (parse_value_print v Hwf (S (length (print v))) []) as H.
  rewrite app_nil_r in H. rewrite H; auto.
  pose proof (size_le_length v). lia.
Qed.

End JsonFacts.

(** ** JSON.parse inverts the indented JSON.stringify *)

Module JsonIndentFacts.

Import Json JsonSpec JsonIndentSpec JsonFacts.

Local Open Scope char_scope.


Lemma skip_ws_idem (s : chars) : skip_ws (skip_ws s) = skip_ws s.
Proof.
  induction s as [|c s IH]; [reflexivity|].
  cbn [skip_ws]. destruct (is_ws c) eqn:E; [exact IH|].
  cbn [skip_ws]. now rewrite E.
Qed.





Lemma expect_skip (c : ascii) (s : chars) :
  expect c (skip_ws s) = expect c s.
Proof. unfold expect. now rewrite skip_ws_idem. Qed.




















(** The indented text of a value is its own trim. *)











End JsonIndentFacts.

(** ** What JSON.parse returns is well formed *)

Module ParseFacts.

Import Json JsonSpec JsonFacts.

Lemma obj_set_keys (k : string) (v : json) (o : obj) :
  forall k', In k' (map fst (obj_set k v o)) <-> k' = k \/ In k' (map fst o).
Proof.
  induction o as [|[k0 v0] o IH]; intros k'; cbn [obj_set map fst In].
  - intuition congruence.
  - destruct (String.eqb k k0) eqn:E; cbn [map fst In].
    + apply String.eqb_eq in E. subst k0. intuition congruence.
    + rewrite IH. intuition congruence.
Qed.

Lemma obj_set_distinct (k : string) (v : json) (o : obj) :
  keys_distinct o -> keys_distinct (obj_set k v o).
Proof.
  unfold keys_distinct. induction o as [|[k0 v0] o IH]; intros H;
    cbn [obj_set map fst].
  - constructor; [intros []|constructor].
  - inversion H as [|? ? Hnot Hd]; subst.
    destruct (String.eqb k k0) eqn:E; cbn [map fst].
    + apply String.eqb_eq in E. subst k0. now constructor.
    + constructor; [|now apply IH].
      rewrite obj_set_keys. intros [->|Hin]; [|contradiction].
      now rewrite String.eqb_refl in E.
Qed.

Lemma obj_set_wf (k : string) (v : json) (o : obj) :
  wf v -> wf_members o -> wf_members (obj_set k v o).
Proof.
  intros Hv. induction o as [|[k0 v0] o IH]; intros H; cbn [obj_set].
  - split; [exact Hv|exact I].
  - destruct H as [H0 Ho]. destruct (String.eqb k k0); split; auto.
Qed.

Lemma obj_extend_wf (b a : obj) :
  keys_distinct a -> wf_members a -> wf_members b ->
  keys_distinct (obj_extend a b) /\ wf_members (obj_extend a b).
Proof.
  unfold obj_extend. revert a.
  induction b as [|[k v] b IH]; intros a Hd Ha Hb; cbn [fold_left fst snd].
  - auto.
  - destruct Hb as [Hv Hb].
    apply IH; [now apply obj_set_distinct|now apply obj_set_wf|exact Hb].
Qed.

Lemma parse_number_wf (s : chars) (v : json) (r : chars) :
  parse_number s = Some (v, r) -> wf v.
Proof.
  unfold parse_number.
  destruct (match s with
            | c :: r0 => if Ascii.eqb c "-" then (true, r0) else (false, s)
            | [] => (false, s)
            end) as [neg s1].
  destruct (lex_uint s1) as [d r0].
  intros H.
  repeat match type of H with
         | context [match ?x with _ => _ end] => destruct x
         end; try discriminate H; inversion H; exact I.
Qed.

(** What the parser returns is well formed: the objects have pairwise
    distinct keys. *)
Lemma parse_value_wf (fuel : nat) :
  (forall s v r, parse_value fuel s = Some (v, r) -> wf v)
  /\ (forall s l r, parse_array_tail fuel s = Some (l, r) -> wf_elems l)
  /\ (forall s kv r, parse_member fuel s = Some (kv, r) -> wf (snd kv))
  /\ (forall s o r, parse_object_tail fuel s = Some (o, r) -> wf_members o).
Proof.
  induction fuel as [|f (IHv & IHa & IHm & IHo)].
  { repeat split; intros; discriminate. }
  repeat split.
  - intros s v r H. cbn [parse_value] in H.
    destruct (skip_ws s) as [|c t]; [discriminate|].
    destruct (Ascii.eqb c "n").
    { destruct (starts_with_chars _ _); inversion H; exact I. }
    destruct (Ascii.eqb c "t").
    { destruct (starts_with_chars _ _); inversion H; exact I. }
    destruct (Ascii.eqb c "f").
    { destruct (starts_with_chars _ _); inversion H; exact I. }
    destruct (Ascii.eqb c dquote).
    { destruct (parse_string t) as [[k r']|]; inversion H; exact I. }
    destruct (Ascii.eqb c "[").
    { destruct (expect "]" t); [inversion H; exact I|].
      destruct (parse_value f t) as [[x r1]|] eqn:Ex; [|discriminate].
      destruct (parse_array_tail f r1) as [[xs r2]|] eqn:Exs; [|discriminate].
      inversion H; subst.
      split; [exact (IHv _ _ _ Ex)|exact (IHa _ _ _ Exs)]. }
    destruct (Ascii.eqb c "{").
    { destruct (expect "}" t); [inversion H; split; [constructor|exact I]|].
      destruct (parse_member f t) as [[kv r1]|] eqn:Ekv; [|discriminate].
      destruct (parse_object_tail f r1) as [[kvs r2]|] eqn:Ekvs;
        [|discriminate].
      inversion H; subst.
      apply (obj_extend_wf (kv :: kvs) []); [constructor|exact I|].
      destruct kv as [k x].
      split; [exact (IHm _ _ _ Ekv)|exact (IHo _ _ _ Ekvs)]. }
    destruct (is_number_start c); [|discriminate].
    exact (parse_number_wf _ _ _ H).
  - intros s l r H. cbn [parse_array_tail] in H.
    destruct (skip_ws s) as [|c t]; [discriminate|].
    destruct (Ascii.eqb c "]"); [inversion H; exact I|].
    destruct (Ascii.eqb c ","); [|discriminate].
    destruct (parse_value f t) as [[x r1]|] eqn:Ex; [|discriminate].
    destruct (parse_array_tail f r1) as [[xs r2]|] eqn:Exs; [|discriminate].
    inversion H; subst.
    split; [exact (IHv _ _ _ Ex)|exact (IHa _ _ _ Exs)].
  - intros s kv r H. cbn [parse_member] in H.
    destruct (skip_ws s) as [|c t]; [discriminate|].
    destruct (Ascii.eqb c dquote); [|discriminate].
    destruct (parse_string t) as [[k r1]|]; [|discriminate].
    destruct (expect ":" r1) as [r2|]; [|discriminate].
    destruct (parse_value f r2) as [[x r3]|] eqn:Ex; [|discriminate].
    inversion H; subst. cbn [snd]. exact (IHv _ _ _ Ex).
  - intros s o r H. cbn [parse_object_tail] in H.
    destruct (skip_ws s) as [|c t]; [discriminate|].
    destruct (Ascii.eqb c "}"); [inversion H; exact I|].
    destruct (Ascii.eqb c ","); [|discriminate].
    destruct (parse_member f t) as [[kv r1]|] eqn:Ekv; [|discriminate].
    destruct (parse_object_tail f r1) as [[kvs r2]|] eqn:Ekvs; [|discriminate].
    inversion H; subst. destruct kv as [k x].
    split; [exact (IHm _ _ _ Ekv)|exact (IHo _ _ _ Ekvs)].
Qed.

Lemma parse_wf (text : string) (v : json) : parse text = Ok v -> wf v.
Proof.
  unfold parse, parse_chars. intros H.
  destruct (parse_value _ _) as [[v' r]|] eqn:E; [|discriminate].
  destruct (skip_ws r); [|discriminate]. inversion H; subst.
  exact (proj1 (parse_value_wf _) _ _ _ E).
Qed.

End ParseFacts.

(** ** RegExp: what a match consists of *)

Module RegexFacts.

Import Regex RegexSpec.

Lemma star_sound {R : Type} (Q : ascii -> Prop) (p : chars -> bool) :
  (forall c s, p (c :: s) = true -> Q c) ->
  forall (s : chars) (k : chars -> option R) (x : R),
  star p s k = Some x ->
  exists m s', s = m ++ s' /\ Forall Q m /\ k s' = Some x.
Proof.
  intros Hp. induction s as [|c s IH]; intros k x H; cbn [star] in H.
  - exists [], []. auto.
  - destruct (p (c :: s)) eqn:E.
    + destruct (star p s k) as [y|] eqn:Es.
      * inversion H; subst y.
        destruct (IH k x Es) as (m & s' & -> & Hm & Hk).
        exists (c :: m), s'. repeat split; auto.
        constructor; eauto.
      * exists [], (c :: s). auto.
    + exists [], (c :: s). auto.
Qed.

Lemma firstn_matched (m s' : chars) :
  firstn (length (m ++ s') - length s') (m ++ s') = m.
Proof.
  rewrite length_app, Nat.add_sub.
  induction m as [|c m IH]; [reflexivity|]. cbn. now rewrite IH.
Qed.

Lemma exec_sound {R : Type} (Qm Qc : ascii -> Prop) (r : re) :
  forall (g : bool), accepts Qm Qc g r ->
  forall (s : chars) (caps : list chars)
         (k : chars -> list chars -> option R) (x : R),
  exec r s caps k = Some x ->
  exists m s' new,
    s = m ++ s' /\ Forall Qm m /\ (g = true -> Forall Qc m)
    /\ Forall (Forall Qc) new /\ k s' (caps ++ new) = Some x.
Proof.
  induction r as [|p|a IHa b IHb|a IHa|p|a IHa]; intros g Hr s caps k x H;
    cbn [exec accepts] in *.
  - exists [], s, []. rewrite app_nil_r. repeat split; auto.
  - destruct s as [|c s']; [discriminate|].
    destruct (p (c :: s')) eqn:E; [|discriminate].
    destruct (Hr c s' E) as [Hm Hc].
    exists [c], s', []. rewrite app_nil_r. repeat split; auto.
  - destruct Hr as [Ha Hb].
    destruct (IHa g Ha _ _ _ _ H) as (m1 & s1 & new1 & -> & Hm1 & Hc1 & Hn1 & H1).
    destruct (IHb g Hb _ _ _ _ H1) as (m2 & s2 & new2 & -> & Hm2 & Hc2 & Hn2 & H2).
    exists (m1 ++ m2), s2, (new1 ++ new2).
    rewrite <- !app_assoc in *. repeat split; auto.
    + apply Forall_app; auto.
    + intros Hg. apply Forall_app; auto.
    + apply Forall_app; auto.
  - destruct (exec a s caps k) as [y|] eqn:E.
    + inversion H; subst y. exact (IHa g Hr _ _ _ _ E).
    + exists [], s, []. rewrite app_nil_r. repeat split; auto.
  - destruct (star_sound (fun c => Qm c /\ (g = true -> Qc c)) p
                (fun c s0 E => Hr c s0 E) s _ x H) as (m & s' & -> & Hm & Hk).
    exists m, s', []. rewrite app_nil_r. repeat split; auto.
    + eapply Forall_impl; [|exact Hm]. now intros c [Hq _].
    + intros Hg. eapply Forall_impl; [|exact Hm]. intros c [_ Hq]. auto.
  - destruct (IHa true Hr _ _ _ _ H) as (m & s' & new & -> & Hm & Hc & Hn & Hk).
    rewrite firstn_matched, <- app_assoc in Hk.
    exists m, s', (new ++ [m]). repeat split; auto.
    apply Forall_app. split; auto.
Qed.

Lemma search_sound (Qm Qc : ascii -> Prop) (r : re) (g : bool) :
  accepts Qm Qc g r ->
  forall (s : chars) (caps : list chars),
  search r s = Some caps -> Forall (Forall Qc) caps.
Proof.
  intros Hr. induction s as [|c s IH]; intros caps H; cbn [search] in H.
  - destruct (exec r [] [] _) as [y|] eqn:E; [|discriminate].
    inversion H; subst y.
    destruct (exec_sound Qm Qc r g Hr _ _ _ _ E)
      as (m & s' & new & _ & _ & _ & Hn & Hk).
    inversion Hk; subst. exact Hn.
  - destruct (exec r (c :: s) [] _) as [y|] eqn:E.
    + inversion H; subst y.
      destruct (exec_sound Qm Qc r g Hr _ _ _ _ E)
        as (m & s' & new & _ & _ & _ & Hn & Hk).
      inversion Hk; subst. exact Hn.
    + now apply IH.
Qed.

End RegexFacts.

(** ** Decoding inverts encoding *)

Module Base64Facts.

Import Base64.

Local Open Scope char_scope.

Lemma unbase64_char (s : sextet) :
  Ascii.eqb (b64_char s) "=" = false /\ unbase64 (b64_char s) = Some s.
Proof.
  destruct s as [[[[[[] []] []] []] []] []]; split; reflexivity.
Qed.

Lemma sextets_char (s : sextet) (r : chars) :
  sextets (b64_char s :: r) = s :: sextets r.
Proof.
  destruct (unbase64_char s) as [H1 H2]. simpl. now rewrite H1, H2.
Qed.

Lemma list_ind3 {A : Type} (P : list A -> Prop) :
  P [] -> (forall a, P [a]) -> (forall a b, P [a; b]) ->
  (forall a b c r, P r -> P (a :: b :: c :: r)) ->
  forall l, P l.
Proof.
  intros H0 H1 H2 H3.
  assert (H : forall l, P l /\ (forall a, P (a :: l))
                        /\ (forall a b, P (a :: b :: l))).
  { induction l as [|x l (IH0 & IH1 & IH2)]; repeat split; auto. }
  intros l. apply H.
Qed.

Lemma decode_encode (bs : chars) : decode (encode bs) = bs.
Proof.
  unfold decode. induction bs as [|a|a b|a b c r IH] using list_ind3.
  - reflexivity.
  - destruct a as [a0 a1 a2 a3 a4 a5 a6 a7]. simpl encode.
    rewrite !sextets_char. reflexivity.
  - destruct a as [a0 a1 a2 a3 a4 a5 a6 a7].
    destruct b as [b0 b1 b2 b3 b4 b5 b6 b7]. simpl encode.
    rewrite !sextets_char. reflexivity.
  - destruct a as [a0 a1 a2 a3 a4 a5 a6 a7].
    destruct b as [b0 b1 b2 b3 b4 b5 b6 b7].
    destruct c as [c0 c1 c2 c3 c4 c5 c6 c7].
    change (encode (Ascii a0 a1 a2 a3 a4 a5 a6 a7
                    :: Ascii b0 b1 b2 b3 b4 b5 b6 b7
                    :: Ascii c0 c1 c2 c3 c4 c5 c6 c7 :: r))
      with (b64_char (a7, a6, a5, a4, a3, a2)
            :: b64_char (a1, a0, b7, b6, b5, b4)
            :: b64_char (b3, b2, b1, b0, c7, c6)
            :: b64_char (c5, c4, c3, c2, c1, c0)
            :: encode r).
    rewrite !sextets_char.
    change (bytes_of (?s1 :: ?s2 :: ?s3 :: ?s4 :: sextets (encode r)))
      with (Ascii a0 a1 a2 a3 a4 a5 a6 a7
            :: Ascii b0 b1 b2 b3 b4 b5 b6 b7
            :: Ascii c0 c1 c2 c3 c4 c5 c6 c7 :: bytes_of (sextets (encode r))).
    now rewrite IH.
Qed.

Lemma atob_btoa (text : string) : atob (btoa text) = text.
Proof.
  unfold atob, btoa.
  now rewrite JsonFacts.unstr_str, decode_encode, JsonFacts.str_unstr.
Qed.

End Base64Facts.

(* ================================================================== *)
(** * Properties of the API node                                       *)
(* ================================================================== *)

Module SuperiorApisFacts.

Import SuperiorApisSpec.

Import SuperiorApis.

(** ** Field ordering *)

Lemma required_first_sign (x y : ResourceMapperField) :
  (0 <? required_first x y)%Z = negb (is_required x) && is_required y.
Proof.
  unfold required_first, is_required.
  destruct (truthy (required x)), (truthy (required y)); reflexivity.
Qed.

Lemma sort_insert_partition (x : ResourceMapperField)
  (req opt : list ResourceMapperField) :
  Forall (fun f => is_required f = true) req ->
  Forall (fun f => is_required f = false) opt ->
  sort_insert required_first x (req ++ opt)
  = if is_required x then x :: req ++ opt else req ++ x :: opt.
Proof.
  intros Hreq Hopt.
  induction Hreq as [|y req Hy Hreq IH]; simpl.
  - destruct Hopt as [|y opt Hy Hopt]; simpl.
    + now destruct (is_required x).
    + rewrite required_first_sign, Hy.
      now destruct (is_required x).
  - rewrite required_first_sign, Hy.
    destruct (is_required x) eqn:Hx; simpl; auto.
    now rewrite IH.
Qed.

Lemma array_sort_required_first (l : list ResourceMapperField) :
  array_sort required_first l = required_then_optional l.
Proof.
  unfold required_then_optional.
  induction l as [|x l IH]; simpl; auto.
  rewrite IH, sort_insert_partition.
  - destruct (is_required x); reflexivity.
  - apply Forall_forall. intros f Hf. apply filter_In in Hf. tauto.
  - apply Forall_forall. intros f Hf. apply filter_In in Hf.
    destruct Hf as [_ Hf]. now destruct (is_required f).
Qed.

(** C7. Both field derivations return the declared fields with every
    required field before every non-required one, the fields of equal
    requiredness in their declared order: the result of the sort is the
    required fields in declaration order followed by the others in
    declaration order, whatever the order of the declarations. *)
Theorem fields_required_first (scenario method apiSelection : string) :
  getParametersFields scenario method apiSelection
  = List.filter is_required (declared_parameters scenario method apiSelection)
    ++ List.filter (fun f => negb (is_required f))
         (declared_parameters scenario method apiSelection)
  /\
  getBodyFields scenario method apiSelection
  = List.filter is_required (declared_body scenario method apiSelection)
    ++ List.filter (fun f => negb (is_required f))
         (declared_body scenario method apiSelection).
Proof.
  unfold getParametersFields, getBodyFields, declared_parameters,
    declared_body.
  split.
  - destruct (_ && _ && _); [|reflexivity].
    destruct (parameters_fields_unsorted apiSelection method);
      [apply array_sort_required_first|reflexivity].
  - destruct (_ && _ && _); [|reflexivity].
    destruct (body_fields_unsorted apiSelection method);
      [apply array_sort_required_first|reflexivity].
Qed.

Example parameters_fields_sample :
  map id (getParametersFields "no_use_scenario" "GET" sample_selection)
  = ["query_city"; "header_key"; "query_units"; "header_X-Trace"]
  /\ map id (getBodyFields "no_use_scenario" "POST" sample_selection)
     = ["body_city"; "body_days"; "body_note"].
Proof. split; vm_compute; reflexivity. Qed.

(** ** The descriptor cache *)

Lemma length_append (a b : string) :
  String.length (a +:+ b) = String.length a + String.length b.
Proof. induction a as [|c a IH]; simpl; auto. Qed.

Lemma cacheKey_time_distinct (token : string) :
  cacheKey token <> cacheTimeKey token.
Proof.
  unfold cacheTimeKey. intros H.
  apply (f_equal String.length) in H. rewrite length_append in H.
  simpl in H. lia.
Qed.

Lemma cache_valid_after_fetch (data : gmap string json) (token : string)
  (response : json) (now1 now2 : Z) :
  cache_valid (<[cacheTimeKey token := JNum now1]>
                 (<[cacheKey token := response]> data)) token now2
  = truthy response && negb (Z.eqb now1 0)
    && (now2 - now1 <? CACHE_DURATION)%Z.
Proof.
  unfold cache_valid.
  rewrite lookup_insert_eq.
  rewrite lookup_insert_ne by (apply not_eq_sym, cacheKey_time_distinct).
  rewrite lookup_insert_eq. reflexivity.
Qed.

(** C4 (amended). The entry of a token is kept under the key built from
    the first 20 characters of the token.  When a call has to fetch and
    the upstream responds with a truthy value at a non-zero time, a
    second call less than 5 minutes after it issues no upstream request
    and returns the cached response; a call 5 minutes or more after the
    cached fetch issues a second upstream request and overwrites the
    entry and its timestamp. *)
Theorem cache_one_fetch_per_window (http1 http2 http3 : Http)
  (data : gmap string json) (token : string) (now1 now2 now3 : Z)
  (response response3 : json) :
  cache_valid data token now1 = false ->
  http1 (plugin_list_request token) = Ok response ->
  truthy response = true ->
  now1 <> 0%Z ->
  (now2 - now1 < CACHE_DURATION)%Z ->
  (CACHE_DURATION <= now3 - now1)%Z ->
  http3 (plugin_list_request token) = Ok response3 ->
  let first := getPluginListCached http1 data token now1 in
  let second := getPluginListCached http2 (co_data first) token now2 in
  let third := getPluginListCached http3 (co_data first) token now3 in
  co_requests first = [plugin_list_request token]
  /\ co_data first !! ("plugins_list_" +:+ substring_to 20 token)
     = Some response
  /\ co_data first !! ("plugins_list_" +:+ substring_to 20 token
                       +:+ "_timestamp") = Some (JNum now1)
  /\ co_requests second = []
  /\ co_result second = Ok (Some response)
  /\ co_data second = co_data first
  /\ co_requests third = [plugin_list_request token]
  /\ co_result third = Ok (Some response3)
  /\ co_data third !! ("plugins_list_" +:+ substring_to 20 token)
     = Some response3
  /\ co_data third !! ("plugins_list_" +:+ substring_to 20 token
                       +:+ "_timestamp") = Some (JNum now3).
Proof.
  intros Hmiss Hup Htruthy Hnow Hin Hout Hup3 first.
  change ("plugins_list_" +:+ substring_to 20 token) with (cacheKey token).
  change (cacheKey token +:+ "_timestamp") with (cacheTimeKey token).
  assert (Hfirst : first =
            {| co_result := Ok (Some response);
               co_data := <[cacheTimeKey token := JNum now1]>
                            (<[cacheKey token := response]> data);
               co_requests := [plugin_list_request token] |}).
  { unfold first, getPluginListCached. now rewrite Hmiss, Hup. }
  clearbody first. subst first. cbn [co_data co_requests co_result].
  unfold getPluginListCached.
  rewrite !cache_valid_after_fetch, Htruthy.
  assert (Hz : Z.eqb now1 0 = false) by now apply Z.eqb_neq.
  rewrite Hz.
  assert (H2 : (now2 - now1 <? CACHE_DURATION)%Z = true)
    by now apply Z.ltb_lt.
  assert (H3 : (now3 - now1 <? CACHE_DURATION)%Z = false)
    by now apply Z.ltb_ge.
  rewrite H2, H3, Hup3.
  cbn [co_data co_requests co_result andb negb].
  pose proof (cacheKey_time_distinct token) as Hne.
  repeat split.
  - rewrite lookup_insert_ne by now apply not_eq_sym.
    apply lookup_insert_eq.
  - apply lookup_insert_eq.
  - f_equal. rewrite lookup_insert_ne by now apply not_eq_sym.
    now rewrite lookup_insert_eq.
  - rewrite lookup_insert_ne by now apply not_eq_sym.
    apply lookup_insert_eq.
  - apply lookup_insert_eq.
Qed.

Lemma cache_one_fetch_per_window_witness :
  let http : Http := fun _ => Ok catalog_response in
  let first := getPluginListCached http ∅ "token-0123456789abcdefghij" 1000 in
  let second :=
    getPluginListCached http (co_data first) "token-0123456789abcdefghij"
      200000 in
  let third :=
    getPluginListCached http (co_data first) "token-0123456789abcdefghij"
      301000 in
  co_requests first = [plugin_list_request "token-0123456789abcdefghij"]
  /\ co_data first !! "plugins_list_token-0123456789abcd" = Some catalog_response
  /\ co_data first !! "plugins_list_token-0123456789abcd_timestamp"
     = Some (JNum 1000)
  /\ co_requests second = []
  /\ co_result second = Ok (Some catalog_response)
  /\ co_data second = co_data first
  /\ co_requests third = [plugin_list_request "token-0123456789abcdefghij"]
  /\ co_result third = Ok (Some catalog_response)
  /\ co_data third !! "plugins_list_token-0123456789abcd"
     = Some catalog_response
  /\ co_data third !! "plugins_list_token-0123456789abcd_timestamp"
     = Some (JNum 301000).
Proof.
  apply (cache_one_fetch_per_window
           (fun _ => Ok catalog_response) (fun _ => Ok catalog_response)
           (fun _ => Ok catalog_response) ∅ "token-0123456789abcdefghij"
           1000 200000 301000 catalog_response catalog_response);
    try reflexivity; unfold CACHE_DURATION; lia.
Defined.

(** C4 as stated fails when the upstream answers with a falsy value
    ([null] here) or when the first call fails: the second call within
    5 minutes fetches again, two upstream requests in all. *)
Lemma cache_refetches_without_valid_entry :
  (let http : Http := fun _ => Ok JNull in
   let calls := two_calls http http ∅ "t1" 1000 2000 in
   length (co_requests (fst calls) ++ co_requests (snd calls)) = 2
   /\ co_result (fst calls) = Ok (Some JNull))
  /\
  (let down : Http := fun _ => Err (RequestError "ECONNRESET") in
   let up : Http := fun _ => Ok catalog_response in
   let calls := two_calls down up ∅ "t1" 1000 2000 in
   length (co_requests (fst calls) ++ co_requests (snd calls)) = 2).
Proof. split; [split|]; vm_compute; reflexivity. Qed.

(** ** The descriptor codec *)

Lemma wf_defined (k : string) (v : jsval) :
  wf_val v -> JsonSpec.wf_members (defined k v).
Proof. destruct v; simpl; auto. Qed.

Lemma wf_members_app (a b : obj) :
  JsonSpec.wf_members a -> JsonSpec.wf_members b ->
  JsonSpec.wf_members (a ++ b).
Proof.
  induction a as [|[k x] a IH]; simpl; auto.
  intros [Hx Ha] Hb. split; auto.
Qed.

Lemma pluginData_props_wf (d : PluginData) :
  serializable d -> JsonSpec.wf (JObj (pluginData_props d)).
Proof.
  intros (H1 & H2 & H3 & H4 & H5).
  change (keys_distinct (pluginData_props d)
          /\ JsonSpec.wf_members (pluginData_props d)).
  split.
  - unfold keys_distinct, pluginData_props.
    destruct d as [[i|] [ii|] [v|] [n|] [f|]]; simpl;
      repeat (constructor; [simpl; intuition discriminate|]); constructor.
  - unfold pluginData_props.
    repeat apply wf_members_app; now apply wf_defined.
Qed.

Lemma wf_obj_get (k : string) (o : obj) :
  JsonSpec.wf_members o -> wf_val (obj_get k o).
Proof.
  induction o as [|[k' x] o IH]; simpl; auto.
  intros [Hx Ho]. destruct (String.eqb k k'); auto.
Qed.

Lemma wf_indexed_get (k : string) (l : list json) (i : nat) :
  JsonSpec.wf_elems l -> wf_val (obj_get k (indexed i l)).
Proof.
  revert i. induction l as [|x l IH]; intros i; simpl; auto.
  intros [Hx Hl]. destruct (String.eqb k (string_of_nat i)); auto.
Qed.

(** The parts of a well-formed value are well-formed. *)
Lemma wf_get_prop_opt (v : jsval) (k : string) :
  wf_val v -> wf_val (get_prop_opt v k).
Proof.
  destruct v as [[| b | n | s | l | o]|]; simpl; auto.
  - intros _. destruct (String.eqb k "length"); simpl; auto.
    apply wf_indexed_get.
    induction (unstr s) as [|c r IH]; simpl; auto.
  - intros Hl. destruct (String.eqb k "length"); simpl; auto.
    now apply wf_indexed_get.
  - intros [_ Ho]. now apply wf_obj_get.
Qed.

Lemma wf_or_else (v : jsval) (d : json) :
  wf_val v -> JsonSpec.wf d -> JsonSpec.wf (or_else v d).
Proof.
  destruct v as [j|]; simpl; auto.
  intros Hj Hd. now destruct (truthy j).
Qed.

(** What [getApiList] encodes for a well-formed catalog entry is
    serializable. *)
Lemma pluginData_serializable (plugin : json) (interfaceId : string) :
  JsonSpec.wf plugin -> serializable (pluginData plugin interfaceId).
Proof.
  intros Hp. unfold serializable, pluginData, version; cbn [pd_id
    pd_interfaceId pd_version pd_name pd_interface].
  assert (Hv : wf_val (Some plugin)) by exact Hp.
  repeat split; try (now apply wf_get_prop_opt).
  change (JsonSpec.wf
            (or_else (get_prop_opt (Some plugin) "version")
               (or_else
                  (get_prop_opt (get_prop_opt (Some plugin) "interface")
                     "version")
                  (or_else
                     (get_prop_opt
                        (get_prop_opt
                           (get_prop_opt (Some plugin) "interface") "info")
                        "version") (JStr ""))))).
  repeat apply wf_or_else; try exact I;
    repeat apply wf_get_prop_opt; exact Hv.
Qed.



(** ** The scenario loader *)

Lemma scenario_options_first (http : Http) (token method : string)
  (response : json) (options : list INodePropertyOptions) :
  scenario_options http token method response = Ok options ->
  exists rest, options = use_default_option :: rest.
Proof.
  unfold scenario_options. intros H.
  destruct (get_prop (Some response) "status") as [status|];
    cbn [bind] in H; [|discriminate].
  destruct (negb (is_num status 1)); cbv iota in H;
    [inversion H; eauto|].
  destruct (get_prop (Some response) "data") as [data|];
    cbn [bind] in H; [|discriminate].
  destruct (negb (truthy_val (get_prop_opt data "list"))); cbv iota in H;
    [inversion H; eauto|].
  destruct (get_prop (get_prop_opt data "list") "length") as [len|];
    cbn [bind] in H; [|discriminate].
  destruct (negb (gt_zero len)); cbv iota in H;
    [inversion H; eauto|].
  destruct (get_prop_opt data "list") as [[| | | |scenarios|]|];
    try discriminate H.
  destruct (map_result (scenario_option http token) scenarios);
    cbn [bind] in H; [|discriminate].
  inversion H. eauto.
Qed.

(** C6. Whenever the loader runs (an API and a method are selected),
    the first option it returns is "Use Default Request Body" with the
    value [no_use_scenario], whatever the outcome of the scenario-list
    call; when that call succeeds with status 1 and an empty list, the
    options are exactly that one and "No scenario templates available
    for <METHOD> method" with the value [no_scenario]; when the call
    fails they are that one and the error option. *)
Theorem scenario_list_default_first (http : Http)
  (apiSelection method token : string) :
  apiSelection <> "" -> method <> "" ->
  (exists rest,
      getScenarioList http apiSelection method token
      = {| opt_name := Some (JStr "Use Default Request Body");
           opt_value := Some (JStr "no_use_scenario") |} :: rest)
  /\ (forall request response data,
         scenario_list_call apiSelection method token = Ok request ->
         http request = Ok response ->
         get_prop (Some response) "status" = Ok (Some (JNum 1)) ->
         get_prop (Some response) "data" = Ok data ->
         get_prop_opt data "list" = Some (JArr []) ->
         getScenarioList http apiSelection method token
         = [ {| opt_name := Some (JStr "Use Default Request Body");
                opt_value := Some (JStr "no_use_scenario") |};
             {| opt_name :=
                  Some (JStr ("No scenario templates available for "
                              +:+ to_upper method +:+ " method"));
                opt_value := Some (JStr "no_scenario") |} ])
  /\ (forall request e,
         scenario_list_call apiSelection method token = Ok request ->
         http request = Err e ->
         getScenarioList http apiSelection method token
         = [ {| opt_name := Some (JStr "Use Default Request Body");
                opt_value := Some (JStr "no_use_scenario") |};
             {| opt_name :=
                  Some (JStr "Failed to load scenario list. Please check network connection.");
                opt_value := Some (JStr "error") |} ]).
Proof.
  intros Ha Hm. unfold getScenarioList.
  apply String.eqb_neq in Ha, Hm. rewrite Ha, Hm. simpl orb. cbv iota.
  repeat split.
  - destruct (bind (scenario_list_call apiSelection method token) _)
      as [options|e] eqn:E.
    + destruct (scenario_list_call apiSelection method token)
        as [request|]; cbn [bind] in E; try discriminate E.
      destruct (http request) as [response|]; cbn [bind] in E;
        try discriminate E.
      apply scenario_options_first in E. exact E.
    + eexists. reflexivity.
  - intros request response data Hcall Hresp Hstatus Hdata Hlist.
    rewrite Hcall. cbn [bind]. rewrite Hresp. cbn [bind].
    unfold scenario_options. rewrite Hstatus. cbn [bind].
    change (negb (is_num (Some (JNum 1)) 1)) with false. cbv iota.
    rewrite Hdata. cbn [bind]. rewrite Hlist. reflexivity.
  - intros request e Hcall Hresp.
    rewrite Hcall. cbn [bind]. rewrite Hresp. reflexivity.
Qed.

Lemma scenario_list_default_first_witness :
  getScenarioList empty_list_http sample_selection "post" "t1"
  = [ {| opt_name := Some (JStr "Use Default Request Body");
         opt_value := Some (JStr "no_use_scenario") |};
      {| opt_name := Some (JStr "No scenario templates available for POST method");
         opt_value := Some (JStr "no_scenario") |} ].
Proof.
  assert (Ha : sample_selection <> "") by (vm_compute; discriminate).
  assert (Hm : "post" <> "") by discriminate.
  destruct (scenario_list_default_first empty_list_http sample_selection
              "post" "t1" Ha Hm) as (_ & Hempty & _).
  apply (Hempty
           (scenario_list_request "t1" "post" (Some (JStr "3b52426bfe33"))
              (Some (JStr "v1")))
           (JObj [("status", JNum 1); ("data", JObj [("list", JArr [])])])
           (Some (JObj [("list", JArr [])])));
    vm_compute; reflexivity.
Defined.

Example scenario_list_two :
  getScenarioList two_scenarios_http sample_selection "POST" "t1"
  = [ use_default_option;
      {| opt_name := Some (JStr "Paris");
         opt_value := Some (JStr (Json.stringify_indent 4
                                    (JObj [("city", JStr "Paris")]))) |};
      {| opt_name := Some (JStr "Rome"); opt_value := Some (JNum 8) |} ].
Proof. vm_compute. reflexivity. Qed.

(** ** Request assembly: the headers *)

Lemma named_key_not_number (k : string) (d : Decimal.uint) :
  named_key k = true -> String.eqb k (str (chars_of_uint d)) = false.
Proof.
  destruct k as [|c k]; [discriminate|]. simpl.
  destruct (Json.digit_of_char c) eqn:E; [discriminate|]. intros _.
  destruct d; simpl; auto;
    match goal with
    | |- (if Ascii.eqb c ?x then _ else _) = false =>
        destruct (Ascii.eqb c x) eqn:Ec; auto;
        apply Ascii.eqb_eq in Ec; subst c; discriminate E
    end.
Qed.

Lemma obj_get_indexed_named {A : Type} (f : A -> json) (k : string)
  (i : nat) (l : list A) :
  named_key k = true -> obj_get k (indexed i (map f l)) = None.
Proof.
  intros Hk. revert i. induction l as [|x l IH]; intros i; simpl; auto.
  unfold string_of_nat, chars_of_nat.
  now rewrite named_key_not_number.
Qed.

Lemma own_props_named (k : string) (v : json) :
  named_key k = true ->
  obj_get k (own_props v) = match v with
                            | JObj o => obj_get k o
                            | _ => None
                            end.
Proof.
  intros Hk. destruct v; simpl; auto.
  - apply (obj_get_indexed_named (fun c => JStr (String c EmptyString))).
    assumption.
  - rewrite <- (map_id l). now apply obj_get_indexed_named.
Qed.

(** What a protected merge leaves under each key: the [token] entry of
    the target, and for any other key the source's entry if it has
    one. *)
Lemma merge_protected_get (h h' : obj) (src : json) (k : string) :
  merge_protected h src = Ok h' ->
  obj_get k h' =
  if String.eqb k "token" then obj_get k h
  else match obj_get k (own_props src) with
       | Some v => Some v
       | None => obj_get k h
       end.
Proof.
  unfold merge_protected. intros H.
  destruct (delete_prop src "token") as [stripped|] eqn:Ed;
    cbn [bind] in H; [|discriminate].
  inversion H; subst h'; clear H. rewrite ObjFacts.obj_get_spread.
  destruct (String.eqb k "token") eqn:Ek.
  - apply String.eqb_eq in Ek. subst k.
    assert (Hn : obj_get "token" (own_props stripped) = None).
    { destruct src; simpl in Ed; inversion Ed; subst;
        try reflexivity.
      - now apply own_props_named.
      - now apply own_props_named.
      - apply ObjFacts.obj_get_delete_eq. }
    now rewrite Hn.
  - apply String.eqb_neq in Ek.
    assert (Hs : obj_get k (own_props stripped) = obj_get k (own_props src)).
    { destruct src; simpl in Ed; inversion Ed; subst; try reflexivity.
      simpl. now apply ObjFacts.obj_get_delete_ne. }
    now rewrite Hs.
Qed.

Lemma merge_source_get (source : jsval) (h h' : obj) (k : string) :
  merge_source source h = Ok h' ->
  obj_get k h' =
  if String.eqb k "token" then obj_get k h
  else match source with
       | Some src =>
           match obj_get k (own_props src) with
           | Some v => Some v
           | None => obj_get k h
           end
       | None => obj_get k h
       end.
Proof.
  destruct source as [src|]; simpl.
  - apply merge_protected_get.
  - intros H. inversion H. now destruct (String.eqb k "token").
Qed.

Lemma starts_with_split (pre s : chars) :
  starts_with_chars pre s = true -> s = pre ++ skipn (length pre) s.
Proof.
  revert s. induction pre as [|a pre IH]; intros s H; simpl in *; auto.
  destruct s as [|b s]; [discriminate|].
  apply andb_true_iff in H. destruct H as [Hab Hs].
  apply Ascii.eqb_eq in Hab. subst b. simpl. f_equal. now apply IH.
Qed.

Lemma str_app (a b : chars) : str (a ++ b) = str a +:+ str b.
Proof. induction a as [|c a IH]; simpl; auto. now rewrite IH. Qed.

(** A key that starts with a prefix is the prefix followed by what
    [replace(prefix, '')] leaves. *)
Lemma remove_first_prefix (pre key : string) :
  starts_with pre key = true -> key = pre +:+ remove_first pre key.
Proof.
  unfold starts_with, remove_first. intros H.
  assert (Hr : remove_first_chars (unstr pre) (unstr key)
               = skipn (length (unstr pre)) (unstr key)).
  { destruct (unstr key); simpl; now rewrite H. }
  rewrite Hr, <- (JsonFacts.str_unstr pre) at 1.
  rewrite <- str_app, <- starts_with_split by assumption.
  now rewrite JsonFacts.str_unstr.
Qed.

(** The headers after one resource-mapped key: only the key
    [header_<k>] can change the entry [k], never the [token] entry. *)
Lemma mapped_field_get (params q q' : json) (h h' : obj) (key k : string) :
  mapped_field params (q, h) key = Ok (q', h') ->
  k <> "__proto__" ->
  obj_get k h' =
  if String.eqb k "token" then obj_get k h
  else if String.eqb key ("header_" +:+ k)
       then match get_prop (Some params) key with
            | Ok (Some v) => Some v
            | _ => obj_get k h
            end
       else obj_get k h.
Proof.
  unfold mapped_field. intros H Hproto.
  destruct (get_prop (Some params) key) as [[value|]|] eqn:Eg;
    cbn [bind] in H; try discriminate H.
  - destruct (starts_with "query_" key) eqn:Eq.
    + destruct (assign_prop q (remove_first "query_" key) value);
        cbn [bind] in H; [|discriminate]. inversion H; subst.
      destruct (String.eqb key ("header_" +:+ k)) eqn:Ek;
        [|now destruct (String.eqb k "token")].
      apply String.eqb_eq in Ek. subst key. discriminate Eq.
    + destruct (starts_with "header_" key) eqn:Eh.
      * pose proof (remove_first_prefix _ _ Eh) as Hkey.
        destruct (String.eqb (remove_first "header_" key) "token") eqn:Et;
          simpl in H; inversion H; subst; clear H.
        -- apply String.eqb_eq in Et.
           destruct (String.eqb k "token") eqn:Ekt; auto.
           destruct (String.eqb key ("header_" +:+ k)) eqn:Ek; auto.
           apply String.eqb_eq in Ek. rewrite Ek in Hkey at 1.
           apply String.eqb_neq in Ekt.
           apply (stdpp.strings.String.app_inj "header_") in Hkey.
           congruence.
        -- apply String.eqb_neq in Et.
           destruct (String.eqb k (remove_first "header_" key)) eqn:Ekr.
           ++ apply String.eqb_eq in Ekr. subst k.
              rewrite <- Hkey, String.eqb_refl.
              apply String.eqb_neq in Et. rewrite Et.
              unfold obj_assign.
              apply String.eqb_neq in Hproto. rewrite Hproto.
              apply ObjFacts.obj_get_set_eq.
           ++ apply String.eqb_neq in Ekr.
              rewrite ObjFacts.obj_get_assign_ne by assumption.
              destruct (String.eqb key ("header_" +:+ k)) eqn:Ek;
                [|now destruct (String.eqb k "token")].
              apply String.eqb_eq in Ek. rewrite Ek in Hkey at 1.
              apply (stdpp.strings.String.app_inj "header_") in Hkey.
              congruence.
      * inversion H; subst.
        destruct (String.eqb key ("header_" +:+ k)) eqn:Ek;
          [|now destruct (String.eqb k "token")].
        apply String.eqb_eq in Ek. subst key. discriminate Eh.
  - inversion H; subst.
    now destruct (String.eqb k "token"), (String.eqb key ("header_" +:+ k)).
Qed.

Lemma mapped_fold_get (params : json) (keys : list string) (k : string) :
  k <> "__proto__" ->
  forall (q q' : json) (h h' : obj),
  fold_result (mapped_field params) keys (q, h) = Ok (q', h') ->
  obj_get k h' =
  if String.eqb k "token" then obj_get k h
  else if existsb (String.eqb ("header_" +:+ k)) keys
       then match get_prop (Some params) ("header_" +:+ k) with
            | Ok (Some v) => Some v
            | _ => obj_get k h
            end
       else obj_get k h.
Proof.
  intros Hproto. induction keys as [|key keys IH]; intros q q' h h' H.
  - cbn [fold_result] in H. inversion H.
    now destruct (String.eqb k "token").
  - cbn [fold_result] in H.
    destruct (mapped_field params (q, h) key) as [[q1 h1]|] eqn:E1;
      cbn [bind] in H; [|discriminate].
    rewrite (IH _ _ _ _ H).
    rewrite (mapped_field_get _ _ _ _ _ _ k E1 Hproto).
    destruct (String.eqb k "token"); auto.
    cbn [existsb]. rewrite (String.eqb_sym ("header_" +:+ k) key).
    destruct (String.eqb key ("header_" +:+ k)) eqn:Ek; cbn [orb].
    + apply String.eqb_eq in Ek. subst key.
      destruct (existsb _ keys);
        destruct (get_prop (Some params) ("header_" +:+ k)) as [[v|]|];
        reflexivity.
    + reflexivity.
Qed.

Lemma mapped_fields_get (p : ItemParameters) (q q' : json) (h h' : obj)
  (k : string) :
  mapped_fields p q h = Ok (q', h') ->
  k <> "__proto__" ->
  obj_get k h' =
  if String.eqb k "token" then obj_get k h
  else match mapped_header p k with
       | Some v => Some v
       | None => obj_get k h
       end.
Proof.
  unfold mapped_fields, mapped_header. intros H Hproto.
  assert (Hid : obj_get k h =
                if String.eqb k "token" then obj_get k h else obj_get k h)
    by now destruct (String.eqb k "token").
  destruct (parametersFields p) as [pf|]; [|inversion H; subst; exact Hid].
  destruct pf as [| b | n | s0 | l | o] eqn:Epf;
    try (inversion H; subst; exact Hid).
  all: rewrite <- Epf in *;
    assert (Hv : get_prop_opt (Some pf) "value"
                 = match get_prop (Some pf) "value" with
                   | Ok r => r
                   | Err _ => None
                   end) by (rewrite Epf; reflexivity);
    rewrite Hv; clear Hv;
    destruct (get_prop (Some pf) "value") as [[params|]|];
    cbn [bind] in H; try discriminate H;
    try (inversion H; subst; exact Hid);
    (destruct (truthy params) eqn:Et; [|inversion H; subst; exact Hid]);
    rewrite (mapped_fold_get _ _ k Hproto _ _ _ _ H);
    destruct (String.eqb k "token"); auto.
  all: destruct (existsb (String.eqb ("header_" +:+ k))
                   (map fst (own_props params))) eqn:Ex.
  all: try (apply Bool.not_true_iff_false in Ex;
            destruct (obj_get ("header_" +:+ k) (own_props params)) eqn:Eo;
            auto; exfalso; apply Ex; apply existsb_exists;
            exists ("header_" +:+ k); split;
            [apply ObjFacts.obj_get_in; congruence|apply String.eqb_refl]).
  all: assert (Hg : get_prop (Some params) ("header_" +:+ k)
                    = Ok (obj_get ("header_" +:+ k) (own_props params)))
    by (destruct params; try discriminate Et; reflexivity);
    rewrite Hg;
    now destruct (obj_get ("header_" +:+ k) (own_props params)).
Qed.

Lemma infer_content_type_get (method : string) (pathMethods : jsval)
  (h h' : obj) (k : string) :
  infer_content_type method pathMethods h = Ok h' ->
  k <> "Content-Type" -> obj_get k h' = obj_get k h.
Proof.
  unfold infer_content_type. intros H Hk.
  destruct (is_body_method method); [|now inversion H].
  destruct (get_prop pathMethods (to_lower method)) as [methodData|];
    cbn [bind] in H; [|discriminate].
  destruct (truthy_val _); [|now inversion H].
  destruct (object_keys _) as [contentTypes|]; cbn [bind] in H;
    [|discriminate].
  destruct (negb _); [|now inversion H].
  destruct (hd_error contentTypes); [|discriminate].
  inversion H; subst. now apply ObjFacts.obj_get_assign_ne.
Qed.

Lemma assemble_steps (getCredentials : result json) (p : ItemParameters)
  (r : HttpRequest) :
  assemble getCredentials p = Ok r -> Assembled getCredentials p r.
Proof.
  unfold assemble. intros H.
  destruct (String.eqb (token p) ""); [discriminate|].
  destruct (String.eqb (apiSelection p) ""); [discriminate|].
  destruct (decode_apiSelection (apiSelection p)) as [pluginData|];
    cbn [bind] in H; [|discriminate].
  destruct (first_path pluginData) as [[firstPath pathMethods]|];
    cbn [bind] in H; [|discriminate].
  destruct (effective_method (method p) pathMethods) as [m|];
    cbn [bind] in H; [|discriminate].
  destruct getCredentials as [credentials|]; cbn [bind] in H;
    [|discriminate].
  destruct (credHeaders credentials) as [fromCredential|] eqn:Ec;
    cbn [bind] in H; [|discriminate].
  destruct (merge_source fromCredential _) as [h1|] eqn:E1;
    cbn [bind] in H; [|discriminate].
  destruct (userHeaders p) as [fromUser|] eqn:Eu;
    cbn [bind] in H; [|discriminate].
  destruct (merge_source fromUser h1) as [h2|] eqn:E2;
    cbn [bind] in H; [|discriminate].
  destruct (user_query p) as [q0|]; cbn [bind] in H; [|discriminate].
  destruct (mapped_fields p q0 h2) as [[q1 h3]|] eqn:E3;
    cbn [bind] in H; [|discriminate].
  destruct (resolve_body p) as [body|] eqn:Eb; cbn [bind] in H;
    [|discriminate].
  destruct (infer_content_type m pathMethods h3) as [h4|] eqn:E4;
    cbn [bind] in H; [|discriminate].
  inversion H; subst r; clear H.
  econstructor; cbn [hr_body hr_method hr_headers]; eauto.
Qed.

Lemma assembled_token (getCredentials : result json) (p : ItemParameters)
  (r : HttpRequest) :
  Assembled getCredentials p r ->
  obj_get "token" (hr_headers r) = Some (JStr (token p)).
Proof.
  intros [pathMethods fromCredential fromUser h1 h2 h3 q0 q1 credentials
            _ _ Hcred _ Huser Hmapped _ Hct].
  rewrite (infer_content_type_get _ _ _ _ "token" Hct) by discriminate.
  rewrite (mapped_fields_get _ _ _ _ _ "token" Hmapped) by discriminate.
  rewrite (merge_source_get _ _ _ "token" Huser).
  now rewrite (merge_source_get _ _ _ "token" Hcred).
Qed.

(** C3. Whatever the credential headers, the user-declared headers
    (key-value rows or JSON) and the resource-mapped [header_*] fields
    contain, the [token] entry of the assembled headers is the token
    parameter. *)
Theorem token_header_protected (getCredentials : result json)
  (p : ItemParameters) (r : HttpRequest) :
  assemble getCredentials p = Ok r ->
  obj_get "token" (hr_headers r) = Some (JStr (token p)).
Proof.
  intros H.
  destruct (assemble_steps _ _ _ H)
    as [pathMethods fromCredential fromUser h1 h2 h3 q0 q1 credentials
          _ _ Hcred _ Huser Hmapped _ Hct].
  rewrite (infer_content_type_get _ _ _ _ "token" Hct) by discriminate.
  rewrite (mapped_fields_get _ _ _ _ _ "token" Hmapped) by discriminate.
  rewrite (merge_source_get _ _ _ "token" Huser).
  rewrite (merge_source_get _ _ _ "token" Hcred).
  reflexivity.
Qed.

Example hostile_request_headers :
  assemble hostile_credentials hostile_item = Ok hostile_request
  /\ hr_headers hostile_request
     = [("token", JStr "t1"); ("Token", JStr "U"); ("X-Org", JStr "acme");
        ("X-Trace", JStr "7"); ("TOKEN", JStr "M"); ("key", JStr "k1");
        ("Content-Type", JStr "application/json")]
  /\ hr_url hostile_request
     = "https://superiorapis-creator.cteam.com.tw/weather"
  /\ hr_qs hostile_request = Some (JObj [("city", JStr "Paris")]).
Proof. repeat split; vm_compute; reflexivity. Qed.

Lemma token_header_protected_witness :
  obj_get "token" (hr_headers hostile_request) = Some (JStr "t1").
Proof.
  apply (token_header_protected hostile_credentials hostile_item
           hostile_request).
  vm_compute. reflexivity.
Defined.

(** Precedence for a header other than the protected ones: the
    resource mapper, then the user-declared headers, then the
    credential. *)
Lemma header_precedence (getCredentials : result json) (p : ItemParameters)
  (r : HttpRequest) (k : string) :
  assemble getCredentials p = Ok r ->
  k <> "token" -> k <> "__proto__" -> k <> "Content-Type" ->
  exists credentials fromCredential fromUser,
    getCredentials = Ok credentials
    /\ credHeaders credentials = Ok fromCredential
    /\ userHeaders p = Ok fromUser
    /\ obj_get k (hr_headers r)
       = first_of (mapped_header p k) (supplied fromUser k)
           (supplied fromCredential k).
Proof.
  intros H Ht Hp Hc.
  destruct (assemble_steps _ _ _ H)
    as [pathMethods fromCredential fromUser h1 h2 h3 q0 q1 credentials
          Hg Hsc Hcred Hsu Huser Hmapped _ Hct].
  exists credentials, fromCredential, fromUser. repeat split; auto.
  rewrite (infer_content_type_get _ _ _ _ k Hct) by assumption.
  rewrite (mapped_fields_get _ _ _ _ _ k Hmapped) by assumption.
  rewrite (merge_source_get _ _ _ k Huser).
  rewrite (merge_source_get _ _ _ k Hcred).
  apply String.eqb_neq in Ht. rewrite Ht. simpl obj_get. rewrite Ht.
  unfold first_of, supplied.
  destruct (mapped_header p k); auto.
  destruct fromUser as [u|]; destruct fromCredential as [c|]; auto;
    try destruct (obj_get k (own_props u)); auto;
    destruct (obj_get k (own_props c)); auto.
Qed.

(** C8. The strip that protects the token matches the key [token]
    exactly: an entry whose key is another casing of it ([Token],
    [TOKEN], ...) coming from the credential headers, the user-declared
    headers or a resource-mapped [header_*] field reaches the assembled
    headers with its value, by the ordinary precedence (mapper, then
    user, then credential), beside the protected [token] entry. *)
Theorem token_case_variants_pass (getCredentials : result json)
  (p : ItemParameters) (r : HttpRequest) (k : string) :
  assemble getCredentials p = Ok r ->
  to_lower k = "token" -> k <> "token" ->
  exists credentials fromCredential fromUser,
    getCredentials = Ok credentials
    /\ credHeaders credentials = Ok fromCredential
    /\ userHeaders p = Ok fromUser
    /\ obj_get "token" (hr_headers r) = Some (JStr (token p))
    /\ obj_get k (hr_headers r)
       = first_of (mapped_header p k) (supplied fromUser k)
           (supplied fromCredential k).
Proof.
  intros H Hlow Hne.
  destruct (header_precedence getCredentials p r k H Hne)
    as (credentials & fromCredential & fromUser & H1 & H2 & H3 & H4).
  - intros ->. discriminate Hlow.
  - intros ->. discriminate Hlow.
  - exists credentials, fromCredential, fromUser.
    repeat split; auto.
    now apply (assembled_token getCredentials), assemble_steps.
Qed.

Lemma token_case_variants_pass_witness :
  exists credentials fromCredential fromUser,
    hostile_credentials = Ok credentials
    /\ credHeaders credentials = Ok fromCredential
    /\ userHeaders hostile_item = Ok fromUser
    /\ obj_get "token" (hr_headers hostile_request)
       = Some (JStr (token hostile_item))
    /\ obj_get "Token" (hr_headers hostile_request)
       = first_of (mapped_header hostile_item "Token")
           (supplied fromUser "Token") (supplied fromCredential "Token").
Proof.
  apply (token_case_variants_pass hostile_credentials hostile_item
           hostile_request "Token").
  - vm_compute. reflexivity.
  - vm_compute. reflexivity.
  - discriminate.
Defined.

(** ** Request assembly: the body *)

(** C9. With a scenario selected (a value that is neither empty nor one
    of the sentinels) and a Body JSON text that is empty, only white
    space, or [{}] once trimmed, the body step raises no parse error
    and leaves the body undefined: a request that is assembled carries
    no body (not an empty object). *)
Theorem blank_body_text_no_body (getCredentials : result json)
  (p : ItemParameters) :
  scenario p <> "" -> scenario p <> "no_use_scenario" ->
  scenario p <> "no_scenario" -> scenario p <> "error" ->
  trim (bodyJson p) = "" \/ trim (bodyJson p) = "{}" ->
  resolve_body p = Ok None
  /\ forall r, assemble getCredentials p = Ok r -> hr_body r = None.
Proof.
  intros H1 _ H3 H4 Hblank.
  assert (Hbody : resolve_body p = Ok None).
  { unfold resolve_body, reads_bodyJson, has_body_text.
    apply String.eqb_neq in H1, H3, H4. rewrite H1, H3, H4. simpl.
    destruct Hblank as [-> | ->].
    - now rewrite andb_false_r.
    - now rewrite andb_false_r. }
  split; auto.
  intros r Hr.
  destruct (assemble_steps _ _ _ Hr)
    as [? ? ? ? ? ? ? ? ? _ _ _ _ _ _ Hb _].
  rewrite Hbody in Hb. now inversion Hb.
Qed.

Lemma blank_body_text_no_body_witness :
  resolve_body blank_body_item = Ok None
  /\ forall r, assemble (Ok (JObj [])) blank_body_item = Ok r ->
               hr_body r = None.
Proof.
  apply (blank_body_text_no_body (Ok (JObj [])) blank_body_item);
    try discriminate.
  right. vm_compute. reflexivity.
Defined.

Example blank_body_request :
  exists r, assemble (Ok (JObj [])) blank_body_item = Ok r
            /\ hr_method r = "POST" /\ hr_body r = None
            /\ hr_headers r = [("token", JStr "t1");
                               ("Content-Type", JStr "application/json")].
Proof. eexists. vm_compute. repeat split. Qed.

(** C1 (what the code does). With the scenario [no_use_scenario] the
    request never depends on the Request Body mapper: its [body_*]
    fields are not read, and the body is the parsed Body JSON text when
    that text is not blank.  At the item of the example, whose mapper
    holds [body_city] and [body_days], the request has no body with an
    empty Body JSON text, and the body [{"a":1}] with that text. *)
Theorem no_use_scenario_body_source :
  (forall getCredentials fields p,
      assemble getCredentials (with_bodyFields fields p)
      = assemble getCredentials p)
  /\ scenario hostile_item = "no_use_scenario"
  /\ supplied (get_prop_opt (bodyFields hostile_item) "value") "body_city"
     = Some (JStr "Paris")
  /\ hr_body hostile_request = None
  /\ (exists r,
         assemble hostile_credentials
           (with_bodyJson (Json.stringify (JObj [("a", JNum 1)]))
              hostile_item) = Ok r
         /\ hr_body r = Some (JObj [("a", JNum 1)])).
Proof.
  split; [reflexivity|].
  repeat split; try (vm_compute; reflexivity).
  eexists. split; vm_compute; reflexivity.
Qed.

(** ** The descriptor cache: tokens *)







(** ** getApiList *)

Lemma url_char_safe (c : ascii) (s : chars) :
  Regex.url_char (c :: s) = true -> url_safe c.
Proof.
  unfold Regex.url_char, url_safe. intros H.
  apply andb_true_iff in H. destruct H as [Hws Hq].
  apply Nat.eqb_eq in Hws. apply negb_true_iff in Hq.
  intros Hin. cbn [In] in Hin.
  destruct Hin as [<-|[<-|[<-|[<-|[<-|[<-|[<-|[<-|[<-|[<-|[]]]]]]]]]]];
    try discriminate Hq; discriminate Hws.
Qed.

Lemma lit_accepts (Qm Qc : ascii -> Prop) (g ignoreCase : bool) (l : ascii) :
  (forall c,
      (if ignoreCase then Ascii.eqb (upper_char c) (upper_char l)
       else Ascii.eqb c l) = true -> Qm c /\ Qc c) ->
  RegexSpec.accepts Qm Qc g (Regex.lit ignoreCase l).
Proof.
  intros H c s E. cbn in E. destruct (H c E). auto.
Qed.

Lemma text_accepts (Qm Qc : ascii -> Prop) (g ignoreCase : bool) (l : chars) :
  Forall (fun l0 => forall c,
      (if ignoreCase then Ascii.eqb (upper_char c) (upper_char l0)
       else Ascii.eqb c l0) = true -> Qm c /\ Qc c) l ->
  RegexSpec.accepts Qm Qc g (Regex.text ignoreCase l).
Proof.
  induction 1 as [|l0 l H _ IH]; cbn [Regex.text RegexSpec.accepts]; auto.
  split; [now apply lit_accepts|assumption].
Qed.

(** The letters and signs of the spec pattern, in either case. *)
Lemma spec_literal_safe (l : ascii) :
  In l (unstr "https://doc=spec") ->
  forall c, Ascii.eqb (upper_char c) (upper_char l) = true ->
            url_safe c /\ url_safe c.
Proof.
  intros Hl c E.
  assert (Hc : In c (unstr "https://doc=specHTTPSDOCE")).
  { cbn [unstr list_ascii_of_string In] in Hl.
    repeat (destruct Hl as [<-|Hl]; [
      destruct c as [[] [] [] [] [] [] [] []]; try discriminate E;
      cbn; tauto|]).
    contradiction. }
  assert (Hs : url_safe c).
  { unfold url_safe. intros Hbad.
    cbn [unstr list_ascii_of_string In] in Hc.
    repeat (destruct Hc as [<-|Hc];
            [cbn [In] in Hbad; intuition discriminate|]).
    contradiction. }
  auto.
Qed.

Lemma spec_pattern_accepts :
  RegexSpec.accepts url_safe url_safe false spec_pattern.
Proof.
  assert (Htext : forall l, incl l (unstr "https://doc=spec") ->
            RegexSpec.accepts url_safe url_safe true (Regex.text true l)).
  { intros l Hl. apply text_accepts. apply Forall_forall.
    intros l0 Hin. apply spec_literal_safe. now apply Hl. }
  assert (Hclass : forall c s, Regex.url_char (c :: s) = true ->
            url_safe c /\ (true = true -> url_safe c)).
  { intros c s E. pose proof (url_char_safe c s E). auto. }
  unfold spec_pattern. cbn [RegexSpec.accepts].
  refine (conj _ (conj _ (conj _ (conj Hclass (conj _ Hclass))))).
  - apply Htext. intros x Hx. cbn in *. tauto.
  - apply lit_accepts. apply spec_literal_safe. cbn. tauto.
  - apply Htext. intros x Hx. cbn in *. tauto.
  - apply Htext. intros x Hx. cbn in *. tauto.
Qed.

Lemma interface_pattern_accepts :
  RegexSpec.accepts (fun _ => True) (fun c => Regex.alnum c = true) false
    interface_pattern.
Proof.
  unfold interface_pattern.
  change (RegexSpec.accepts (fun _ => True) (fun c => Regex.alnum c = true)
            false (Regex.text false (unstr "/interface/"))
          /\ (forall c s, Regex.alnum_char (c :: s) = true ->
                True /\ (true = true -> Regex.alnum c = true))
          /\ (forall c s, Regex.alnum_char (c :: s) = true ->
                True /\ (true = true -> Regex.alnum c = true))).
  refine (conj _ (conj _ _)).
  - generalize (unstr "/interface/"). intros l.
    induction l as [|l0 l IH]; cbn [Regex.text RegexSpec.accepts]; auto.
    split; [|exact IH]. intros c s _. split; [exact I|discriminate].
  - intros c s E. auto.
  - intros c s E. auto.
Qed.

(** The specification link holds no quote, angle bracket or ASCII white
    space, and the interface id holds letters and digits only. *)
Lemma spec_link_characters (description : string) :
  Forall url_safe (unstr (fst (spec_link description)))
  /\ Forall (fun c => Regex.alnum c = true)
       (unstr (snd (spec_link description))).
Proof.
  unfold spec_link.
  destruct (Regex.search spec_pattern (unstr description))
    as [[|specUrl others]|] eqn:E; cbn [fst snd];
    try (split; constructor).
  pose proof (RegexFacts.search_sound _ _ _ _ spec_pattern_accepts _ _ E)
    as Hurl.
  inversion Hurl as [|? ? Hsafe _]; subst.
  rewrite JsonFacts.unstr_str. split; [exact Hsafe|].
  destruct (Regex.search interface_pattern specUrl)
    as [[|interfaceId others']|] eqn:Ei; try constructor.
  pose proof (RegexFacts.search_sound _ _ _ _ interface_pattern_accepts _ _ Ei)
    as Hid.
  inversion Hid as [|? ? Halnum _]; subst.
  now rewrite JsonFacts.unstr_str.
Qed.


Lemma decode_encodedData (d : PluginData) :
  serializable d ->
  decode_apiSelection (encodedData d) = Ok (JObj (pluginData_props d)).
Proof.
  intros H. unfold decode_apiSelection, encodedData.
  rewrite Base64Facts.atob_btoa.
  apply JsonFacts.parse_stringify. now apply pluginData_props_wf.
Qed.



Lemma get_prop_non_null (v : json) (k : string) :
  v <> JNull -> get_prop (Some v) k = Ok (get_prop_opt (Some v) k).
Proof.
  intros H. destruct v; try congruence; cbn [get_prop_opt get_prop];
    try reflexivity; destruct (String.eqb k "length"); reflexivity.
Qed.

Lemma pluginData_of_props (d : PluginData) :
  pluginData_of (JObj (pluginData_props d)) = d.
Proof.
  destruct d as [[i|] [ii|] [v|] [n|] [f|]]; reflexivity.
Qed.

Lemma api_option_inv (item : json) (o : LoadedOption) :
  api_option item = Ok o ->
  exists plugin baseDescription specUrl interfaceId,
    get_prop (Some item) "plugin" = Ok (Some plugin)
    /\ lo_name o = get_prop_opt (Some plugin) "name_for_human"
    /\ lo_value o
       = Some (JStr (encodedData (pluginData plugin interfaceId)))
    /\ lo_description o
       = Some (JStr (option_description baseDescription specUrl))
    /\ Forall url_safe (unstr specUrl)
    /\ Forall (fun c => Regex.alnum c = true) (unstr interfaceId).
Proof.
  unfold api_option. intros H.
  destruct (get_prop (Some item) "plugin") as [plugin|]; cbn [bind] in H;
    [|discriminate].
  destruct (get_prop plugin "description_for_human") as [description|];
    cbn [bind] in H; [|discriminate].
  assert (Hlink : forall link : string * string,
    (if truthy_val description
     then match description with
          | Some (JStr text) => Ok (spec_link text)
          | _ => Err (TypeError "plugin.description_for_human.match is not a function")
          end
     else Ok ("", "")) = Ok link ->
    Forall url_safe (unstr (fst link))
    /\ Forall (fun c => Regex.alnum c = true) (unstr (snd link))).
  { intros link Hl. destruct (truthy_val description).
    - destruct description as [[| | |text| |]|]; try discriminate Hl.
      inversion Hl. apply spec_link_characters.
    - inversion Hl. split; constructor. }
  destruct (if truthy_val description then _ else _) as [link|] eqn:El;
    cbn [bind] in H; [|discriminate].
  destruct (Hlink link eq_refl) as [Hu Hi].
  destruct plugin as [plugin|]; [|discriminate].
  inversion H; subst o. cbn [lo_name lo_value lo_description].
  exists plugin. eexists _, (fst link), (snd link). repeat split; auto.
Qed.


Lemma map_result_forall2 {A B : Type} (f : A -> result B) (l : list A)
  (ys : list B) :
  map_result f l = Ok ys -> Forall2 (fun x y => f x = Ok y) l ys.
Proof.
  revert ys. induction l as [|x l IH]; intros ys H; cbn [map_result] in H.
  - inversion H. constructor.
  - destruct (f x) as [y0|] eqn:E; cbn [bind] in H; [|discriminate].
    destruct (map_result f l) as [ys0|]; cbn [bind] in H; [|discriminate].
    inversion H; subst ys. constructor; auto.
Qed.

(** The options of a load, from the response of the cached call. *)
Lemma getApiList_options (http : Http) (data : gmap string json)
  (token : string) (now : Z) :
  al_options (getApiList http data token now) = []
  \/ exists response items,
       token <> ""
       /\ co_result (getPluginListCached http data token now)
          = Ok (Some response)
       /\ get_prop (Some response) "plugins" = Ok (Some (JArr items))
       /\ map_result api_option items
          = Ok (al_options (getApiList http data token now)).
Proof.
  unfold getApiList. destruct (String.eqb token "") eqn:Et; [now left|].
  apply String.eqb_neq in Et. cbn [al_options].
  destruct (co_result (getPluginListCached http data token now))
    as [[response|]|]; cbn [bind]; auto.
  destruct (get_prop (Some response) "plugins") as [plugins|] eqn:Ep;
    cbn [bind]; auto.
  destruct plugins as [[| | | |items|]|]; auto.
  destruct (map_result api_option items) as [options|] eqn:Em; auto.
  right. exists response, items. auto.
Qed.

Lemma wf_elems_in (l : list json) (x : json) :
  JsonSpec.wf_elems l -> In x l -> JsonSpec.wf x.
Proof.
  induction l as [|y l IH]; intros Hw Hin; [contradiction|].
  destruct Hw as [Hy Hl]. destruct Hin as [<-|Hin]; auto.
Qed.

Lemma api_option_describes (item : json) (o : LoadedOption) :
  JsonSpec.wf item -> api_option item = Ok o ->
  exists plugin,
    get_prop_opt (Some item) "plugin" = Some plugin /\ describes plugin o.
Proof.
  intros Hw H.
  destruct (api_option_inv item o H)
    as (plugin & base & url & id & Hp & Hname & Hvalue & _).
  assert (Hpo : get_prop_opt (Some item) "plugin" = Some plugin).
  { destruct item; try discriminate Hp; cbn [get_prop_opt]; now rewrite Hp. }
  exists plugin. split; [exact Hpo|].
  assert (Hwp : JsonSpec.wf plugin).
  { pose proof (wf_get_prop_opt (Some item) "plugin" Hw) as Hwp.
    now rewrite Hpo in Hwp. }
  pose proof (pluginData_serializable plugin id Hwp) as Hser.
  split; [exact Hname|].
  exists (encodedData (pluginData plugin id)),
    (JObj (pluginData_props (pluginData plugin id))).
  split; [exact Hvalue|]. split; [now apply decode_encodedData|].
  rewrite pluginData_of_props. repeat split.
Qed.

(** X3. When the plugin list is an array, getApiList returns either no
    option at all (the callback threw on some entry) or one option per
    catalog entry, in order; each option carries the name of its
    plugin, and its value decodes to the id, the version, the name and
    the interface of that plugin. *)
Theorem api_options_describe_plugins (httpRequest : Http)
  (workflowStaticData : gmap string json) (token : string) (now : Z)
  (response : json) (items : list json) :
  co_result (getPluginListCached httpRequest workflowStaticData token now)
  = Ok (Some response) ->
  JsonSpec.wf response ->
  get_prop (Some response) "plugins" = Ok (Some (JArr items)) ->
  al_options (getApiList httpRequest workflowStaticData token now) = []
  \/ Forall2 (fun item o =>
                exists plugin,
                  get_prop_opt (Some item) "plugin" = Some plugin
                  /\ describes plugin o)
       items (al_options (getApiList httpRequest workflowStaticData token now)).
Proof.
  intros Hr Hw Hp.
  destruct (getApiList_options httpRequest workflowStaticData token now)
    as [He|(response' & items' & _ & Hr' & Hp' & Hm)]; [now left|].
  right. rewrite Hr in Hr'. inversion Hr'; subst response'.
  rewrite Hp in Hp'. inversion Hp'; subst items'.
  assert (Hwi : JsonSpec.wf_elems items).
  { pose proof (wf_get_prop_opt (Some response) "plugins" Hw) as Hwp.
    assert (Hpo : get_prop_opt (Some response) "plugins" = Some (JArr items))
      by (destruct response; try discriminate Hp; cbn [get_prop_opt];
          now rewrite Hp).
    rewrite Hpo in Hwp. exact Hwp. }
  apply map_result_forall2 in Hm.
  revert Hwi. clear -Hm.
  induction Hm as [|item o items options Ho _ IH]; intros Hwi; constructor.
  - destruct Hwi as [Hwitem _]. now apply api_option_describes.
  - destruct Hwi as [_ Hwi]. now apply IH.
Qed.

Lemma api_options_describe_plugins_witness :
  al_options (getApiList linked_http ∅ "t1" 1000) = []
  \/ Forall2 (fun item o =>
                exists plugin,
                  get_prop_opt (Some item) "plugin" = Some plugin
                  /\ describes plugin o)
       [JObj [("plugin", linked_plugin)]]
       (al_options (getApiList linked_http ∅ "t1" 1000)).
Proof.
  apply (api_options_describe_plugins linked_http ∅ "t1" 1000
           linked_catalog [JObj [("plugin", linked_plugin)]]).
  - vm_compute. reflexivity.
  - unfold linked_catalog, linked_plugin, sample_interface; simpl.
    unfold keys_distinct; simpl.
    repeat split;
      repeat (constructor; [simpl; intuition discriminate|]); constructor.
  - reflexivity.
Defined.



(** The option loaded from the sample catalog: the link and the id
    found in the description. *)
Example linked_option_link :
  spec_link "Docs: https://superiorapis.cteam.com.tw/interface/3b52426bfe33/?doc=spec"
  = ("https://superiorapis.cteam.com.tw/interface/3b52426bfe33/?doc=spec",
     "3b52426bfe33")
  /\ spec_link "see https://superiorapis.cteam.com.tw/docs" = ("", "")
  /\ lo_name linked_option = Some (JStr "Weather API")
  /\ (exists decoded,
        match lo_value linked_option with
        | Some (JStr value) => decode_apiSelection value = Ok decoded
        | _ => False
        end
        /\ get_prop_opt (Some decoded) "interfaceId"
           = Some (JStr "3b52426bfe33")).
Proof.
  repeat split; try (vm_compute; reflexivity).
  eexists. split; vm_compute; reflexivity.
Qed.

(** X5. Two loads of the API list with one token less than 5 minutes
    apart issue one upstream request: when the first load has to fetch
    and the upstream answers with a truthy response (at a non-zero
    time), the second load issues no request, returns the same
    options and leaves the static data as it is. *)
Theorem api_list_served_from_cache (http1 http2 : Http)
  (workflowStaticData : gmap string json) (token : string) (now1 now2 : Z)
  (response : json) :
  cache_valid workflowStaticData token now1 = false ->
  http1 (plugin_list_request token) = Ok response ->
  truthy response = true ->
  now1 <> 0%Z ->
  (now2 - now1 < CACHE_DURATION)%Z ->
  let first := getApiList http1 workflowStaticData token now1 in
  let second := getApiList http2 (al_data first) token now2 in
  al_requests second = []
  /\ al_options second = al_options first
  /\ al_data second = al_data first.
Proof.
  intros Hmiss Hup Ht Hnow Hin. cbv zeta. unfold getApiList.
  destruct (String.eqb token ""); [auto|].
  cbn [al_data al_requests al_options].
  assert (H1 : getPluginListCached http1 workflowStaticData token now1
               = {| co_result := Ok (Some response);
                    co_data := <[cacheTimeKey token := JNum now1]>
                                 (<[cacheKey token := response]>
                                    workflowStaticData);
                    co_requests := [plugin_list_request token] |}).
  { unfold getPluginListCached. now rewrite Hmiss, Hup. }
  rewrite H1. cbn [co_data co_result co_requests].
  unfold getPluginListCached.
  rewrite cache_valid_after_fetch, Ht.
  apply Z.eqb_neq in Hnow. rewrite Hnow.
  apply Z.ltb_lt in Hin. rewrite Hin.
  cbn [andb negb co_data co_result co_requests].
  rewrite lookup_insert_ne by (apply not_eq_sym, cacheKey_time_distinct).
  rewrite lookup_insert_eq. auto.
Qed.

Lemma api_list_served_from_cache_witness :
  let first := getApiList linked_http ∅ "t1" 1000 in
  let second := getApiList linked_http (al_data first) "t1" 200000 in
  al_requests second = []
  /\ al_options second = al_options first
  /\ al_data second = al_data first.
Proof.
  apply (api_list_served_from_cache linked_http linked_http ∅ "t1" 1000
           200000 linked_catalog).
  - vm_compute. reflexivity.
  - reflexivity.
  - reflexivity.
  - discriminate.
  - vm_compute. reflexivity.
Defined.

(** ** getMethods *)

Lemma map_result_cons {A B : Type} (f : A -> result B) (x : A) (l : list A)
  (y : B) (ys : list B) :
  map_result f (x :: l) = Ok (y :: ys) ->
  f x = Ok y /\ map_result f l = Ok ys.
Proof.
  cbn [map_result]. destruct (f x) as [y'|]; cbn [bind]; [|discriminate].
  destruct (map_result f l) as [ys'|]; cbn [bind]; [|discriminate].
  intros H. inversion H. auto.
Qed.



(** ** Request assembly: every step *)

Lemma assemble_derivation (getCredentials : result json) (p : ItemParameters)
  (r : HttpRequest) :
  assemble getCredentials p = Ok r -> Derivation getCredentials p r.
Proof.
  unfold assemble. intros H.
  destruct (String.eqb (token p) "") eqn:Et; [discriminate|].
  destruct (String.eqb (apiSelection p) "") eqn:Ea; [discriminate|].
  destruct (decode_apiSelection (apiSelection p)) as [pluginData|] eqn:Ed;
    cbn [bind] in H; [|discriminate].
  destruct (first_path pluginData) as [[firstPath pathMethods]|] eqn:Ef;
    cbn [bind] in H; [|discriminate].
  destruct (effective_method (method p) pathMethods) as [m|] eqn:Em;
    cbn [bind] in H; [|discriminate].
  destruct getCredentials as [credentials|]; cbn [bind] in H;
    [|discriminate].
  destruct (credHeaders credentials) as [fromCredential|] eqn:Ec;
    cbn [bind] in H; [|discriminate].
  destruct (merge_source fromCredential _) as [h1|] eqn:E1;
    cbn [bind] in H; [|discriminate].
  destruct (userHeaders p) as [fromUser|] eqn:Eu;
    cbn [bind] in H; [|discriminate].
  destruct (merge_source fromUser h1) as [h2|] eqn:E2;
    cbn [bind] in H; [|discriminate].
  destruct (user_query p) as [q0|] eqn:Eq; cbn [bind] in H; [|discriminate].
  destruct (mapped_fields p q0 h2) as [[q1 h3]|] eqn:E3;
    cbn [bind] in H; [|discriminate].
  destruct (resolve_body p) as [body|] eqn:Eb; cbn [bind] in H;
    [|discriminate].
  destruct (infer_content_type m pathMethods h3) as [h4|] eqn:E4;
    cbn [bind] in H; [|discriminate].
  inversion H; subst r; clear H.
  apply String.eqb_neq in Et. apply String.eqb_neq in Ea.
  econstructor; cbn [hr_body hr_method hr_headers hr_url hr_qs hr_timeout];
    eauto.
Qed.

(** The merged headers before the inference of the content type. *)
Lemma merged_headers_get (p : ItemParameters) (fromCredential fromUser : jsval)
  (h1 h2 h3 : obj) (q0 q1 : json) (k : string) :
  merge_source fromCredential [("token", JStr (token p))] = Ok h1 ->
  merge_source fromUser h1 = Ok h2 ->
  mapped_fields p q0 h2 = Ok (q1, h3) ->
  k <> "token" -> k <> "__proto__" ->
  obj_get k h3 = first_of (mapped_header p k) (supplied fromUser k)
                   (supplied fromCredential k).
Proof.
  intros Hcred Huser Hmapped Ht Hp.
  rewrite (mapped_fields_get _ _ _ _ _ k Hmapped) by assumption.
  rewrite (merge_source_get _ _ _ k Huser).
  rewrite (merge_source_get _ _ _ k Hcred).
  apply String.eqb_neq in Ht. rewrite Ht. simpl obj_get. rewrite Ht.
  unfold first_of, supplied.
  destruct (mapped_header p k); auto.
  destruct fromUser as [u|]; destruct fromCredential as [c|]; auto;
    try destruct (obj_get k (own_props u)); auto;
    destruct (obj_get k (own_props c)); auto.
Qed.

(** X7. For every header other than [token] and [Content-Type] (and
    the key [__proto__]), the value in the assembled request is the one
    the resource mapper supplies under [header_<name>], else the one
    the user-declared headers supply, else the one the credential
    headers supply, else none. *)
Theorem header_sources_precedence (getCredentials : result json)
  (p : ItemParameters) (r : HttpRequest) (k : string) :
  assemble getCredentials p = Ok r ->
  k <> "token" -> k <> "__proto__" -> k <> "Content-Type" ->
  exists credentials fromCredential fromUser,
    getCredentials = Ok credentials
    /\ credHeaders credentials = Ok fromCredential
    /\ userHeaders p = Ok fromUser
    /\ obj_get k (hr_headers r)
       = first_of (mapped_header p k) (supplied fromUser k)
           (supplied fromCredential k).
Proof.
  intros H Ht Hp Hc.
  destruct (assemble_derivation _ _ _ H)
    as [pd fp pm fromCredential fromUser h1 h2 h3 q0 q1 credentials
          _ _ _ _ _ _ Hg Hsc Hcred Hsu Huser _ Hmapped _ _ Hct _].
  exists credentials, fromCredential, fromUser. repeat split; auto.
  rewrite (infer_content_type_get _ _ _ _ k Hct) by assumption.
  eapply merged_headers_get; eauto.
Qed.

Lemma header_sources_precedence_witness :
  exists credentials fromCredential fromUser,
    hostile_credentials = Ok credentials
    /\ credHeaders credentials = Ok fromCredential
    /\ userHeaders hostile_item = Ok fromUser
    /\ obj_get "X-Org" (hr_headers hostile_request)
       = first_of (mapped_header hostile_item "X-Org")
           (supplied fromUser "X-Org") (supplied fromCredential "X-Org").
Proof.
  apply (header_sources_precedence hostile_credentials hostile_item
           hostile_request "X-Org").
  - vm_compute. reflexivity.
  - discriminate.
  - discriminate.
  - discriminate.
Defined.




(** X9. For POST, PUT and PATCH, when no source supplies a truthy
    [Content-Type] and the operation of the effective method declares
    a request body content, the [Content-Type] of the request is
    inferred from the first declared content type: [multipart/form-data],
    [application/json] or [application/x-www-form-urlencoded] when the
    declared type contains one of them (tried in this order), else the
    declared type itself. *)
Theorem content_type_inferred (getCredentials : result json)
  (p : ItemParameters) (r : HttpRequest) (credentials pluginData : json)
  (fromCredential fromUser pathMethods methodData : jsval)
  (firstPath : option string) (content : json) (declared : string)
  (others : list string) :
  assemble getCredentials p = Ok r ->
  is_body_method (hr_method r) = true ->
  getCredentials = Ok credentials ->
  credHeaders credentials = Ok fromCredential ->
  userHeaders p = Ok fromUser ->
  truthy_val (first_of (mapped_header p "Content-Type")
                (supplied fromUser "Content-Type")
                (supplied fromCredential "Content-Type")) = false ->
  decode_apiSelection (apiSelection p) = Ok pluginData ->
  first_path pluginData = Ok (firstPath, pathMethods) ->
  get_prop pathMethods (to_lower (hr_method r)) = Ok methodData ->
  get_prop_opt (get_prop_opt methodData "requestBody") "content"
  = Some content ->
  object_keys (Some content) = Ok (declared :: others) ->
  obj_get "Content-Type" (hr_headers r)
  = Some (JStr (content_type_for declared)).
Proof.
  intros H Hm Hg Hc Hu Hfalsy Hd Hf Hmd Hcontent Hkeys.
  destruct (assemble_derivation _ _ _ H)
    as [pd fp pm fromCredential' fromUser' h1 h2 h3 q0 q1 credentials'
          _ _ Hd' Hf' _ _ Hg' Hsc Hcred Hsu Huser _ Hmapped _ _ Hct _].
  rewrite Hg in Hg'. inversion Hg'; subst credentials'.
  rewrite Hc in Hsc. inversion Hsc; subst fromCredential'.
  rewrite Hu in Hsu. inversion Hsu; subst fromUser'.
  rewrite Hd in Hd'. inversion Hd'; subst pd.
  rewrite Hf in Hf'. inversion Hf'; subst fp pm.
  assert (Hh3 : obj_get "Content-Type" h3
                = first_of (mapped_header p "Content-Type")
                    (supplied fromUser "Content-Type")
                    (supplied fromCredential "Content-Type"))
    by (eapply merged_headers_get; eauto; discriminate).
  unfold infer_content_type in Hct.
  rewrite Hm, Hmd in Hct. cbn [bind] in Hct.
  rewrite Hcontent in Hct.
  assert (Hcont : truthy_val (Some content) = true).
  { destruct content; try reflexivity; simpl in Hkeys; try discriminate;
      try (inversion Hkeys; fail).
    destruct s; simpl in Hkeys; [inversion Hkeys|reflexivity]. }
  rewrite Hcont, Hkeys in Hct. cbn [bind] in Hct.
  rewrite Hh3, Hfalsy in Hct. cbn [negb hd_error] in Hct.
  inversion Hct. unfold obj_assign. simpl String.eqb.
  apply ObjFacts.obj_get_set_eq.
Qed.

Lemma content_type_inferred_witness :
  obj_get "Content-Type" (hr_headers hostile_request)
  = Some (JStr (content_type_for "application/json")).
Proof.
  refine (content_type_inferred hostile_credentials hostile_item
            hostile_request _ _ _ _ _ _ _ _ "application/json" []
            _ _ eq_refl eq_refl eq_refl _ _ _ _ _ _).
  - vm_compute. reflexivity.
  - reflexivity.
  - vm_compute. reflexivity.
  - vm_compute. reflexivity.
  - vm_compute. reflexivity.
  - vm_compute. reflexivity.
  - vm_compute. reflexivity.
  - vm_compute. reflexivity.
Defined.

(** ** Request assembly: the query parameters *)

Lemma mapped_field_query (params : json) (q : obj) (q' : json) (h h' : obj)
  (key k : string) :
  mapped_field params (JObj q, h) key = Ok (q', h') ->
  k <> "__proto__" ->
  exists qo, q' = JObj qo
    /\ obj_get k qo =
       if String.eqb key ("query_" +:+ k)
       then match get_prop (Some params) key with
            | Ok (Some v) => Some v
            | _ => obj_get k q
            end
       else obj_get k q.
Proof.
  unfold mapped_field. intros H Hproto.
  destruct (get_prop (Some params) key) as [[value|]|] eqn:Eg;
    cbn [bind] in H; try discriminate H.
  - destruct (starts_with "query_" key) eqn:Eq.
    + pose proof (remove_first_prefix _ _ Eq) as Hkey.
      cbn [assign_prop bind] in H. inversion H; subst; clear H.
      eexists; split; [reflexivity|].
      destruct (String.eqb k (remove_first "query_" key)) eqn:Ekr.
      * apply String.eqb_eq in Ekr. subst k.
        rewrite <- Hkey, String.eqb_refl.
        unfold obj_assign. apply String.eqb_neq in Hproto. rewrite Hproto.
        apply ObjFacts.obj_get_set_eq.
      * apply String.eqb_neq in Ekr.
        rewrite ObjFacts.obj_get_assign_ne by assumption.
        destruct (String.eqb key ("query_" +:+ k)) eqn:Ek; auto.
        apply String.eqb_eq in Ek. rewrite Ek in Hkey at 1.
        apply (stdpp.strings.String.app_inj "query_") in Hkey.
        congruence.
    + assert (Hne : String.eqb key ("query_" +:+ k) = false).
      { apply String.eqb_neq. intros ->. discriminate Eq. }
      rewrite Hne.
      destruct (starts_with "header_" key);
        [destruct (negb _)|]; inversion H; subst; eauto.
  - inversion H; subst. exists q. split; auto.
    now destruct (String.eqb key ("query_" +:+ k)).
Qed.

Lemma mapped_fold_query (params : json) (keys : list string) (k : string) :
  k <> "__proto__" ->
  forall (q : obj) (q' : json) (h h' : obj),
  fold_result (mapped_field params) keys (JObj q, h) = Ok (q', h') ->
  exists qo, q' = JObj qo
    /\ obj_get k qo =
       if existsb (String.eqb ("query_" +:+ k)) keys
       then match get_prop (Some params) ("query_" +:+ k) with
            | Ok (Some v) => Some v
            | _ => obj_get k q
            end
       else obj_get k q.
Proof.
  intros Hproto. induction keys as [|key keys IH]; intros q q' h h' H.
  - cbn [fold_result] in H. inversion H. eauto.
  - cbn [fold_result] in H.
    destruct (mapped_field params (JObj q, h) key) as [[q1 h1]|] eqn:E1;
      cbn [bind] in H; [|discriminate].
    destruct (mapped_field_query _ _ _ _ _ _ k E1 Hproto) as (qo & -> & Hqo).
    destruct (IH _ _ _ _ H) as (qo' & -> & Hqo').
    exists qo'. split; [reflexivity|]. rewrite Hqo', Hqo.
    cbn [existsb]. rewrite (String.eqb_sym ("query_" +:+ k) key).
    destruct (String.eqb key ("query_" +:+ k)) eqn:Ek; cbn [orb].
    + apply String.eqb_eq in Ek. subst key.
      destruct (existsb _ keys);
        destruct (get_prop (Some params) ("query_" +:+ k)) as [[v|]|];
        reflexivity.
    + reflexivity.
Qed.

Lemma mapped_fields_query (p : ItemParameters) (q : obj) (q' : json)
  (h h' : obj) (k : string) :
  mapped_fields p (JObj q) h = Ok (q', h') ->
  k <> "__proto__" ->
  exists qo, q' = JObj qo
    /\ obj_get k qo = match mapped_query p k with
                      | Some v => Some v
                      | None => obj_get k q
                      end.
Proof.
  unfold mapped_fields, mapped_query. intros H Hproto.
  destruct (parametersFields p) as [pf|]; [|inversion H; subst; eauto].
  destruct pf as [| b | n | s0 | l | o] eqn:Epf;
    try (inversion H; subst; eauto; fail).
  all: rewrite <- Epf in *;
    assert (Hv : get_prop_opt (Some pf) "value"
                 = match get_prop (Some pf) "value" with
                   | Ok r => r
                   | Err _ => None
                   end) by (rewrite Epf; reflexivity);
    rewrite Hv; clear Hv;
    destruct (get_prop (Some pf) "value") as [[params|]|];
    cbn [bind] in H; try discriminate H;
    try (inversion H; subst; eauto; fail);
    (destruct (truthy params) eqn:Et; [|inversion H; subst; eauto]);
    destruct (mapped_fold_query _ _ k Hproto _ _ _ _ H) as (qo & -> & Hqo);
    exists qo; (split; [reflexivity|]); rewrite Hqo.
  all: destruct (existsb (String.eqb ("query_" +:+ k))
                   (map fst (own_props params))) eqn:Ex.
  all: try (apply Bool.not_true_iff_false in Ex;
            destruct (obj_get ("query_" +:+ k) (own_props params)) eqn:Eo;
            auto; exfalso; apply Ex; apply existsb_exists;
            exists ("query_" +:+ k); split;
            [apply ObjFacts.obj_get_in; congruence|apply String.eqb_refl]).
  all: assert (Hg : get_prop (Some params) ("query_" +:+ k)
                    = Ok (obj_get ("query_" +:+ k) (own_props params)))
    by (destruct params; try discriminate Et; reflexivity);
    rewrite Hg;
    now destruct (obj_get ("query_" +:+ k) (own_props params)).
Qed.

(** X10. When the user-declared query parameters form an object, the
    query of the assembled request is an object in which every
    parameter (other than the key [__proto__]) has the value the
    resource mapper supplies under [query_<name>], else the value the
    user declared, else none: a mapped field overrides a declared
    parameter of the same name. *)
Theorem query_sources_precedence (getCredentials : result json)
  (p : ItemParameters) (r : HttpRequest) (declared : obj) (k : string) :
  assemble getCredentials p = Ok r ->
  user_query p = Ok (JObj declared) ->
  k <> "__proto__" ->
  exists sent,
    hr_qs r = Some (JObj sent)
    /\ obj_get k sent = match mapped_query p k with
                        | Some v => Some v
                        | None => obj_get k declared
                        end.
Proof.
  intros H Hq Hp.
  destruct (assemble_derivation _ _ _ H)
    as [pd fp pm fromCredential fromUser h1 h2 h3 q0 q1 credentials
          _ _ _ _ _ _ _ _ _ _ _ Hq0 Hmapped Hqs _ _ _].
  rewrite Hq in Hq0. inversion Hq0; subst q0.
  destruct (mapped_fields_query _ _ _ _ _ k Hmapped Hp) as (qo & -> & Hqo).
  exists qo. auto.
Qed.

Lemma query_sources_precedence_witness :
  exists sent,
    hr_qs (request_of (Ok (JObj [])) query_item) = Some (JObj sent)
    /\ obj_get "city" sent = match mapped_query query_item "city" with
                             | Some v => Some v
                             | None =>
                                 obj_get "city"
                                   [("city", JStr "Rome"); ("lang", JStr "it")]
                             end.
Proof.
  apply (query_sources_precedence (Ok (JObj [])) query_item
           (request_of (Ok (JObj [])) query_item)
           [("city", JStr "Rome"); ("lang", JStr "it")] "city").
  - vm_compute. reflexivity.
  - vm_compute. reflexivity.
  - discriminate.
Defined.

Example query_item_request :
  hr_qs (request_of (Ok (JObj [])) query_item)
  = Some (JObj [("city", JStr "Paris"); ("lang", JStr "it")]).
Proof. vm_compute. reflexivity. Qed.

(** ** Request assembly: the body and the scenario *)

(** X11. When the scenario is empty, [no_scenario] or [error], the
    Body JSON text is never read: the outcome of the assembly is the
    same for every text, malformed ones included, and an assembled
    request has no body. *)
Theorem body_text_unread_without_scenario (getCredentials : result json)
  (p : ItemParameters) (text : string) :
  scenario p = "" \/ scenario p = "no_scenario" \/ scenario p = "error" ->
  assemble getCredentials (with_bodyJson text p) = assemble getCredentials p
  /\ forall r, assemble getCredentials p = Ok r -> hr_body r = None.
Proof.
  intros Hs.
  assert (Hr : reads_bodyJson (scenario p) = false)
    by (destruct Hs as [-> | [-> | ->]]; reflexivity).
  split.
  - unfold assemble, userHeaders, user_query, mapped_fields, resolve_body,
      with_bodyJson.
    cbn [token apiSelection method baseUri sendHeaders specifyHeaders headers
         headersJson sendQuery specifyQuery queryParameters
         queryParametersJson scenario parametersFields bodyFields bodyJson].
    rewrite Hr. reflexivity.
  - intros r H.
    destruct (assemble_derivation _ _ _ H)
      as [pd fp pm fromCredential fromUser h1 h2 h3 q0 q1 credentials
            _ _ _ _ _ _ _ _ _ _ _ _ _ _ Hb _ _].
    unfold resolve_body in Hb. rewrite Hr in Hb. now inversion Hb.
Qed.

Lemma body_text_unread_without_scenario_witness :
  assemble (Ok (JObj [])) (with_bodyJson "{" (plain_item "t1" "POST" "error" ""))
  = assemble (Ok (JObj [])) (plain_item "t1" "POST" "error" "")
  /\ forall r, assemble (Ok (JObj [])) (plain_item "t1" "POST" "error" "")
               = Ok r -> hr_body r = None.
Proof.
  apply (body_text_unread_without_scenario (Ok (JObj []))
           (plain_item "t1" "POST" "error" "") "{").
  right. right. reflexivity.
Defined.




(** ** The scenario loader: one option per scenario *)

Lemma scenario_option_total (http : Http) (token : string) (scenario : json) :
  scenario <> JNull ->
  exists o, scenario_option http token scenario = Ok o
            /\ option_of_scenario http token scenario o.
Proof.
  intros Hs. unfold scenario_option, option_of_scenario.
  pose proof (get_prop_non_null scenario "scenario_name" Hs) as Hname.
  pose proof (get_prop_non_null scenario "scenario_id" Hs) as Hid.
  assert (Hfallback : exists o,
    (let* scenario_name := get_prop (Some scenario) "scenario_name" in
     let* scenario_id := get_prop (Some scenario) "scenario_id" in
     Ok {| opt_name := scenario_name; opt_value := scenario_id |}) = Ok o
    /\ opt_name o = get_prop_opt (Some scenario) "scenario_name"
    /\ opt_value o = get_prop_opt (Some scenario) "scenario_id").
  { rewrite Hname, Hid. cbn [bind]. eexists. repeat split. }
  destruct Hfallback as (fo & Hfo & Hfn & Hfv).
  destruct (scenario_with_content http token scenario) as [[o|]|e] eqn:E.
  2,3: exists fo; rewrite Hfo; auto.
  exists o. split; [reflexivity|].
  unfold scenario_with_content in E. rewrite Hid in E. cbn [bind] in E.
  destruct (http _) as [detail|] eqn:Eh; cbn [bind] in E; [|discriminate].
  destruct (get_prop (Some detail) "status") as [status|] eqn:Est;
    cbn [bind] in E; [|discriminate].
  destruct (is_num status 1); [|discriminate].
  destruct (get_prop (Some detail) "data") as [data|] eqn:Ed; cbn [bind] in E;
    [|discriminate].
  destruct (get_prop_opt data "request_content") as [content|] eqn:Ec;
    [|discriminate].
  destruct (truthy content); [|discriminate].
  rewrite Hname in E. cbn [bind] in E. inversion E; subst o. cbn [opt_name opt_value].
  split; [reflexivity|]. right. exists detail, content.
  repeat split; auto.
  assert (Hdata : get_prop_opt (Some detail) "data" = data).
  { destruct detail; try discriminate Est; cbn [get_prop_opt];
      now rewrite Ed. }
  now rewrite Hdata.
Qed.

Lemma scenario_options_each (http : Http) (token : string)
  (scenarios : list json) :
  Forall (fun s => s <> JNull) scenarios ->
  exists options,
    map_result (scenario_option http token) scenarios = Ok options
    /\ Forall2 (option_of_scenario http token) scenarios options.
Proof.
  induction 1 as [|s scenarios Hs _ (options & Hm & Ho)].
  - exists []. split; [reflexivity|constructor].
  - destruct (scenario_option_total http token s Hs) as (o & Ho1 & Ho2).
    exists (o :: options). cbn [map_result]. rewrite Ho1, Hm.
    split; [reflexivity|now constructor].
Qed.

(** X13. When the list call answers with status 1 and a non-empty
    array of scenarios, none of them [null], getScenarioList returns
    the default option followed by exactly one option per scenario, in
    order, whatever the detail calls do: each option carries the name
    of its scenario and, as value, either the scenario id or the
    request content of the detail response printed with four spaces. *)
Theorem scenario_list_one_option_per_scenario (httpRequest : Http)
  (apiSelection method token : string) (request : HttpRequest)
  (response : json) (data : jsval) (scenario : json) (scenarios : list json) :
  apiSelection <> "" -> method <> "" ->
  scenario_list_call apiSelection method token = Ok request ->
  httpRequest request = Ok response ->
  get_prop (Some response) "status" = Ok (Some (JNum 1)) ->
  get_prop (Some response) "data" = Ok data ->
  get_prop_opt data "list" = Some (JArr (scenario :: scenarios)) ->
  Forall (fun s => s <> JNull) (scenario :: scenarios) ->
  exists options,
    getScenarioList httpRequest apiSelection method token
    = use_default_option :: options
    /\ Forall2 (option_of_scenario httpRequest token)
         (scenario :: scenarios) options.
Proof.
  intros Hsel Hmethod Hcall Hresp Hstatus Hdata Hlist Hall.
  destruct (scenario_options_each httpRequest token _ Hall)
    as (options & Hm & Ho).
  exists options. split; [|assumption].
  unfold getScenarioList.
  apply String.eqb_neq in Hsel. apply String.eqb_neq in Hmethod.
  rewrite Hsel, Hmethod. cbn [orb]. rewrite Hcall. cbn [bind].
  rewrite Hresp. cbn [bind]. unfold scenario_options.
  rewrite Hstatus. cbn [bind is_num Z.eqb Pos.eqb negb].
  rewrite Hdata. cbn [bind]. rewrite Hlist.
  cbn [truthy_val truthy negb get_prop String.eqb Ascii.eqb Bool.eqb bind].
  cbn [length gt_zero]. 
  assert (Hpos : (0 <? Z.of_nat (S (length scenarios)))%Z = true)
    by (apply Z.ltb_lt; lia).
  rewrite Hpos. cbn [negb]. rewrite Hm. reflexivity.
Qed.

Lemma scenario_list_one_option_per_scenario_witness :
  exists options,
    getScenarioList two_scenarios_http sample_selection "POST" "t1"
    = use_default_option :: options
    /\ Forall2 (option_of_scenario two_scenarios_http "t1")
         [JObj [("scenario_id", JNum 7); ("scenario_name", JStr "Paris")];
          JObj [("scenario_id", JNum 8); ("scenario_name", JStr "Rome")]]
         options.
Proof.
  eapply (scenario_list_one_option_per_scenario two_scenarios_http
            sample_selection "POST" "t1").
  - vm_compute. discriminate.
  - discriminate.
  - vm_compute. reflexivity.
  - vm_compute. reflexivity.
  - vm_compute. reflexivity.
  - vm_compute. reflexivity.
  - vm_compute. reflexivity.
  - repeat constructor; discriminate.
Defined.

(** ** getBodyFields: the ids *)

Lemma chars_of_uint_inj (d d' : Decimal.uint) :
  chars_of_uint d = chars_of_uint d' -> d = d'.
Proof.
  revert d'. induction d; intros d' H; destruct d'; try discriminate H;
    try reflexivity; inversion H; f_equal; auto.
Qed.

Lemma string_of_nat_inj (n m : nat) :
  string_of_nat n = string_of_nat m -> n = m.
Proof.
  unfold string_of_nat, chars_of_nat. intros H.
  apply (f_equal unstr) in H. rewrite !JsonFacts.unstr_str in H.
  apply chars_of_uint_inj in H.
  apply (f_equal Nat.of_uint) in H.
  now rewrite !DecimalNat.Unsigned.of_to in H.
Qed.

Lemma indexed_keys {A : Type} (l : list A) (i : nat) (k : string) :
  In k (map fst (indexed i l)) -> exists j, i <= j /\ k = string_of_nat j.
Proof.
  revert i. induction l as [|x l IH]; intros i H; [contradiction|].
  cbn [indexed map fst In] in H. destruct H as [<-|H].
  - exists i. auto.
  - destruct (IH _ H) as (j & Hj & ->). exists j. split; [lia|reflexivity].
Qed.

Lemma indexed_distinct {A : Type} (l : list A) (i : nat) :
  NoDup (map fst (indexed i l)).
Proof.
  revert i. induction l as [|x l IH]; intros i; cbn [indexed map fst].
  - constructor.
  - constructor; [|apply IH].
    intros H. destruct (indexed_keys _ _ _ H) as (j & Hj & E).
    apply string_of_nat_inj in E. lia.
Qed.

Lemma own_props_distinct (v : json) :
  JsonSpec.wf v -> NoDup (map fst (own_props v)).
Proof.
  destruct v; cbn [own_props map]; intros H; try constructor.
  - apply indexed_distinct.
  - apply indexed_distinct.
  - exact (proj1 H).
Qed.

Lemma wf_get_prop (v r : jsval) (k : string) :
  wf_val v -> get_prop v k = Ok r -> wf_val r.
Proof.
  intros Hw H.
  destruct v as [v|]; [|discriminate].
  assert (Hn : v <> JNull) by (intros ->; discriminate).
  rewrite (get_prop_non_null v k Hn) in H.
  assert (E : r = get_prop_opt (Some v) k) by congruence.
  rewrite E. now apply wf_get_prop_opt.
Qed.

Lemma first_path_wf (pluginData : json) (firstPath : option string)
  (pathMethods : jsval) :
  JsonSpec.wf pluginData ->
  first_path pluginData = Ok (firstPath, pathMethods) -> wf_val pathMethods.
Proof.
  unfold first_path. intros Hw H.
  destruct (get_prop (Some pluginData) "interface") as [iface|] eqn:E1;
    cbn [bind] in H; [|discriminate].
  destruct (get_prop iface "paths") as [paths|] eqn:E2; cbn [bind] in H;
    [|discriminate].
  destruct (object_keys paths) as [keys|]; cbn [bind] in H; [|discriminate].
  destruct (get_prop paths _) as [pm|] eqn:E3; cbn [bind] in H;
    [|discriminate].
  inversion H; subst.
  eapply wf_get_prop; [|exact E3].
  eapply wf_get_prop; [|exact E2].
  eapply wf_get_prop; [|exact E1]. exact Hw.
Qed.

Lemma method_data_wf (apiSelection method : string) (methodData : jsval) :
  method_data apiSelection method = Ok methodData -> wf_val methodData.
Proof.
  unfold method_data, decode_apiSelection. intros H.
  destruct (Json.parse _) as [pd|] eqn:Ep; cbn [bind] in H; [|discriminate].
  destruct (first_path pd) as [[fp pm]|] eqn:Ef; cbn [bind] in H;
    [|discriminate].
  eapply wf_get_prop; [|exact H].
  eapply first_path_wf; [|exact Ef].
  eapply ParseFacts.parse_wf. exact Ep.
Qed.

Lemma body_field_id (properties : jsval) (required : json) (key : string)
  (f : ResourceMapperField) :
  body_field properties required key = Ok f -> id f = "body_" +:+ key.
Proof.
  unfold body_field. intros H.
  destruct (get_prop properties key) as [prop|]; cbn [bind] in H;
    [|discriminate].
  destruct (get_prop prop "description"); cbn [bind] in H; [|discriminate].
  destruct (required_includes required key); cbn [bind] in H;
    [|discriminate].
  destruct (get_prop prop "type"); cbn [bind] in H; [|discriminate].
  now inversion H.
Qed.

Lemma body_fields_ids (properties : jsval) (required : json)
  (keys : list string) (fields : list ResourceMapperField) :
  map_result (body_field properties required) keys = Ok fields ->
  map id fields = map (String.append "body_") keys.
Proof.
  revert fields. induction keys as [|k keys IH]; intros fields H;
    cbn [map_result] in H.
  - now inversion H.
  - destruct (body_field properties required k) as [f|] eqn:E;
      cbn [bind] in H; [|discriminate].
    destruct (map_result _ keys) as [fs|]; cbn [bind] in H; [|discriminate].
    inversion H; subst. cbn [map]. f_equal; [|now apply IH].
    exact (body_field_id _ _ _ _ E).
Qed.

Lemma body_fields_unsorted_distinct (apiSelection method : string)
  (fields : list ResourceMapperField) :
  body_fields_unsorted apiSelection method = Ok fields ->
  NoDup (map id fields).
Proof.
  unfold body_fields_unsorted. intros H.
  destruct (method_data apiSelection method) as [methodData|] eqn:Em;
    cbn [bind] in H; [|discriminate].
  pose proof (method_data_wf _ _ _ Em) as Hw.
  destruct (negb (truthy_val methodData)); [inversion H; constructor|].
  destruct (get_prop methodData "requestBody") as [requestBody|] eqn:E1;
    cbn [bind] in H; [|discriminate].
  destruct (negb (truthy_val requestBody)); [inversion H; constructor|].
  destruct (get_prop requestBody "content") as [content|] eqn:E2;
    cbn [bind] in H; [|discriminate].
  destruct (get_prop content "application/json") as [jsonContent|] eqn:E3;
    cbn [bind] in H; [|discriminate].
  destruct (negb (truthy_val jsonContent)); [inversion H; constructor|].
  destruct (get_prop jsonContent "schema") as [schema|] eqn:E4;
    cbn [bind] in H; [|discriminate].
  destruct (negb (truthy_val schema)); [inversion H; constructor|].
  destruct (get_prop schema "properties") as [properties|] eqn:E5;
    cbn [bind] in H; [|discriminate].
  destruct (negb (truthy_val properties)); [inversion H; constructor|].
  destruct (get_prop schema "required") as [schema_required|];
    cbn [bind] in H; [|discriminate].
  destruct (object_keys properties) as [keys|] eqn:Ek; cbn [bind] in H;
    [|discriminate].
  rewrite (body_fields_ids _ _ _ _ H).
  assert (Hwp : wf_val properties).
  { eapply wf_get_prop; [|exact E5]. eapply wf_get_prop; [|exact E4].
    eapply wf_get_prop; [|exact E3]. eapply wf_get_prop; [|exact E2].
    eapply wf_get_prop; [|exact E1]. exact Hw. }
  assert (Hkeys : NoDup keys).
  { destruct properties as [j|]; [|discriminate Ek].
    assert (E : keys = map fst (own_props j))
      by (destruct j; try discriminate Ek; now inversion Ek).
    rewrite E. now apply own_props_distinct. }
  clear -Hkeys. induction Hkeys as [|k keys Hn _ IH]; cbn [map];
    constructor; [|exact IH].
  intros Hin. apply Hn. apply in_map_iff in Hin.
  destruct Hin as (k' & E & Hin).
  apply (stdpp.strings.String.app_inj "body_") in E. now subst k'.
Qed.

Lemma NoDup_map_filter {A B : Type} (f : A -> B) (p : A -> bool)
  (l : list A) :
  NoDup (map f l) -> NoDup (map f (List.filter p l)).
Proof.
  induction l as [|x l IH]; intros H; [constructor|].
  cbn [map List.filter] in *. inversion H as [|? ? Hn Hd]; subst.
  destruct (p x); [|now apply IH]. cbn [map]. constructor; [|now apply IH].
  intros Hin. apply Hn. apply in_map_iff in Hin.
  destruct Hin as (y & Hy & Hin). apply filter_In in Hin.
  apply in_map_iff. exists y. tauto.
Qed.

Lemma NoDup_map_same {A B : Type} (f : A -> B) (l : list A) (x y : A) :
  NoDup (map f l) -> In x l -> In y l -> f x = f y -> x = y.
Proof.
  induction l as [|z l IH]; intros H Hx Hy E; [contradiction|].
  cbn [map] in H. inversion H as [|? ? Hn Hd]; subst.
  destruct Hx as [->|Hx], Hy as [->|Hy]; auto.
  - exfalso. apply Hn. rewrite E. now apply in_map.
  - exfalso. apply Hn. rewrite <- E. now apply in_map.
Qed.

Lemma NoDup_partition {A B : Type} (f : A -> B) (p : A -> bool) (l : list A) :
  NoDup (map f l) ->
  NoDup (map f (List.filter p l ++ List.filter (fun x => negb (p x)) l)).
Proof.
  intros H. rewrite map_app.
  apply List.NoDup_app; try now apply NoDup_map_filter.
  intros b H1 H2.
  apply in_map_iff in H1. destruct H1 as (x & Hx & H1).
  apply in_map_iff in H2. destruct H2 as (y & Hy & H2).
  apply filter_In in H1. apply filter_In in H2.
  destruct H1 as [H1 Px]. destruct H2 as [H2 Py].
  assert (E : x = y)
    by (apply (NoDup_map_same f l); auto; congruence).
  subst y. rewrite Px in Py. discriminate.
Qed.

(** X14. The ids of the fields that getBodyFields returns are pairwise
    distinct, for every scenario, method and selection value: they are
    [body_] followed by the keys of one object, and the sort only
    reorders them. *)
Theorem body_field_ids_distinct (scenario method apiSelection : string) :
  NoDup (map id (getBodyFields scenario method apiSelection)).
Proof.
  unfold getBodyFields.
  destruct (_ && _); [|constructor].
  destruct (body_fields_unsorted apiSelection method) as [fields|] eqn:E;
    [|constructor].
  rewrite array_sort_required_first. unfold required_then_optional.
  apply NoDup_partition. now apply body_fields_unsorted_distinct in E.
Qed.

(** ** The derived fields and what execute makes of them *)

Lemma remove_first_app (pre s : string) :
  remove_first pre (pre +:+ s) = s.
Proof.
  assert (H : starts_with pre (pre +:+ s) = true).
  { unfold starts_with. induction pre as [|c pre IH]; simpl; auto.
    now rewrite Ascii.eqb_refl. }
  apply remove_first_prefix in H.
  now apply (stdpp.strings.String.app_inj pre) in H.
Qed.

Lemma starts_with_app (pre s : string) : starts_with pre (pre +:+ s) = true.
Proof.
  unfold starts_with. induction pre as [|c pre IH]; simpl; auto.
  now rewrite Ascii.eqb_refl.
Qed.

Lemma parameter_field_id (param : json) (f : ResourceMapperField) :
  parameter_field param = Ok f ->
  exists p_in p_name,
    get_prop (Some param) "in" = Ok p_in
    /\ get_prop (Some param) "name" = Ok p_name
    /\ id f = to_str_val p_in +:+ "_" +:+ to_str_val p_name.
Proof.
  unfold parameter_field. intros H.
  destruct (get_prop (Some param) "in") as [p_in|]; cbn [bind] in H;
    [|discriminate].
  destruct (get_prop (Some param) "name") as [p_name|]; cbn [bind] in H;
    [|discriminate].
  destruct (get_prop (Some param) "required"); cbn [bind] in H;
    [|discriminate].
  destruct (get_prop (Some param) "description"); cbn [bind] in H;
    [|discriminate].
  destruct (get_prop (Some param) "schema"); cbn [bind] in H;
    [|discriminate].
  inversion H. cbn [id]. eauto.
Qed.

(** X15. The field that getParametersFields derives for a parameter
    declared [in: query] with the name [n] has the id [query_n], and
    execute, on finding a value under that id, assigns it to the query
    parameter [n] (a first [query_] inside the name stays). *)
Theorem query_field_reaches_query (param params : json)
  (f : ResourceMapperField) (name : string) (value : json)
  (queryParams headers : obj) :
  parameter_field param = Ok f ->
  get_prop (Some param) "in" = Ok (Some (JStr "query")) ->
  get_prop (Some param) "name" = Ok (Some (JStr name)) ->
  get_prop (Some params) (id f) = Ok (Some value) ->
  id f = "query_" +:+ name
  /\ mapped_field params (JObj queryParams, headers) (id f)
     = Ok (JObj (obj_assign name value queryParams), headers).
Proof.
  intros Hf Hin Hname Hv.
  destruct (parameter_field_id _ _ Hf) as (p_in & p_name & Hin' & Hname' & Hid).
  rewrite Hin in Hin'. rewrite Hname in Hname'.
  inversion Hin'; inversion Hname'; subst p_in p_name.
  change (id f = "query_" +:+ name) in Hid. split; [exact Hid|].
  unfold mapped_field. rewrite Hv. cbn [bind].
  rewrite Hid, starts_with_app, remove_first_app. reflexivity.
Qed.

Lemma query_field_reaches_query_witness :
  id (field_of city_parameter) = "query_" +:+ "city"
  /\ mapped_field (JObj [("query_city", JStr "Paris")])
       (JObj [("lang", JStr "it")], []) (id (field_of city_parameter))
     = Ok (JObj (obj_assign "city" (JStr "Paris") [("lang", JStr "it")]), []).
Proof.
  apply (query_field_reaches_query city_parameter
           (JObj [("query_city", JStr "Paris")]) (field_of city_parameter)
           "city" (JStr "Paris") [("lang", JStr "it")] []);
    vm_compute; reflexivity.
Defined.

(** X16. The field derived for a parameter declared [in: header] with
    the name [n] has the id [header_n], and execute, on finding a value
    under that id, sets the header [n] to it, except for the name
    [token]: a declared [token] header gets a field whose value is
    never sent. *)
Theorem header_field_reaches_header (param params : json)
  (f : ResourceMapperField) (name : string) (value : json)
  (queryParams : json) (headers : obj) :
  parameter_field param = Ok f ->
  get_prop (Some param) "in" = Ok (Some (JStr "header")) ->
  get_prop (Some param) "name" = Ok (Some (JStr name)) ->
  get_prop (Some params) (id f) = Ok (Some value) ->
  id f = "header_" +:+ name
  /\ mapped_field params (queryParams, headers) (id f)
     = Ok (queryParams,
           if String.eqb name "token" then headers
           else obj_assign name value headers).
Proof.
  intros Hf Hin Hname Hv.
  destruct (parameter_field_id _ _ Hf) as (p_in & p_name & Hin' & Hname' & Hid).
  rewrite Hin in Hin'. rewrite Hname in Hname'.
  inversion Hin'; inversion Hname'; subst p_in p_name.
  change (id f = "header_" +:+ name) in Hid. split; [exact Hid|].
  unfold mapped_field. rewrite Hv. cbn [bind].
  rewrite Hid.
  assert (Hq : starts_with "query_" ("header_" +:+ name) = false)
    by reflexivity.
  rewrite Hq, starts_with_app, remove_first_app.
  now destruct (String.eqb name "token").
Qed.

Lemma header_field_reaches_header_witness :
  id (field_of trace_parameter) = "header_" +:+ "X-Trace"
  /\ mapped_field (JObj [("header_X-Trace", JNum 7)])
       (JObj [], [("token", JStr "t1")]) (id (field_of trace_parameter))
     = Ok (JObj [],
           if String.eqb "X-Trace" "token" then [("token", JStr "t1")]
           else obj_assign "X-Trace" (JNum 7) [("token", JStr "t1")]).
Proof.
  apply (header_field_reaches_header trace_parameter
           (JObj [("header_X-Trace", JNum 7)]) (field_of trace_parameter)
           "X-Trace" (JNum 7) (JObj []) [("token", JStr "t1")]);
    vm_compute; reflexivity.
Defined.

(** X17. The field derived for a parameter declared [in: path] or
    [in: cookie] has an id that execute gives no meaning to: whatever
    value the resource mapper holds under it, the query parameters and
    the headers stay as they are (and the URL is not touched). *)
Theorem path_parameter_not_sent (param params : json)
  (f : ResourceMapperField) (acc : json * obj) :
  parameter_field param = Ok f ->
  get_prop (Some param) "in" = Ok (Some (JStr "path"))
  \/ get_prop (Some param) "in" = Ok (Some (JStr "cookie")) ->
  params <> JNull ->
  mapped_field params acc (id f) = Ok acc.
Proof.
  intros Hf Hin Hparams.
  destruct (parameter_field_id _ _ Hf) as (p_in & p_name & Hin' & _ & Hid).
  unfold mapped_field. destruct acc as [q h].
  assert (Hg : exists v, get_prop (Some params) (id f) = Ok v).
  { destruct params; try (eexists; reflexivity); [congruence| |];
      simpl; destruct (String.eqb (id f) "length"); eauto. }
  destruct Hg as [v Hg]. rewrite Hg. cbn [bind].
  destruct v as [v|]; [|reflexivity].
  destruct Hin as [Hin|Hin]; rewrite Hin in Hin'; inversion Hin'; subst p_in;
    rewrite Hid; reflexivity.
Qed.

Lemma path_parameter_not_sent_witness :
  mapped_field (JObj [("path_id", JNum 7)])
    (JObj [("lang", JStr "it")], [("token", JStr "t1")])
    (id (field_of id_parameter))
  = Ok (JObj [("lang", JStr "it")], [("token", JStr "t1")]).
Proof.
  apply (path_parameter_not_sent id_parameter (JObj [("path_id", JNum 7)])
           (field_of id_parameter)
           (JObj [("lang", JStr "it")], [("token", JStr "t1")])).
  - vm_compute. reflexivity.
  - left. reflexivity.
  - discriminate.
Defined.

(** ** The method in effect *)

(** X18. When no method is selected, the method of the assembled
    request is the value of the first option that getMethods offers
    for the same selection, whenever getMethods offers any. *)
Theorem default_method_is_first_option (getCredentials : result json)
  (p : ItemParameters) (r : HttpRequest) (first : LoadedOption)
  (others : list LoadedOption) :
  assemble getCredentials p = Ok r ->
  method p = "" ->
  getMethods (apiSelection p) = first :: others ->
  lo_value first = Some (JStr (hr_method r)).
Proof.
  intros H Hm Hg.
  destruct (assemble_derivation _ _ _ H)
    as [pd fp pm fromCredential fromUser h1 h2 h3 q0 q1 credentials
          _ Hsel Hd Hf He _ _ _ _ _ _ _ _ _ _ _ _].
  unfold getMethods in Hg. apply String.eqb_neq in Hsel.
  rewrite Hsel, Hd in Hg. cbn [bind] in Hg. rewrite Hf in Hg.
  cbn [bind snd] in Hg.
  unfold effective_method in He. rewrite Hm in He.
  cbn [String.eqb] in He.
  destruct (object_keys pm) as [verbs|]; cbn [bind] in *; [|discriminate].
  destruct verbs as [|verb verbs]; [discriminate|]. cbn [hd_error] in He.
  inversion He as [Hmethod].
  destruct (map_result (method_option pm) (verb :: verbs)) as [options|] eqn:E;
    [|discriminate].
  subst options. apply map_result_cons in E. destruct E as [E _].
  unfold method_option in E.
  destruct (get_prop pm verb) as [operation|]; cbn [bind] in E;
    [|discriminate].
  destruct (get_prop operation "summary"); cbn [bind] in E; [|discriminate].
  inversion E. reflexivity.
Qed.

Lemma default_method_is_first_option_witness :
  lo_value {| lo_name := Some (JStr "GET"); lo_value := Some (JStr "GET");
              lo_description := Some (JStr "Current weather") |}
  = Some (JStr (hr_method
                  (request_of (Ok (JObj [])) (plain_item "t1" "" "" "")))).
Proof.
  refine (default_method_is_first_option (Ok (JObj []))
            (plain_item "t1" "" "" "")
            (request_of (Ok (JObj [])) (plain_item "t1" "" "" ""))
            _ [ {| lo_name := Some (JStr "POST");
                   lo_value := Some (JStr "POST");
                   lo_description := Some (JStr "POST request") |} ]
            _ eq_refl _).
  - vm_compute. reflexivity.
  - vm_compute. reflexivity.
Defined.

(** ** execute: the loop over the items *)

Lemma execute_from_continue (http : Http) (creds : result json)
  (items : list ItemParameters) :
  forall (i : nat) (acc : list INodeExecutionData),
  exists out,
    execute_from http creds true i items acc = Ok (acc ++ out)
    /\ map pairedItem out = seq i (length items)
    /\ Forall2 (fun p r =>
                  json_data r =
                  match item_outcome http creds p with
                  | Ok response => wrap_response response
                  | Err e => JObj [("error", JStr (message e))]
                  end) items out.
Proof.
  induction items as [|p items IH]; intros i acc.
  - exists []. simpl. rewrite app_nil_r. repeat split. constructor.
  - cbn [execute_from]. fold (item_outcome http creds p).
    destruct (item_outcome http creds p) as [response|e] eqn:E.
    + destruct (IH (S i) (acc ++ [{| json_data := wrap_response response;
                                      pairedItem := i |}]))
        as (out & Hout & Hidx & Hrec).
      eexists (_ :: out). rewrite Hout, <- app_assoc. split; [reflexivity|].
      split; [simpl; now rewrite Hidx|].
      constructor; [now rewrite E|assumption].
    + destruct (IH (S i) (acc ++ [{| json_data :=
                                       JObj [("error", JStr (message e))];
                                      pairedItem := i |}]))
        as (out & Hout & Hidx & Hrec).
      eexists (_ :: out). rewrite Hout, <- app_assoc. split; [reflexivity|].
      split; [simpl; now rewrite Hidx|].
      constructor; [now rewrite E|assumption].
Qed.

(** X19. With continue-on-fail, execute never throws and returns
    exactly one record per input item, in order: the record of item
    [i] is paired with [i] and holds the response of its request (as
    it is when it is an object, an array or [null], else under the key
    [data]) or, when the item failed, the message of its error under
    the key [error]. *)
Theorem execute_continue_one_record_per_item (httpRequest : Http)
  (getCredentials : result json) (items : list ItemParameters) :
  exists out,
    execute httpRequest getCredentials true items = Ok out
    /\ map pairedItem out = seq 0 (length items)
    /\ Forall2 (fun p r =>
                  json_data r =
                  match item_outcome httpRequest getCredentials p with
                  | Ok response => wrap_response response
                  | Err e => JObj [("error", JStr (message e))]
                  end) items out.
Proof.
  destruct (execute_from_continue httpRequest getCredentials items 0 [])
    as (out & H & Hi & Hr).
  exists out. auto.
Qed.

Lemma execute_from_failure (http : Http) (creds : result json)
  (p : ItemParameters) (after : list ItemParameters) (e : error)
  (before : list ItemParameters) :
  Forall (fun q => exists response, item_outcome http creds q = Ok response)
    before ->
  item_outcome http creds p = Err e ->
  forall i acc,
    execute_from http creds false i (before ++ p :: after) acc = Err e.
Proof.
  intros Hb Hp. induction Hb as [|q before [response Hq] _ IH]; intros i acc.
  - cbn [app execute_from]. fold (item_outcome http creds p).
    now rewrite Hp.
  - cbn [app execute_from]. fold (item_outcome http creds q).
    rewrite Hq. apply IH.
Qed.

(** X20. Without continue-on-fail, execute stops at the first item
    that fails: it throws the error of that item (wrapped by the node
    into its API error), returns nothing of the items before it and
    does not look at the items after it. *)
Theorem execute_stops_at_first_failure (httpRequest : Http)
  (getCredentials : result json) (before : list ItemParameters)
  (p : ItemParameters) (after : list ItemParameters) (e : error) :
  Forall (fun q => exists response,
              item_outcome httpRequest getCredentials q = Ok response)
    before ->
  item_outcome httpRequest getCredentials p = Err e ->
  execute httpRequest getCredentials false (before ++ p :: after) = Err e.
Proof. intros Hb Hp. now apply execute_from_failure. Qed.

Lemma execute_stops_at_first_failure_witness :
  execute (fun _ => Ok JNull) (Ok (JObj [])) false
    ([plain_item "t1" "GET" "" ""]
     ++ plain_item "" "GET" "" "" :: [plain_item "t1" "GET" "" ""])
  = Err (NodeOperationError "Token is required").
Proof.
  apply (execute_stops_at_first_failure (fun _ => Ok JNull) (Ok (JObj []))
           [plain_item "t1" "GET" "" ""] (plain_item "" "GET" "" "")
           [plain_item "t1" "GET" "" ""]
           (NodeOperationError "Token is required")).
  - constructor; [|constructor]. exists JNull. vm_compute. reflexivity.
  - reflexivity.
Defined.

End SuperiorApisFacts.

(* ================================================================== *)
(** * Properties of the MCP node                                       *)
(* ================================================================== *)

Module SuperiorApisMcpFacts.

Import SuperiorApisMcpSpec.

Import SuperiorApisMcp.

(** ** The SSE accumulation loop *)




Section Accumulation.

(** The configured timeout, in milliseconds. *)
Variable timeout : Z.

(** The timeout is armed by the response callback, not before. *)
Remark timer_armed_by_response :
  timer initial = None /\ timer (step timeout initial Response) = Some timeout.
Proof. split; reflexivity. Qed.





End Accumulation.


(** A JSON-RPC response resolves at once with the one message; a stream
    that stalls without a terminal marker is resolved by the timeout
    with what was accumulated; the end of the stream flushes the
    buffered event. *)
Example sse_runs :
  settled (run 60000 initial
             [Response;
              Data (data_event ok_response)])
  = Some (Ok [ok_response])
  /\ settled (run 60000 initial
                [Response; Data (data_event (JObj [("n", JNum 1)]));
                 Data ("data: " +:+ Json.stringify (JObj [("n", JNum 2)]) +:+ nl)])
     = None
  /\ settled (run 60000 initial
                [Response; Data (data_event (JObj [("n", JNum 1)]));
                 Data ("data: " +:+ Json.stringify (JObj [("n", JNum 2)]) +:+ nl); TimerFired])
     = Some (Ok [JObj [("n", JNum 1)]])
  /\ settled (run 60000 initial
                [Response; Data (data_event (JObj [("n", JNum 1)]));
                 Data ("data: " +:+ Json.stringify (JObj [("n", JNum 2)]) +:+ nl); End])
     = Some (Ok [JObj [("n", JNum 1)]; JObj [("n", JNum 2)]])
  /\ settled (run 60000 initial
                [Response; Data (data_event (JObj [("n", JNum 1)])
                                 +:+ "data: [DONE]" +:+ nl +:+ nl
                                 +:+ data_event (JObj [("n", JNum 2)]))])
     = Some (Ok [JObj [("n", JNum 1)]])
  /\ settled (run 60000 initial [Response; TimerFired])
     = Some (Ok [JObj [("error", JStr "SSE timeout - no data received")]]).
Proof. repeat split; vm_compute; reflexivity. Qed.

(** ** execute: items with an unknown connection type *)




Import TextFacts.

(** ** execute: the loop over the items *)

Lemma item_output_known (host : McpHost) (p : McpParameters) (now : Z) :
  connectionType p = "sse" \/ connectionType p = "http" ->
  item_output host p now <> Ok None.
Proof.
  unfold item_output. intros Hc.
  destruct (mcpRequest p now) as [request|]; cbn [bind]; [|discriminate].
  destruct Hc as [-> | ->]; cbn [String.eqb Ascii.eqb Bool.eqb].
  - destruct (sseCredentials host) as [c|]; cbn [bind]; [|discriminate].
    destruct (handleSSERequest host _ _ _ _); cbn [bind]; discriminate.
  - destruct (httpCredentials host) as [c|]; cbn [bind]; [|discriminate].
    destruct (httpRequest host _); cbn [bind]; discriminate.
Qed.

Lemma mcp_execute_from_continue (host : McpHost) (clock : nat -> Z)
  (items : list McpParameters) :
  continueOnFail host = true ->
  Forall (fun p => connectionType p = "sse" \/ connectionType p = "http")
    items ->
  forall i acc,
  exists out,
    execute_from host clock i items acc = Ok (acc ++ out)
    /\ map mcp_pairedItem out = seq i (length items).
Proof.
  intros Hc Hitems. induction Hitems as [|p items Hp _ IH]; intros i acc.
  - exists []. simpl. now rewrite app_nil_r.
  - cbn [execute_from]. rewrite Hc.
    pose proof (item_output_known host p (clock i) Hp) as Hk.
    destruct (item_output host p (clock i)) as [[record|]|e];
      [| congruence |].
    + destruct (IH (S i) (acc ++ [{| mcp_json := record;
                                      mcp_pairedItem := i |}]))
        as (out & Hout & Hidx).
      eexists (_ :: out). rewrite Hout, <- app_assoc.
      split; [reflexivity|]. simpl. now rewrite Hidx.
    + destruct (IH (S i) (acc ++ [{| mcp_json :=
                                       JObj [("error", JStr (message e))];
                                      mcp_pairedItem := i |}]))
        as (out & Hout & Hidx).
      eexists (_ :: out). rewrite Hout, <- app_assoc.
      split; [reflexivity|]. simpl. now rewrite Hidx.
Qed.

(** X21. With continue-on-fail, and every item set to the connection
    type [sse] or [http], execute never throws and returns exactly one
    record per item, in order, each paired with the index of its item
    (a failing item leaves its error record in its place). *)
Theorem mcp_execute_continue_one_record_per_item (host : McpHost)
  (clock : nat -> Z) (items : list McpParameters) :
  continueOnFail host = true ->
  Forall (fun p => connectionType p = "sse" \/ connectionType p = "http")
    items ->
  exists out,
    execute host clock items = Ok out
    /\ map mcp_pairedItem out = seq 0 (length items).
Proof.
  intros Hc Hitems.
  destruct (mcp_execute_from_continue host clock items Hc Hitems 0 [])
    as (out & H & Hi).
  exists out. auto.
Qed.

Lemma mcp_execute_continue_one_record_per_item_witness :
  exists out,
    execute (open_host true) (fun _ => 0%Z) [sse_item; http_item] = Ok out
    /\ map mcp_pairedItem out = seq 0 (length [sse_item; http_item]).
Proof.
  apply (mcp_execute_continue_one_record_per_item (open_host true)
           (fun _ => 0%Z) [sse_item; http_item]).
  - reflexivity.
  - constructor; [left; reflexivity|].
    constructor; [right; reflexivity|]. constructor.
Defined.

(** ** The headers of the two transports *)

(** X22. In SSE mode the request is made with the URL and the timeout
    of the credentials (60000 when the timeout is 0) and with headers
    in which [Accept], [Cache-Control], [Connection] and [Content-Type]
    have the fixed values of the node, whatever the custom headers of
    the credentials say; every other header is as the custom headers
    give it. *)
Theorem sse_required_headers_override (host : McpHost) (p : McpParameters)
  (now : Z) (credentials : SseCredentials) (request : json) :
  connectionType p = "sse" ->
  mcpRequest p now = Ok request ->
  sseCredentials host = Ok credentials ->
  exists mcpHeaders,
    item_output host p now
    = (let* data := handleSSERequest host (sseUrl credentials) request
                      mcpHeaders
                      (timeout_or_default (sseTimeout credentials)) in
       Ok (Some (sse_record data)))
    /\ obj_get "Accept" mcpHeaders = Some (JStr "text/event-stream")
    /\ obj_get "Cache-Control" mcpHeaders = Some (JStr "no-cache")
    /\ obj_get "Connection" mcpHeaders = Some (JStr "keep-alive")
    /\ obj_get "Content-Type" mcpHeaders = Some (JStr "application/json")
    /\ forall k, k <> "Accept" -> k <> "Cache-Control" ->
                 k <> "Connection" -> k <> "Content-Type" ->
                 obj_get k mcpHeaders
                 = obj_get k (custom_headers (sse_headers credentials)).
Proof.
  intros Hc Hr Hcred.
  eexists. split.
  - unfold item_output. rewrite Hr, Hc, Hcred. cbn [bind String.eqb Ascii.eqb Bool.eqb].
    reflexivity.
  - unfold set_headers. cbn [fold_left fst snd].
    unfold obj_assign. cbn [String.eqb Ascii.eqb Bool.eqb].
    repeat split.
    + rewrite !ObjFacts.obj_get_set_ne by discriminate.
      apply ObjFacts.obj_get_set_eq.
    + rewrite !ObjFacts.obj_get_set_ne by discriminate.
      apply ObjFacts.obj_get_set_eq.
    + rewrite !ObjFacts.obj_get_set_ne by discriminate.
      apply ObjFacts.obj_get_set_eq.
    + apply ObjFacts.obj_get_set_eq.
    + intros k H1 H2 H3 H4.
      now rewrite !ObjFacts.obj_get_set_ne by assumption.
Qed.

Lemma sse_required_headers_override_witness :
  exists mcpHeaders,
    item_output (open_host true) sse_item 0
    = (let* data := handleSSERequest (open_host true)
                      "https://mcp.example/sse"
                      (JObj [("jsonrpc", JStr "2.0");
                             ("method", JStr "tools/list"); ("id", JNum 0)])
                      mcpHeaders (timeout_or_default 0) in
       Ok (Some (sse_record data)))
    /\ obj_get "Accept" mcpHeaders = Some (JStr "text/event-stream")
    /\ obj_get "Cache-Control" mcpHeaders = Some (JStr "no-cache")
    /\ obj_get "Connection" mcpHeaders = Some (JStr "keep-alive")
    /\ obj_get "Content-Type" mcpHeaders = Some (JStr "application/json")
    /\ forall k, k <> "Accept" -> k <> "Cache-Control" ->
                 k <> "Connection" -> k <> "Content-Type" ->
                 obj_get k mcpHeaders
                 = obj_get k (custom_headers
                                ("Accept=text/html" +:+ nl +:+ "X-Org=acme")).
Proof.
  apply (sse_required_headers_override (open_host true) sse_item 0
           {| sseUrl := "https://mcp.example/sse"; sseTimeout := 0;
              sse_headers := "Accept=text/html" +:+ nl +:+ "X-Org=acme" |}
           (JObj [("jsonrpc", JStr "2.0"); ("method", JStr "tools/list");
                  ("id", JNum 0)])).
  - reflexivity.
  - reflexivity.
  - reflexivity.
Defined.

(** X23. In HTTP mode the node sends one POST request to the URL of
    the credentials, with the JSON-RPC envelope as body, the timeout of
    the credentials (60000 when it is 0) and [Content-Type:
    application/json] whatever the custom headers say, every other
    header being as the custom headers give it; the record of the item
    is the response, as it is. *)
Theorem http_request_of_credentials (host : McpHost) (p : McpParameters)
  (now : Z) (credentials : HttpCredentials) (request : json) :
  connectionType p = "http" ->
  mcpRequest p now = Ok request ->
  httpCredentials host = Ok credentials ->
  exists sent,
    item_output host p now
    = (let* response := httpRequest host sent in Ok (Some response))
    /\ hr_method sent = "POST"
    /\ hr_url sent = httpStreamUrl credentials
    /\ hr_qs sent = None
    /\ hr_body sent = Some request
    /\ hr_timeout sent = Some (timeout_or_default (httpTimeout credentials))
    /\ obj_get "Content-Type" (hr_headers sent)
       = Some (JStr "application/json")
    /\ forall k, k <> "Content-Type" ->
                 obj_get k (hr_headers sent)
                 = obj_get k (custom_headers (http_headers credentials)).
Proof.
  intros Hc Hr Hcred.
  eexists. split.
  - unfold item_output. rewrite Hr, Hc, Hcred.
    cbn [bind String.eqb Ascii.eqb Bool.eqb]. reflexivity.
  - cbn [hr_method hr_url hr_qs hr_body hr_timeout hr_headers].
    unfold set_headers. cbn [fold_left fst snd].
    unfold obj_assign. cbn [String.eqb Ascii.eqb Bool.eqb].
    repeat split.
    + apply ObjFacts.obj_get_set_eq.
    + intros k H. now rewrite ObjFacts.obj_get_set_ne by assumption.
Qed.

Lemma http_request_of_credentials_witness :
  exists sent,
    item_output (open_host true) http_item 0
    = (let* response := httpRequest (open_host true) sent in
       Ok (Some response))
    /\ hr_method sent = "POST"
    /\ hr_url sent = "https://mcp.example/rpc"
    /\ hr_qs sent = None
    /\ hr_body sent
       = Some (JObj [("jsonrpc", JStr "2.0");
                     ("method", JStr "resources/read"); ("id", JNum 0);
                     ("params", JObj [("uri", JStr "resource://weather")])])
    /\ hr_timeout sent = Some (timeout_or_default 0)
    /\ obj_get "Content-Type" (hr_headers sent)
       = Some (JStr "application/json")
    /\ forall k, k <> "Content-Type" ->
                 obj_get k (hr_headers sent)
                 = obj_get k (custom_headers
                                ("Content-Type=text/plain" +:+ nl
                                 +:+ "X-Org=acme")).
Proof.
  apply (http_request_of_credentials (open_host true) http_item 0
           {| httpStreamUrl := "https://mcp.example/rpc"; httpTimeout := 0;
              http_headers := "Content-Type=text/plain" +:+ nl
                              +:+ "X-Org=acme" |}
           (JObj [("jsonrpc", JStr "2.0"); ("method", JStr "resources/read");
                  ("id", JNum 0);
                  ("params", JObj [("uri", JStr "resource://weather")])])).
  - reflexivity.
  - reflexivity.
  - reflexivity.
Defined.


(** X25. A single header line is cut at its first [=]: with a name
    that holds no [=] and no line feed, and is not blank, the line
    [name=value] gives the one header [trim name] with the value
    [trim value], so that a value may hold [=] itself. *)
Theorem custom_header_split_at_first_equals (name value : string) :
  index_of "="%char name = None ->
  index_of (byte 10) name = None ->
  index_of (byte 10) value = None ->
  trim name <> "" -> trim name <> "__proto__" ->
  custom_headers (name +:+ "=" +:+ value)
  = [(trim name, JStr (trim value))].
Proof.
  intros Heq Hn Hv Hblank Hproto. unfold custom_headers.
  assert (Hne : String.eqb (name +:+ "=" +:+ value) "" = false).
  { destruct name; reflexivity. }
  rewrite Hne. unfold split_on.
  change (unstr (str [byte 10])) with [byte 10].
  rewrite split_go_single.
  2:{ rewrite unstr_app. apply index_of_chars_none_app; [exact Hn|].
      change (unstr ("=" +:+ value)) with ("="%char :: unstr value).
      cbn [index_of_chars].
      change (Ascii.eqb "=" (byte 10)) with false. cbv iota.
      unfold index_of in Hv. now rewrite Hv. }
  cbn [rev app map fold_left]. rewrite JsonFacts.str_unstr.
  unfold header_line, index_of. rewrite unstr_app.
  change (unstr ("=" +:+ value)) with ("="%char :: unstr value).
  rewrite index_of_chars_app by exact Heq.
  destruct (unstr name) as [|c cs] eqn:En.
  { exfalso. apply Hblank.
    rewrite <- (JsonFacts.str_unstr name), En. reflexivity. }
  cbn [length].
  assert (H1 : substring_to (S (length cs)) (name +:+ "=" +:+ value) = name).
  { unfold substring_to. rewrite unstr_app, En.
    change (S (length cs)) with (length (c :: cs)).
    rewrite firstn_length_app, <- En. apply JsonFacts.str_unstr. }
  assert (H2 : substring_from (S (S (length cs))) (name +:+ "=" +:+ value)
               = value).
  { unfold substring_from. rewrite unstr_app, En.
    change (unstr ("=" +:+ value)) with ("="%char :: unstr value).
    replace (S (S (length cs))) with (length (c :: cs) + 1)
      by (simpl; lia).
    rewrite skipn_length_app. simpl. apply JsonFacts.str_unstr. }
  rewrite H1, H2.
  apply String.eqb_neq in Hblank. rewrite Hblank. cbn [negb].
  unfold obj_assign. apply String.eqb_neq in Hproto. now rewrite Hproto.
Qed.

Lemma custom_header_split_at_first_equals_witness :
  custom_headers ("Authorization" +:+ "=" +:+ " Bearer abc==")
  = [(trim "Authorization", JStr (trim " Bearer abc=="))].
Proof.
  apply (custom_header_split_at_first_equals "Authorization" " Bearer abc==").
  - reflexivity.
  - reflexivity.
  - reflexivity.
  - vm_compute. discriminate.
  - vm_compute. discriminate.
Defined.

Example authorization_header :
  custom_headers "Authorization= Bearer abc=="
  = [("Authorization", JStr "Bearer abc==")].
Proof. vm_compute. reflexivity. Qed.

(** ** handleSSERequest: the chunks of the stream *)

Lemma blank_split_match (cur r : chars) :
  blank_split cur (byte 10 :: byte 10 :: r) = rev cur :: blank_split [] r.
Proof. reflexivity. Qed.

Lemma blank_split_next (cur : chars) (c : ascii) (r : chars) :
  Ascii.eqb (byte 10) c && lf_first r = false ->
  blank_split cur (c :: r) = blank_split (c :: cur) r.
Proof.
  unfold blank_split. intros H. cbn [split_go starts_with_chars].
  destruct (Ascii.eqb (byte 10) c); cbn [andb] in *; auto.
  destruct r as [|d r]; cbn [starts_with_chars lf_first] in *; auto.
  rewrite H. reflexivity.
Qed.

Lemma blank_split_nonempty (cur s : chars) : blank_split cur s <> [].
Proof. apply split_go_nonempty. Qed.

(** Scanning a text afresh agrees with scanning its end after a
    beginning without blank line, unless a blank line sits across the
    cut. *)
Lemma blank_split_resume (cur s : chars) :
  lf_apart cur -> lf_first cur && lf_first s = false ->
  blank_split [] (rev cur ++ s) = blank_split cur s.
Proof.
  revert s. induction cur as [|a cur IH]; intros s Hcur Hcut; [reflexivity|].
  cbn [rev]. rewrite <- app_assoc. cbn [app].
  destruct Hcur as [Ha Hcur].
  rewrite IH; [|assumption|].
  - apply blank_split_next. exact Hcut.
  - cbn [lf_first]. rewrite andb_comm. exact Ha.
Qed.

Lemma blank_split_app (y : chars) (n : nat) :
  forall x cur, length x <= n ->
  lf_apart cur -> lf_first cur && lf_first (x ++ y) = false ->
  blank_split cur (x ++ y)
  = removelast (blank_split cur x)
    ++ blank_split [] (last (blank_split cur x) [] ++ y).
Proof.
  induction n as [|n IH]; intros x cur Hlen Hcur Hcut.
  - destruct x; [|simpl in Hlen; lia].
    cbn. symmetry. now apply blank_split_resume.
  - destruct x as [|c [|d r]].
    + cbn. symmetry. now apply blank_split_resume.
    + assert (Hone : blank_split cur [c] = [rev (c :: cur)]).
      { unfold blank_split. cbn.
        destruct (Ascii.eqb (byte 10) c); reflexivity. }
      rewrite Hone. cbn [removelast last app rev].
      rewrite <- app_assoc. cbn [app].
      symmetry. now apply blank_split_resume.
    + destruct (Ascii.eqb (byte 10) c && Ascii.eqb (byte 10) d) eqn:E.
      * apply andb_true_iff in E. destruct E as [Ec Ed].
        apply Ascii.eqb_eq in Ec, Ed. subst c d.
        cbn [app]. rewrite !blank_split_match.
        rewrite removelast_cons, last_cons by apply blank_split_nonempty.
        cbn [app]. f_equal. apply IH; [simpl in Hlen; lia|exact I|reflexivity].
      * cbn [app].
        rewrite (blank_split_next cur c (d :: r ++ y)) by exact E.
        rewrite (blank_split_next cur c (d :: r)) by exact E.
        apply (IH (d :: r) (c :: cur)); [simpl in *; lia| |exact E].
        split; [|assumption]. rewrite andb_comm. exact Hcut.
Qed.

Lemma split_blank_app (x y : string) :
  split_on (str [byte 10; byte 10]) (x +:+ y)
  = removelast (split_on (str [byte 10; byte 10]) x)
    ++ split_on (str [byte 10; byte 10])
         (last (split_on (str [byte 10; byte 10]) x) "" +:+ y).
Proof.
  unfold split_on. change (unstr (str [byte 10; byte 10])) with [byte 10; byte 10].
  fold (blank_split [] (unstr (x +:+ y))). fold (blank_split [] (unstr x)).
  rewrite unstr_app.
  rewrite (blank_split_app (unstr y) (length (unstr x)) (unstr x) [])
    by (auto; exact I).
  rewrite map_app. f_equal.
  - generalize (blank_split [] (unstr x)). intros l.
    induction l as [|a [|b l] IH]; auto.
    change (removelast (a :: b :: l)) with (a :: removelast (b :: l)).
    cbn [map]. rewrite IH. reflexivity.
  - f_equal. fold (blank_split [] (unstr (last (map str (blank_split [] (unstr x))) "" +:+ y))).
    f_equal. rewrite unstr_app. f_equal.
    pose proof (blank_split_nonempty [] (unstr x)) as Hne.
    revert Hne. generalize (blank_split [] (unstr x)). intros l Hne.
    induction l as [|a [|b l] IH]; [congruence| |].
    + cbn. symmetry. apply JsonFacts.unstr_str.
    + change (last (a :: b :: l) []) with (last (b :: l) []).
      cbn [map]. change (last (str a :: str b :: map str l) "")
        with (last (str b :: map str l) "").
      apply IH. discriminate.
Qed.

(** The events completed by a text that arrives in two parts. *)
Lemma split_events_app (x y : string) :
  split_events (x +:+ y)
  = (fst (split_events x)
       ++ fst (split_events (snd (split_events x) +:+ y)),
     snd (split_events (snd (split_events x) +:+ y))).
Proof.
  unfold split_events. cbn [fst snd].
  rewrite split_blank_app.
  rewrite removelast_app_ne, last_app_ne by apply split_on_nonempty.
  reflexivity.
Qed.

Lemma scan_lines_app (l1 l2 : list string) (data : list json) :
  scan_lines (l1 ++ l2) data
  = if snd (scan_lines l1 data) then (fst (scan_lines l1 data), true)
    else scan_lines l2 (fst (scan_lines l1 data)).
Proof.
  revert data. induction l1 as [|line l1 IH]; intros data; cbn [app scan_lines].
  - reflexivity.
  - destruct (line_effect line) as [| |j []]; cbn [fst snd]; auto.
Qed.

Lemma step_settled (timeout : Z) (s : SseState) (e : SseEvent) :
  settled s <> None -> step timeout s e = s.
Proof. unfold step. destruct (settled s); congruence. Qed.

Lemma run_settled (timeout : Z) (trace : list SseEvent) (s : SseState) :
  settled s <> None -> run timeout s trace = s.
Proof.
  revert s. induction trace as [|e trace IH]; intros s H; auto.
  unfold run. cbn [fold_left]. rewrite step_settled by assumption.
  now apply IH.
Qed.

Lemma step_data (timeout : Z) (s : SseState) (c : string) :
  settled s = None -> responded s = true ->
  step timeout s (Data c)
  = if snd (scan_lines (flat_map event_lines
                          (fst (split_events (buffer s +:+ c))))
              (sseData s))
    then {| sseData := fst (scan_lines
                              (flat_map event_lines
                                 (fst (split_events (buffer s +:+ c))))
                              (sseData s));
            buffer := snd (split_events (buffer s +:+ c));
            responded := true;
            timer := None;
            settled := Some (Ok (fst (scan_lines
                                        (flat_map event_lines
                                           (fst (split_events
                                                   (buffer s +:+ c))))
                                        (sseData s)))) |}
    else {| sseData := fst (scan_lines
                              (flat_map event_lines
                                 (fst (split_events (buffer s +:+ c))))
                              (sseData s));
            buffer := snd (split_events (buffer s +:+ c));
            responded := true;
            timer := timer s;
            settled := None |}.
Proof.
  intros Es Er. unfold step, settle. rewrite Es, Er.
  destruct (split_events (buffer s +:+ c)) as [events rest].
  cbn [fst snd].
  destruct (scan_lines (flat_map event_lines events) (sseData s))
    as [data []]; reflexivity.
Qed.

Lemma data_in_two_parts (timeout : Z) (s : SseState) (a b : string) :
  settled (step timeout (step timeout s (Data a)) (Data b))
  = settled (step timeout s (Data (a +:+ b)))
  /\ (settled (step timeout s (Data a)) = None ->
      step timeout (step timeout s (Data a)) (Data b)
      = step timeout s (Data (a +:+ b))).
Proof.
  destruct (settled s) as [o|] eqn:Es.
  { repeat (rewrite (step_settled timeout s) by congruence). auto. }
  destruct (responded s) eqn:Er.
  2:{ assert (H : forall c, step timeout s (Data c) = s)
        by (intros c; unfold step; now rewrite Es, Er).
      rewrite !H. auto. }
  rewrite (step_data timeout s (a +:+ b)), (step_data timeout s a)
    by assumption.
  rewrite <- (append_assoc (buffer s) a b).
  rewrite (split_events_app (buffer s +:+ a) b).
  cbn [fst snd]. rewrite flat_map_app, scan_lines_app.
  destruct (snd (scan_lines (flat_map event_lines
                               (fst (split_events (buffer s +:+ a))))
                   (sseData s))) eqn:E1.
  - rewrite step_settled by discriminate. cbn [settled fst snd].
    split; [reflexivity|discriminate].
  - rewrite step_data by reflexivity.
    cbn [settled responded buffer sseData timer].
    destruct (snd (scan_lines _ _)); auto.
Qed.

(** X26. How the stream is cut into chunks does not matter: receiving
    the chunk texts one after the other settles the promise exactly as
    receiving their concatenation in one chunk does, and while the
    promise is pending the whole state (messages, buffer, timer) is the
    same. *)
Theorem sse_chunking_independent (timeout : Z) (s : SseState)
  (chunk : string) (chunks : list string) :
  let many := run timeout s (map Data (chunk :: chunks)) in
  let one :=
    step timeout s (Data (fold_right String.append "" (chunk :: chunks))) in
  settled many = settled one /\ (settled many = None -> many = one).
Proof.
  cbv zeta. revert s chunk.
  induction chunks as [|c chunks IH]; intros s chunk.
  - cbn [map fold_right]. rewrite append_empty_r. unfold run.
    cbn [fold_left]. auto.
  - change (run timeout s (map Data (chunk :: c :: chunks)))
      with (run timeout (step timeout (step timeout s (Data chunk)) (Data c))
              (map Data chunks)).
    change (fold_right String.append "" (chunk :: c :: chunks))
      with (chunk +:+ fold_right String.append "" (c :: chunks)).
    destruct (settled (step timeout s (Data chunk))) as [o|] eqn:E.
    + rewrite (step_settled timeout (step timeout s (Data chunk)))
        by congruence.
      rewrite run_settled by congruence.
      destruct (data_in_two_parts timeout s chunk
                  (fold_right String.append "" (c :: chunks))) as [H _].
      rewrite step_settled in H by congruence.
      rewrite <- H, E. split; [reflexivity|discriminate].
    + destruct (data_in_two_parts timeout s chunk c) as [_ H2].
      rewrite (H2 E).
      change (run timeout (step timeout s (Data (chunk +:+ c)))
                (map Data chunks))
        with (run timeout s (map Data ((chunk +:+ c) :: chunks))).
      specialize (IH s (chunk +:+ c)).
      cbn [fold_right] in IH. rewrite append_assoc in IH. exact IH.
Qed.

(** ** handleSSERequest: what the promise holds *)

Lemma scan_lines_appends (lines : list string) (data : list json) :
  exists more, fst (scan_lines lines data) = data ++ more.
Proof.
  revert data. induction lines as [|line lines IH]; intros data;
    cbn [scan_lines].
  - exists []. now rewrite app_nil_r.
  - destruct (line_effect line) as [| |j []]; cbn [fst].
    + apply IH.
    + exists []. now rewrite app_nil_r.
    + now exists [j].
    + destruct (IH (data ++ [j])) as [more H]. exists (j :: more).
      now rewrite H, <- app_assoc.
Qed.

Lemma flush_lines_appends (lines : list string) (data : list json) :
  exists more, flush_lines lines data = data ++ more.
Proof.
  revert data. induction lines as [|line lines IH]; intros data;
    cbn [flush_lines].
  - exists []. now rewrite app_nil_r.
  - destruct (starts_with "data: " line); [|apply IH].
    destruct (Json.parse _) as [j|]; [|apply IH].
    destruct (IH (data ++ [j])) as [more H]. exists (j :: more).
    now rewrite H, <- app_assoc.
Qed.

Lemma step_appends (timeout : Z) (s : SseState) (e : SseEvent) :
  exists more, sseData (step timeout s e) = sseData s ++ more.
Proof.
  assert (Hsame : exists more, sseData s = sseData s ++ more)
    by (exists []; now rewrite app_nil_r).
  unfold step. destruct (settled s); [exact Hsame|].
  destruct e as [|chunk| |msg|msg|].
  - destruct (responded s); exact Hsame.
  - destruct (responded s); [|exact Hsame].
    destruct (split_events _) as [events rest].
    destruct (scan_lines_appends (flat_map event_lines events) (sseData s))
      as [more H].
    destruct (scan_lines _ _) as [data []]; cbn [sseData fst] in *; eauto.
  - destruct (responded s); [|exact Hsame]. cbn [sseData].
    destruct (String.eqb _ ""); [exact Hsame|apply flush_lines_appends].
  - destruct (responded s); exact Hsame.
  - exact Hsame.
  - destruct (timer s); exact Hsame.
Qed.

(** X27. The accumulated messages only grow: after any sequence of
    events they are the messages held before, followed by the ones
    received since; none is dropped, replaced or reordered. *)
Theorem sse_messages_only_appended (timeout : Z) (s : SseState)
  (trace : list SseEvent) :
  exists more, sseData (run timeout s trace) = sseData s ++ more.
Proof.
  revert s. induction trace as [|e trace IH]; intros s.
  - exists []. cbn. now rewrite app_nil_r.
  - change (run timeout s (e :: trace))
      with (run timeout (step timeout s e) trace).
    destruct (IH (step timeout s e)) as [more H].
    destruct (step_appends timeout s e) as [more' H'].
    exists (more' ++ more). now rewrite H, H', app_assoc.
Qed.

Lemma step_accounted (timeout : Z) (s : SseState) (e : SseEvent)
  (trace : list SseEvent) :
  accounted trace s -> accounted (trace ++ [e]) (step timeout s e).
Proof.
  unfold accounted, step. intros H.
  destruct (settled s) as [[data|err]|] eqn:Es.
  - rewrite Es. exact H.
  - rewrite Es. destruct H as [msg [[Hin He]|[Hin He]]]; exists msg;
      [left|right]; split; auto; apply in_or_app; auto.
  - unfold settle. rewrite Es.
    destruct e as [|chunk| |msg|msg|].
    + destruct (responded s); cbn [settled]; [now rewrite Es|exact I].
    + destruct (responded s); [|now rewrite Es].
      destruct (split_events _) as [events rest].
      destruct (scan_lines _ _) as [data []]; cbn [settled sseData]; auto.
    + destruct (responded s); [|now rewrite Es]. cbn [settled sseData]. auto.
    + destruct (responded s); [|now rewrite Es]. cbn [settled].
      exists msg. left. split; [|reflexivity].
      apply in_or_app. right. now left.
    + cbn [settled]. exists msg. right. split; [|reflexivity].
      apply in_or_app. right. now left.
    + destruct (timer s); [|now rewrite Es]. cbn [settled sseData].
      destruct (sseData s); auto.
Qed.

Lemma run_accounted (timeout : Z) (trace : list SseEvent) :
  forall (s : SseState) (before : list SseEvent),
  accounted before s -> accounted (before ++ trace) (run timeout s trace).
Proof.
  induction trace as [|e trace IH]; intros s before H.
  - now rewrite app_nil_r.
  - change (run timeout s (e :: trace))
      with (run timeout (step timeout s e) trace).
    replace (before ++ e :: trace) with ((before ++ [e]) ++ trace)
      by now rewrite <- app_assoc.
    apply IH. now apply step_accounted.
Qed.



(** X29. When the promise is resolved, it holds the messages
    accumulated so far, or, when there are none, possibly the single
    record of the timeout: it is never resolved with anything else. *)
Theorem sse_resolves_with_accumulated (timeout : Z) (trace : list SseEvent)
  (data : list json) :
  settled (run timeout initial trace) = Some (Ok data) ->
  data = sseData (run timeout initial trace)
  \/ (sseData (run timeout initial trace) = []
      /\ data = [JObj [("error", JStr "SSE timeout - no data received")]]).
Proof.
  intros H.
  pose proof (run_accounted timeout trace initial [] I) as Ha.
  unfold accounted in Ha. rewrite H in Ha. exact Ha.
Qed.

Lemma sse_resolves_with_accumulated_witness :
  [ok_response]
  = sseData (run 60000 initial [Response; Data (data_event ok_response)])
  \/ (sseData (run 60000 initial [Response; Data (data_event ok_response)])
      = []
      /\ [ok_response]
         = [JObj [("error", JStr "SSE timeout - no data received")]]).
Proof.
  apply (sse_resolves_with_accumulated 60000
           [Response; Data (data_event ok_response)] [ok_response]).
  vm_compute. reflexivity.
Defined.

End SuperiorApisMcpFacts.
